(** * RateLimiter: a shallow embedding of ratelimiter.cc / ratelimiter.h

    The limiter paces [send], [recv] and [sendfile] on a socket to a
    configured bit rate.  The embedding keeps the data of the C++ code:

    - [int], [long]/[time_t]/[ssize_t] and [size_t] are integers in [Z]
      with their conversions written out ([to_int], [to_long], [to_size]);
    - [double] is the primitive IEEE 754 binary64 type of the Standard
      Library ([PrimFloat.float]), whose operators are specified bit for
      bit by [SpecFloat];
    - [struct timespec] is a record of two [long]s;
    - the system calls ([::send], [::recv], [read], [::sendfile],
      [clock_gettime], [nanosleep], the mutex) are calls to an environment,
      logged in a trace; [errno] is part of the state;
    - the two [while] loops that need not terminate take fuel.

    The model is sequential: the mutex calls are logged, not interleaved. *)

From Stdlib Require Import ZArith List Bool Lia Reals Lra QArith.
From Stdlib Require Import Uint63 Floats.
Import ListNotations.

Local Open Scope Z_scope.

(** ** Machine integers *)

Module CInt.

Definition wrap_signed (w z : Z) : Z := (z + 2 ^ (w - 1)) mod 2 ^ w - 2 ^ (w - 1).

(** Conversion to [int] (32 bits, two's complement). *)
Definition to_int (z : Z) : Z := wrap_signed 32 z.

(** Conversion to [long], [time_t], [ssize_t] (64 bits, two's complement). *)
Definition to_long (z : Z) : Z := wrap_signed 64 z.

(** Conversion to [size_t] (64 bits, unsigned). *)
Definition to_size (z : Z) : Z := z mod 2 ^ 64.

Definition INT_MIN : Z := - 2 ^ 31.
Definition INT_MAX : Z := 2 ^ 31 - 1.

Definition EINTR : Z := 4.

End CInt.
Import CInt.

(** ** Doubles *)

Module CDouble.

Definition double := float.

(** [(double) n] for an unsigned 64-bit [n].  Below [2^63] this is the
    hardware conversion; above, the value is halved with a sticky low
    bit, converted and doubled, which rounds like the direct conversion. *)
Definition double_of_u64 (n : Z) : double :=
  if n <? 2 ^ 63 then of_uint63 (Uint63.of_Z n)
  else (of_uint63 (Uint63.of_Z (Z.lor (Z.shiftr n 1) (Z.land n 1))) * 2)%float.

(** [(double) z] for a signed [int] or [long]. *)
Definition double_of_Z (z : Z) : double :=
  if z <? 0 then (- double_of_u64 (- z))%float else double_of_u64 z.

(** The integer part of a double, rounded toward zero; [0] for a zero,
    an infinity or a NaN. *)
Definition trunc_Z (x : double) : Z :=
  match Prim2SF x with
  | S754_finite s m e =>
      let a := match e with
               | Zneg p => Z.pos m / 2 ^ Z.pos p
               | _ => Z.pos m * 2 ^ e
               end in
      if s then - a else a
  | _ => 0
  end.

(** [trunc] of <math.h>: zeros, infinities, NaN and the doubles with no
    fractional bits are returned as they are; the sign is kept. *)
Definition trunc (x : double) : double :=
  match Prim2SF x with
  | S754_finite s m (Zneg p) =>
      let r := of_uint63 (Uint63.of_Z (Z.pos m / 2 ^ Z.pos p)) in
      if s then (- r)%float else r
  | _ => x
  end.

(** [(int) x].  The conversion is undefined in C++ when the integer part
    does not fit; the value here is the one of the x86-64 conversion
    instruction, [INT_MIN], also for an infinity or a NaN. *)
Definition double_to_int (x : double) : Z :=
  match Prim2SF x with
  | S754_zero _ => 0
  | S754_finite _ _ _ =>
      let k := trunc_Z x in
      if (INT_MIN <=? k) && (k <=? INT_MAX) then k else INT_MIN
  | _ => INT_MIN
  end.

End CDouble.
Import CDouble.

(** ** Time arithmetic on [struct timespec] *)

Record timespec := mk_timespec { tv_sec : Z; tv_nsec : Z }.

Definition nmax : Z := 1000000000.

Definition time_less (t1 t2 : timespec) : bool :=
  (tv_sec t1 <? tv_sec t2)
  || ((tv_sec t1 =? tv_sec t2) && (tv_nsec t1 <? tv_nsec t2)).

(** [time_set(t1, t2)] overwrites [*t1]; the model returns its new value. *)
Definition time_set (t2 : timespec) : timespec :=
  {| tv_sec := tv_sec t2; tv_nsec := tv_nsec t2 |}.

Definition time_add (t1 : timespec) (duration : double) : timespec :=
  let sec := to_long (tv_sec t1 + double_to_int (trunc duration)) in
  let nsec :=
    to_long (tv_nsec t1
             + double_to_int (trunc ((duration - trunc duration) * double_of_Z nmax)%float)) in
  if nmax <=? nsec
  then {| tv_sec := to_long (sec + Z.quot nsec nmax); tv_nsec := Z.rem nsec nmax |}
  else {| tv_sec := sec; tv_nsec := nsec |}.

Definition time_diff (t1 t2 : timespec) : timespec :=
  let sec := to_long (tv_sec t1 - tv_sec t2) in
  let nsec := to_long (tv_nsec t1 - tv_nsec t2) in
  if nsec <? 0
  then {| tv_sec := to_long (sec - 1); tv_nsec := to_long (nsec + nmax) |}
  else {| tv_sec := sec; tv_nsec := nsec |}.

Definition time_diff2 (t1 t2 : timespec) : double :=
  let sec := to_long (tv_sec t1 - tv_sec t2) in
  let nsec := to_long (tv_nsec t1 - tv_nsec t2) in
  let '(sec, nsec) :=
    if nsec <? 0 then (to_long (sec - 1), to_long (nmax + nsec)) else (sec, nsec) in
  (double_of_Z sec + double_of_Z nsec / double_of_Z nmax)%float.

(** ** The limiter object *)

Record RateLimiter := mk_RateLimiter {
  send_ : timespec;
  recv_ : timespec;
  sendextra_ : double;
  recvextra_ : double;
  rate_ : Z;
  maxburst_ : Z
}.

Definition set_send_ (t : timespec) (L : RateLimiter) : RateLimiter :=
  mk_RateLimiter t (recv_ L) (sendextra_ L) (recvextra_ L) (rate_ L) (maxburst_ L).
Definition set_recv_ (t : timespec) (L : RateLimiter) : RateLimiter :=
  mk_RateLimiter (send_ L) t (sendextra_ L) (recvextra_ L) (rate_ L) (maxburst_ L).
Definition set_sendextra_ (x : double) (L : RateLimiter) : RateLimiter :=
  mk_RateLimiter (send_ L) (recv_ L) x (recvextra_ L) (rate_ L) (maxburst_ L).
Definition set_recvextra_ (x : double) (L : RateLimiter) : RateLimiter :=
  mk_RateLimiter (send_ L) (recv_ L) (sendextra_ L) x (rate_ L) (maxburst_ L).
Definition set_rate_ (r : Z) (L : RateLimiter) : RateLimiter :=
  mk_RateLimiter (send_ L) (recv_ L) (sendextra_ L) (recvextra_ L) r (maxburst_ L).
Definition set_maxburst_ (m : Z) (L : RateLimiter) : RateLimiter :=
  mk_RateLimiter (send_ L) (recv_ L) (sendextra_ L) (recvextra_ L) (rate_ L) m.

(** ** The bookkeeping of the critical sections *)

(** Lines 85-91 and 167-173: the credit draw-down.  Returns the new
    duration and the new credit. *)
Definition draw_down (duration extra : double) : double * double :=
  if (extra <=? duration)%float
  then ((duration - extra)%float, zero)
  else (zero, (extra - duration)%float).

(** Lines 94-98 and 176-180: the reservation of a slot.  Returns the new
    next-eligible time and the caller's waiting time before its slot. *)
Definition reserve (slot now : timespec) (duration : double) : timespec * timespec :=
  let '(slot, mine) :=
    if time_less slot now
    then (time_set now, mk_timespec 0 0)
    else (slot, time_diff slot now) in
  (time_add slot duration, mine).

(** The critical section of [send]: draw-down, then reservation. *)
Definition send_critical (now : timespec) (duration : double) (L : RateLimiter)
  : RateLimiter * (double * timespec) :=
  let '(duration, extra) := draw_down duration (sendextra_ L) in
  let '(slot, mysend) := reserve (send_ L) now duration in
  (set_send_ slot (set_sendextra_ extra L), (duration, mysend)).

(** The second critical section of [send]: the measured duration of the
    transfer is added to the credit. *)
Definition send_account (t1 t2 : timespec) (L : RateLimiter) : RateLimiter :=
  set_sendextra_ (sendextra_ L + time_diff2 t2 t1)%float L.

(** The critical section of [recv]: the measured duration is booked
    first, then draw-down and reservation. *)
Definition recv_critical (t1 t2 now : timespec) (duration : double) (L : RateLimiter)
  : RateLimiter * (double * timespec) :=
  let extra := (recvextra_ L + time_diff2 t2 t1)%float in
  let '(duration, extra) := draw_down duration extra in
  let '(slot, myrecv) := reserve (recv_ L) now duration in
  (set_recv_ slot (set_recvextra_ extra L), (duration, myrecv)).

(** The ideal duration of a chunk of [send]: [(double) (size * 8) / rate_],
    with [size] a [size_t] and [rate_] an [int]. *)
Definition send_duration (size rate : Z) : double :=
  (double_of_u64 (to_size (size * 8)) / double_of_Z rate)%float.

(** The ideal duration in [recv]: [(double) (result * 8) / rate_], with
    [result] an [int]. *)
Definition recv_duration (result rate : Z) : double :=
  (double_of_Z (to_int (result * 8)) / double_of_Z rate)%float.

(** The size of the next chunk: [total > maxburst_ ? maxburst_ : total],
    compared and assigned as [size_t]. *)
Definition chunk_size (total maxburst : Z) : Z :=
  if to_size maxburst <? total then to_size maxburst else total.

(** ** The environment: system calls, clock, trace *)

(** What a system call hands back: a count, or [-1] with [errno] set. *)
Inductive sysret := SysOk (n : Z) | SysErr (errno : Z).

Inductive Event :=
| EvSend (s buf len flags : Z)
| EvRecv (s buf len flags : Z)
| EvRead (fd buf count : Z)
| EvSendfile (sock fd offset count : Z)
| EvClock
| EvSleep (t : timespec)
| EvLock
| EvUnlock
| EvMutexInit
| EvMutexDestroy.

(** The answers of the outside world.  Each may depend on everything that
    happened before (the trace, latest event first) and on the arguments
    of the call.  Buffers are addresses; their contents play no role. *)
Record Env := mk_Env {
  env_send : list Event -> Z -> Z -> Z -> Z -> sysret;
  env_recv : list Event -> Z -> Z -> Z -> Z -> sysret;
  env_read : list Event -> Z -> Z -> Z -> sysret;
  env_sendfile : list Event -> Z -> Z -> Z -> Z -> sysret;
  env_clock : list Event -> timespec;
  (** where the local [char buf[1025]] of [sendfile] lives *)
  env_stackbuf : Z
}.

Record State := mk_State {
  lim : RateLimiter;      (** the object [*this] *)
  errno : Z;
  trace : list Event      (** latest event first *)
}.

(** A computation reads and writes the state; [None] is a loop that ran
    out of fuel. *)
Definition M (A : Type) : Type := State -> option (A * State).

Definition ret {A} (a : A) : M A := fun st => Some (a, st).

Definition bind {A B} (c : M A) (k : A -> M B) : M B :=
  fun st => match c st with
            | Some (a, st') => k a st'
            | None => None
            end.

Definition out_of_fuel {A} : M A := fun _ => None.

Declare Scope io_scope.
Delimit Scope io_scope with io.
Notation "x <- c ;; k" := (bind c (fun x => k))
  (at level 100, c at next level, right associativity) : io_scope.
Notation "c ;;; k" := (bind c (fun _ => k))
  (at level 100, right associativity) : io_scope.
Local Open Scope io_scope.

Definition get_lim : M RateLimiter := fun st => Some (lim st, st).
Definition modify_lim (f : RateLimiter -> RateLimiter) : M unit :=
  fun st => Some (tt, mk_State (f (lim st)) (errno st) (trace st)).
Definition get_errno : M Z := fun st => Some (errno st, st).
Definition log (e : Event) : M unit :=
  fun st => Some (tt, mk_State (lim st) (errno st) (e :: trace st)).

(** A system call: the environment answers, the call is logged, and a
    failure stores [errno] and yields [-1]. *)
Definition syscall (answer : list Event -> sysret) (e : Event) : M Z :=
  fun st =>
    match answer (trace st) with
    | SysOk n => Some (n, mk_State (lim st) (errno st) (e :: trace st))
    | SysErr err => Some (-1, mk_State (lim st) err (e :: trace st))
    end.

Section WithEnv.

Variable E : Env.

Definition sys_send (s buf len flags : Z) : M Z :=
  syscall (fun tr => env_send E tr s buf len flags) (EvSend s buf len flags).
Definition sys_recv (s buf len flags : Z) : M Z :=
  syscall (fun tr => env_recv E tr s buf len flags) (EvRecv s buf len flags).
Definition sys_read (fd buf count : Z) : M Z :=
  syscall (fun tr => env_read E tr fd buf count) (EvRead fd buf count).
Definition sys_sendfile (sock fd offset count : Z) : M Z :=
  syscall (fun tr => env_sendfile E tr sock fd offset count)
          (EvSendfile sock fd offset count).

Definition clock_gettime : M timespec :=
  fun st => Some (env_clock E (trace st),
                  mk_State (lim st) (errno st) (EvClock :: trace st)).
Definition nanosleep (t : timespec) : M unit := log (EvSleep t).
Definition pthread_mutex_lock : M unit := log EvLock.
Definition pthread_mutex_unlock : M unit := log EvUnlock.

(** *** Constructors, destructor, accessors

    A constructor runs on the storage of the object as it finds it:
    a member it does not assign keeps what the storage held. *)

Definition RateLimiter_ctor0 : M unit :=
  modify_lim (set_rate_ 0) ;;;
  modify_lim (set_maxburst_ 10000) ;;;
  t <- clock_gettime ;; modify_lim (set_send_ t) ;;;
  t <- clock_gettime ;; modify_lim (set_recv_ t) ;;;
  log EvMutexInit.

Definition RateLimiter_ctor1 (r : Z) : M unit :=
  modify_lim (set_rate_ (to_int (r * 1000))) ;;;
  modify_lim (set_maxburst_ 10000) ;;;
  t <- clock_gettime ;; modify_lim (set_send_ t) ;;;
  t <- clock_gettime ;; modify_lim (set_recv_ t) ;;;
  log EvMutexInit.

Definition RateLimiter_ctor2 (r maxburst : Z) : M unit :=
  modify_lim (set_rate_ (to_int (r * 1000))) ;;;
  modify_lim (set_maxburst_ maxburst) ;;;
  t <- clock_gettime ;; modify_lim (set_send_ t) ;;;
  log EvMutexInit.

Definition RateLimiter_dtor : M unit := log EvMutexDestroy.

Definition set_rate (r : Z) : M unit := modify_lim (set_rate_ (to_int (1000 * r))).
Definition set_rate2 (r m : Z) : M unit :=
  modify_lim (set_rate_ (to_int (1000 * r))) ;;; modify_lim (set_maxburst_ m).
Definition get_rate : M Z := L <- get_lim ;; ret (rate_ L).

(** *** [sendall] *)

(** The loop of [sendall]; [nwritten] is an [int], [nleft] a [size_t],
    [error] is the local that stays [0]. *)
Fixpoint sendall_loop (fuel : nat) (s ptr nleft flags len : Z) : M Z :=
  match fuel with
  | O => out_of_fuel
  | S fuel =>
      if nleft =? 0 then ret len
      else
        r <- sys_send s ptr nleft flags ;;
        let nwritten := to_int r in
        if nwritten <? 0 then
          e <- get_errno ;;
          if e =? EINTR
          then sendall_loop fuel s ptr nleft flags len
          else ret 0
        else if nwritten =? 0 then ret len
        else sendall_loop fuel s (ptr + nwritten) (to_size (nleft - nwritten)) flags len
  end.

Definition sendall (fuel : nat) (s buf len flags : Z) : M Z :=
  sendall_loop fuel s buf len flags len.

(** *** [send] *)

(** The loop of [send]; [total], [size] and [result] are [size_t]. *)
Fixpoint send_loop (fuel : nat) (s ptr total flags len : Z) : M Z :=
  match fuel with
  | O => out_of_fuel
  | S fuel =>
      if 0 <? total then
        L <- get_lim ;;
        let size := chunk_size total (maxburst_ L) in
        let duration := send_duration size (rate_ L) in
        now <- clock_gettime ;;
        pthread_mutex_lock ;;;
        L <- get_lim ;;
        let '(L', (duration, mysend)) := send_critical now duration L in
        modify_lim (fun _ => L') ;;;
        pthread_mutex_unlock ;;;
        nanosleep (time_add mysend duration) ;;;
        t1 <- clock_gettime ;;
        r <- sendall fuel s ptr size flags ;;
        let result := to_size r in
        if result <? 0 then ret result
        else
          t2 <- clock_gettime ;;
          pthread_mutex_lock ;;;
          modify_lim (send_account t1 t2) ;;;
          pthread_mutex_unlock ;;;
          send_loop fuel s (ptr + size) (to_size (total - size)) flags len
      else ret len
  end.

Definition send (fuel : nat) (s buf len flags : Z) : M Z :=
  L <- get_lim ;;
  if rate_ L =? 0
  then r <- sys_send s buf len flags ;; ret (to_size r)
  else send_loop fuel s buf len flags len.

(** *** [recv] *)

Definition recv (s buf len flags : Z) : M Z :=
  L <- get_lim ;;
  if rate_ L =? 0
  then r <- sys_recv s buf len flags ;; ret (to_size r)
  else
    let size := chunk_size len (maxburst_ L) in
    t1 <- clock_gettime ;;
    r <- sys_recv s buf size flags ;;
    let result := to_int r in
    if result <=? 0 then ret (to_size result)
    else
      t2 <- clock_gettime ;;
      L <- get_lim ;;
      let duration := recv_duration result (rate_ L) in
      now <- clock_gettime ;;
      pthread_mutex_lock ;;;
      L <- get_lim ;;
      let '(L', (duration, myrecv)) := recv_critical t1 t2 now duration L in
      modify_lim (fun _ => L') ;;;
      pthread_mutex_unlock ;;;
      nanosleep (time_add myrecv duration) ;;;
      ret (to_size result).

(** *** [sendfile] *)

(** The loop of [sendfile]; [len], [rnum] and [snum] are [size_t], the
    function returns an [ssize_t]. *)
Fixpoint sendfile_loop (fuel : nat) (sock fd count len : Z) : M Z :=
  match fuel with
  | O => out_of_fuel
  | S fuel =>
      if len <? count then
        r <- sys_read fd (env_stackbuf E) 1024 ;;
        let rnum := to_size r in
        if rnum <? 0 then
          e <- get_errno ;;
          if e =? EINTR
          then sendfile_loop fuel sock fd count len
          else ret (to_long rnum)
        else if rnum =? 0 then ret (to_long len)
        else
          let rnum := if to_size (count - len) <? rnum
                      then to_size (count - len) else rnum in
          r <- send fuel sock (env_stackbuf E) rnum 0 ;;
          let snum := to_size r in
          if snum <? 0 then ret (to_long snum)
          else sendfile_loop fuel sock fd count (to_size (len + rnum))
      else ret (to_long count)
  end.

Definition sendfile (fuel : nat) (sock fd offset count : Z) : M Z :=
  L <- get_lim ;;
  if rate_ L =? 0
  then sys_sendfile sock fd offset count
  else sendfile_loop fuel sock fd count 0.

End WithEnv.

(** * Vocabulary of the statements *)

(** * Facts about binary64 *)

(** ** Powers of two in [R] *)

Definition bpow (e : Z) : R := powerRZ 2 e.

(** ** The value of a mantissa and an exponent *)

Definition F2R (m e : Z) : R := (IZR m * bpow e)%R.

(** ** The format *)

Definition fexp64 (e : Z) : Z := SpecFloat.fexp prec emax e.
Definition emin64 : Z := SpecFloat.emin prec emax.

Definition canonical (m e : Z) : Prop := fexp64 (Zdigits2 m + e) = e.

(** ** Shifting right with round and sticky bits *)

Definition shr_exact (mrs : shr_record) : Prop := shr_r mrs = false /\ shr_s mrs = false.

(** The sign of a result of rounding. *)
Definition sign_is (sx : bool) (r : spec_float) : Prop :=
  match r with
  | S754_zero s | S754_infinity s | S754_finite s _ _ => s = sx
  | S754_nan => False
  end.

(** ** Doubles that are not negative *)

Definition SFnonneg (r : spec_float) : Prop :=
  match r with
  | S754_zero _ | S754_finite false _ _ | S754_infinity false => True
  | _ => False
  end.

Definition not_negative (x : double) : Prop := (0 <=? x)%float = true.

(** The value of a finite number; [0] for the others. *)
Definition SFval (r : spec_float) : R :=
  match r with
  | S754_finite s m e => F2R (cond_Zopp s (Z.pos m)) e
  | _ => 0%R
  end.

(** Finite and not negative: a zero or a positive number. *)
Definition SFfin_nonneg (r : spec_float) : Prop :=
  match r with
  | S754_zero _ | S754_finite false _ _ => True
  | _ => False
  end.

Definition SFvalid (r : spec_float) : Prop := valid_binary r = true.

(** *** Integer part *)

(** The integer part of a positive finite number. *)
Definition ipart (m : positive) (e : Z) : Z :=
  match e with
  | Z.neg p => Z.pos m / 2 ^ Z.pos p
  | _ => Z.pos m * 2 ^ e
  end.

(** ** [time_add] on a non-negative duration below [2^31] seconds *)

Definition ts_ns (t : timespec) : Z := tv_sec t * nmax + tv_nsec t.

(** A timestamp with its nanoseconds normalized and its seconds far from
    the ends of [time_t]. *)
Definition ts_ok (t : timespec) : Prop :=
  - 2 ^ 61 <= tv_sec t <= 2 ^ 61 /\ 0 <= tv_nsec t < nmax.

(** The whole seconds and the nanoseconds that [time_add] adds. *)
Definition add_sec (d : double) : Z := double_to_int (trunc d).
Definition add_nsec (d : double) : Z :=
  double_to_int (trunc ((d - trunc d) * double_of_Z nmax)%float).

(** ** Finite doubles *)

(** [0 <= x < infinity]. *)
Definition fin_nonneg (x : double) : Prop :=
  not_negative x /\ (x <? infinity)%float = true.

(** Below [2^31]. *)
Definition below_2p31 (x : double) : Prop := (x <? 2147483648)%float = true.

(** ** Order of timestamps *)

Definition normalized (t : timespec) : Prop := 0 <= tv_nsec t < nmax.

(** ** The draw-down as minimum and maximum *)

Definition double_min (a b : double) : double := if (a <=? b)%float then a else b.
Definition double_max (a b : double) : double := if (a <=? b)%float then b else a.

Definition SFnonpos (r : spec_float) : Prop :=
  match r with
  | S754_zero _ | S754_finite true _ _ | S754_infinity true => True
  | _ => False
  end.

Definition SFis_zero (r : spec_float) : Prop :=
  match r with S754_zero _ => True | _ => False end.

(** ** The clock *)

Definition clock_range (t : timespec) : Prop :=
  0 <= tv_sec t <= 2 ^ 60 /\ normalized t.

(** A clock whose readings never go back. *)
Definition clock_ok (E : Env) : Prop :=
  (forall tr, clock_range (env_clock E tr))
  /\ (forall tr tr', time_less (env_clock E (tr' ++ tr)) (env_clock E tr) = false).

(** What one turn of the loop of [send] does to the limiter. *)
Definition send_chunk (now t1 t2 : timespec) (total : Z) (L : RateLimiter) : RateLimiter :=
  send_account t1 t2
    (fst (send_critical now
            (send_duration (chunk_size total (maxburst_ L)) (rate_ L)) L)).

(** ** Credit is never negative *)

Definition credits_nonneg (L : RateLimiter) : Prop :=
  not_negative (sendextra_ L) /\ not_negative (recvextra_ L).

Definition rate_is_int (L : RateLimiter) : Prop := INT_MIN <= rate_ L <= INT_MAX.

(** *** What a system call and a paced [recv] compute *)

Definition sys_value (a : sysret) : Z :=
  match a with SysOk n => n | SysErr _ => -1 end.

Definition sys_errno (a : sysret) (old : Z) : Z :=
  match a with SysOk _ => old | SysErr e => e end.

(** The run of [recv] at a rate that is not zero, step by step. *)
Definition recv_paced_run (E : Env) (s buf len flags : Z) (st : State) : Z * State :=
  let size := chunk_size len (maxburst_ (lim st)) in
  let t1 := env_clock E (trace st) in
  let tr1 := EvClock :: trace st in
  let a := env_recv E tr1 s buf size flags in
  let result := to_int (sys_value a) in
  let er := sys_errno a (errno st) in
  let tr2 := EvRecv s buf size flags :: tr1 in
  if result <=? 0 then (to_size result, mk_State (lim st) er tr2)
  else
    let t2 := env_clock E tr2 in
    let now := env_clock E (EvClock :: tr2) in
    let cr := recv_critical t1 t2 now (recv_duration result (rate_ (lim st))) (lim st) in
    (to_size result,
     mk_State (fst cr) er
       (EvSleep (time_add (snd (snd cr)) (fst (snd cr)))
          :: EvUnlock :: EvLock :: EvClock :: EvClock :: tr2)).

(** ** The schedule never moves back *)

(** Every ideal duration that can come up is below [2^31] seconds, the
    range of the conversion to [int] in [time_add]. *)
Definition durations_fit (L : RateLimiter) : Prop :=
  (forall size, 0 <= size <= to_size (maxburst_ L) ->
                below_2p31 (send_duration size (rate_ L)))
  /\ (forall result, 0 < result <= to_size (maxburst_ L) ->
                     below_2p31 (recv_duration result (rate_ L))).

(** [::recv] hands back at most as many bytes as were asked for. *)
Definition recv_bounded (E : Env) : Prop :=
  forall tr s buf len flags n,
    env_recv E tr s buf len flags = SysOk n -> 0 <= n <= len.

(** A next-eligible time that is normalized and leaves room in [time_t]
    for [n] more reservations. *)
Definition slot_ok (n : Z) (t : timespec) : Prop :=
  normalized t /\ - 2 ^ 61 <= tv_sec t /\ tv_sec t + 2 ^ 32 * n <= 2 ^ 61.

(** The exact value of a timestamp and of a finite double, as rationals. *)
Definition ts_Q (t : timespec) : Q :=
  (inject_Z (tv_sec t) + inject_Z (tv_nsec t) / inject_Z nmax)%Q.

Definition double_Q (x : double) : Q :=
  match Prim2SF x with
  | S754_finite s m e =>
      ((if s then - (1) else 1) * inject_Z (Z.pos m) * Qpower 2 e)%Q
  | _ => 0%Q
  end.

(** ** Sample environments and states *)

Module Samples.

(** A clock that ticks one second per event, up to a hundred. *)
Definition ticking (tr : list Event) : timespec :=
  mk_timespec (1000 + Z.min (Z.of_nat (length tr)) 100) 0.

(** A transport that takes every byte it is offered and a file that
    always has a full block. *)
Definition env_accept : Env :=
  mk_Env (fun _ _ _ len _ => SysOk len)
         (fun _ _ _ len _ => if 0 <=? len then SysOk len else SysErr 22)
         (fun _ _ _ count => SysOk count) (fun _ _ _ _ count => SysOk count)
         ticking 7000.

(** A transport whose [::send] fails with ECONNRESET. *)
Definition env_reset : Env :=
  mk_Env (fun _ _ _ _ _ => SysErr 104) (fun _ _ _ _ _ => SysErr 104)
         (fun _ _ _ count => SysOk count) (fun _ _ _ _ _ => SysErr 104)
         ticking 7000.

(** A peer that takes 300 bytes and then no more. *)
Definition env_closing : Env :=
  mk_Env (fun tr _ _ _ _ =>
            if existsb (fun e => match e with EvSend _ _ _ _ => true | _ => false end) tr
            then SysOk 0 else SysOk 300)
         (fun _ _ _ _ _ => SysOk 0)
         (fun _ _ _ count => SysOk count) (fun _ _ _ _ count => SysOk count)
         ticking 7000.

(** A file whose [read] fails with EIO. *)
Definition env_eio : Env :=
  mk_Env (fun _ _ _ len _ => SysOk len) (fun _ _ _ len _ => SysOk len)
         (fun _ _ _ _ => SysErr 5) (fun _ _ _ _ _ => SysErr 5)
         ticking 7000.

Definition t0 : timespec := mk_timespec 1000 0.

(** A limiter at 8 kbit/s with bursts of 500 bytes. *)
Definition limiter : RateLimiter := mk_RateLimiter t0 t0 0.25%float 0%float 8000 500.

Definition unlimited : RateLimiter := mk_RateLimiter t0 t0 0%float 0%float 0 10000.

Definition start (L : RateLimiter) : State := mk_State L 0 [].

(** Storage that held something else before the limiter. *)
Definition raw_storage : RateLimiter :=
  mk_RateLimiter (mk_timespec 1 2) (mk_timespec 3 4) 5%float (-7)%float 77 88.

End Samples.
Import Samples.

(** * More of the code *)

(** ** The loops, one turn at a time *)

(** The state after a call of [::send]. *)
Definition after_send (E : Env) (s ptr nleft flags : Z) (st : State) : State :=
  mk_State (lim st)
    (sys_errno (env_send E (trace st) s ptr nleft flags) (errno st))
    (EvSend s ptr nleft flags :: trace st).

(** What [::send] handed back, as the [int] [nwritten]. *)
Definition nwritten_of (E : Env) (s ptr nleft flags : Z) (st : State) : Z :=
  to_int (sys_value (env_send E (trace st) s ptr nleft flags)).

(** The state in which [send] calls [sendall] for the next chunk. *)
Definition before_sendall (E : Env) (total : Z) (st : State) : State :=
  let L := lim st in
  let cr := send_critical (env_clock E (trace st))
              (send_duration (chunk_size total (maxburst_ L)) (rate_ L)) L in
  mk_State (fst cr) (errno st)
    (EvClock :: EvSleep (time_add (snd (snd cr)) (fst (snd cr)))
       :: EvUnlock :: EvLock :: EvClock :: trace st).

(** The reading [t1] of the clock just before [sendall]. *)
Definition chunk_t1 (E : Env) (total : Z) (st : State) : timespec :=
  env_clock E (tl (trace (before_sendall E total st))).

(** The state in which [send] goes round its loop again, from the state
    [st1] in which [sendall] returned. *)
Definition after_sendall (E : Env) (t1 : timespec) (st1 : State) : State :=
  mk_State (send_account t1 (env_clock E (trace st1)) (lim st1))
    (errno st1) (EvUnlock :: EvLock :: EvClock :: trace st1).

(** ** What [send] and [sendall] hand back *)

Definition is_send (e : Event) : bool :=
  match e with EvSend _ _ _ _ => true | _ => false end.

(** A call of [::send] on socket [s] with flags [flags]. *)
Definition send_on (s flags : Z) (e : Event) : Prop :=
  match e with
  | EvSend s' _ _ f => s' = s /\ f = flags
  | _ => False
  end.

(** The loop of [sendall] goes from one call of [::send] to the next
    only when the call was interrupted, and then it offers the same
    bytes again, or when the call took some of the bytes and not all,
    and then it offers those that are left. *)
Inductive sendall_reaches (E : Env) (s flags : Z)
  : Z -> Z -> State -> Z -> Z -> State -> Prop :=
| reaches_first p n st : sendall_reaches E s flags p n st p n st
| reaches_retry p n st p' n' st' :
    nwritten_of E s p n flags st < 0 ->
    errno (after_send E s p n flags st) = EINTR ->
    sendall_reaches E s flags p n (after_send E s p n flags st) p' n' st' ->
    sendall_reaches E s flags p n st p' n' st'
| reaches_rest p n st p' n' st' :
    0 < nwritten_of E s p n flags st ->
    to_size (n - nwritten_of E s p n flags st) <> 0 ->
    sendall_reaches E s flags (p + nwritten_of E s p n flags st)
      (to_size (n - nwritten_of E s p n flags st)) (after_send E s p n flags st)
      p' n' st' ->
    sendall_reaches E s flags p n st p' n' st'.

(** ** [sendfile], one turn at a time *)

(** The state after [sendfile] has read a block of the file. *)
Definition after_read (E : Env) (fd : Z) (st : State) : State :=
  mk_State (lim st)
    (sys_errno (env_read E (trace st) fd (env_stackbuf E) 1024) (errno st))
    (EvRead fd (env_stackbuf E) 1024 :: trace st).

(** What [read] handed back, as the [size_t] [rnum]. *)
Definition rnum_of (E : Env) (fd : Z) (st : State) : Z :=
  to_size (sys_value (env_read E (trace st) fd (env_stackbuf E) 1024)).

(** ** The mutex *)

(** Whether the mutex is held at the end of a history, [None] when the
    history breaks the discipline: the mutex is taken only when free and
    released only when held, and while it is held the thread makes no
    system call, reads no clock and does not sleep. *)
Fixpoint mutex_held (tr : list Event) : option bool :=
  match tr with
  | [] => Some false
  | e :: tr =>
      match mutex_held tr, e with
      | Some false, EvLock => Some true
      | Some true, EvUnlock => Some false
      | Some false, EvUnlock => None
      | Some false, _ => Some false
      | _, _ => None
      end
  end.

Definition mutex_free (tr : list Event) : Prop := mutex_held tr = Some false.

(** ** What [sendfile] hands back *)

(** No [read] reports the end of the file. *)
Definition never_eof (E : Env) : Prop :=
  forall tr fd buf count, to_size (sys_value (env_read E tr fd buf count)) <> 0.

(** ** The calls of [::send] *)

(** [::send] reports at most as many bytes as it was offered. *)
Definition send_bounded (E : Env) : Prop :=
  forall tr s ptr n flags k,
    0 <= n -> env_send E tr s ptr n flags = SysOk k -> 0 <= k <= n.

(** An event that is no call of the transport or of the file, or a call
    of [::send] on socket [s] with flags [flags], for one byte at least
    and [burst] at most, all of them among the bytes from [lo] up to
    [hi]. *)
Definition in_buffer (s flags lo hi burst : Z) (e : Event) : Prop :=
  match e with
  | EvSend s' p n f => s' = s /\ f = flags /\ lo <= p /\ p + n <= hi /\ 0 < n <= burst
  | EvRecv _ _ _ _ | EvRead _ _ _ | EvSendfile _ _ _ _ => False
  | _ => True
  end.

(** ** Termination *)

(** [::send] takes one byte at least, and at most what it is offered. *)
Definition send_progress (E : Env) : Prop :=
  forall tr s ptr n flags,
    0 < n -> exists k, env_send E tr s ptr n flags = SysOk k /\ 0 < k <= n.

(** A transport that takes up to 300 bytes of what it is offered. *)
Definition env_slow : Env :=
  mk_Env (fun _ _ _ len _ => SysOk (Z.min len 300))
         (fun _ _ _ len _ => SysOk (Z.min len 300))
         (fun _ _ _ count => SysOk count) (fun _ _ _ _ count => SysOk count)
         ticking 7000.

(** Every [read] succeeds, with at most the count it was asked for. *)
Definition read_succeeds (E : Env) : Prop :=
  forall tr fd buf count,
    0 <= count -> exists k, env_read E tr fd buf count = SysOk k /\ 0 <= k <= count.

(** An event of a paced [sendfile] that is in order: a [read] of 1024
    bytes from [fd] into the block at [lo], a call of [::send] on
    [sock] with no flags for bytes of that block, or no call of the
    transport or of the file at all. *)
Definition in_block (sock fd lo : Z) (e : Event) : Prop :=
  match e with
  | EvSend s' p n f => s' = sock /\ f = 0 /\ lo <= p /\ p + n <= lo + 1024 /\ 0 < n
  | EvRead fd' b c => fd' = fd /\ b = lo /\ c = 1024
  | EvRecv _ _ _ _ | EvSendfile _ _ _ _ => False
  | _ => True
  end.

(** ** The requests to sleep *)

(** A request to sleep that [nanosleep] accepts: seconds not negative,
    nanoseconds from 0 to 999999999. *)
Definition sleep_valid (e : Event) : Prop :=
  match e with
  | EvSleep t => 0 <= tv_sec t /\ 0 <= tv_nsec t < nmax
  | _ => True
  end.

(** ** The time arithmetic as a whole *)

(** The value of a finite double, as a real number. *)
Definition double_R (x : double) : R := SFval (Prim2SF x).

(** ** The schedule across sequences of calls *)

(** A call of [send], with the number of turns its loop may take, or of
    [recv]. *)
Inductive call :=
| CallSend (fuel : nat) (s buf len flags : Z)
| CallRecv (s buf len flags : Z).

Definition run_call (E : Env) (c : call) : M Z :=
  match c with
  | CallSend fuel s buf len flags => send E fuel s buf len flags
  | CallRecv s buf len flags => recv E s buf len flags
  end.

(** The calls of a sequence, one after the other on the same limiter. *)
Fixpoint run_calls (E : Env) (cs : list call) : M unit :=
  match cs with
  | [] => ret tt
  | c :: cs => bind (run_call E c) (fun _ => run_calls E cs)
  end.

(** A bound on the chunks that the calls of [send] of a sequence send,
    and the number of its calls of [recv]. *)
Fixpoint send_turns (cs : list call) : Z :=
  match cs with
  | [] => 0
  | CallSend fuel _ _ _ _ :: cs => Z.of_nat fuel + send_turns cs
  | CallRecv _ _ _ _ :: cs => send_turns cs
  end.

Fixpoint recv_turns (cs : list call) : Z :=
  match cs with
  | [] => 0
  | CallSend _ _ _ _ _ :: cs => recv_turns cs
  | CallRecv _ _ _ _ :: cs => 1 + recv_turns cs
  end.

(** The state of a limiter in which the arithmetic of the schedule is in
    range: credits not negative, ideal durations below [2^31] seconds,
    next-eligible times normalized and with room in [time_t] for [ns]
    reservations of [send] and [nr] of [recv]. *)
Definition schedule_ready (ns nr : Z) (L : RateLimiter) : Prop :=
  credits_nonneg L /\ durations_fit L
  /\ slot_ok ns (send_ L) /\ slot_ok nr (recv_ L).

(** The whole nanoseconds that [time_add] adds for a duration. *)
Definition advance (d : double) : Z := trunc_Z d * nmax + add_nsec d.

(** A clock that jumps back once, between the readings [t1] and [t2] of
    the first chunk of a [send]. *)
Definition env_clock_jump : Env :=
  mk_Env (fun _ _ _ len _ => SysOk len)
         (fun _ _ _ len _ => SysOk len)
         (fun _ _ _ count => SysOk count) (fun _ _ _ _ count => SysOk count)
         (fun tr => if (length tr =? 4)%nat then mk_timespec 4000000000 0
                    else mk_timespec 1000 0)
         7000.

(** * Proofs *)

Lemma bpow_gt0 e : (0 < bpow e)%R.
Proof. apply powerRZ_lt; lra. Qed.

Lemma bpow_add a b : bpow (a + b) = (bpow a * bpow b)%R.
Proof. apply powerRZ_add; lra. Qed.

Lemma bpow_Z n : 0 <= n -> bpow n = IZR (2 ^ n).
Proof.
  intros Hn. unfold bpow.
  rewrite <- (Z2Nat.id n) by assumption.
  rewrite <- pow_powerRZ, <- pow_IZR. reflexivity.
Qed.

Lemma bpow_ge1 n : 0 <= n -> (1 <= bpow n)%R.
Proof.
  intros Hn. rewrite bpow_Z by assumption. apply IZR_le.
  assert (0 < 2 ^ n) by (apply Z.pow_pos_nonneg; lia). lia.
Qed.

Lemma bpow_le a b : a <= b -> (bpow a <= bpow b)%R.
Proof.
  intros Hab. replace b with (a + (b - a)) by ring. rewrite bpow_add.
  pose proof (bpow_gt0 a). pose proof (bpow_ge1 (b - a) ltac:(lia)). nra.
Qed.

Lemma bpow_lt a b : a < b -> (bpow a < bpow b)%R.
Proof.
  intros Hab. replace b with (a + 1 + (b - a - 1)) by ring. rewrite !bpow_add.
  pose proof (bpow_gt0 a). pose proof (bpow_ge1 (b - a - 1) ltac:(lia)).
  replace (bpow 1) with 2%R by (unfold bpow; simpl; lra). nra.
Qed.

Lemma bpow_lt_inv a b : (bpow a < bpow b)%R -> a < b.
Proof.
  intros H. destruct (Z_lt_le_dec a b) as [|Hle]; [assumption|].
  apply bpow_le in Hle. lra.
Qed.

Lemma F2R_shift m e k : 0 <= k -> F2R (m * 2 ^ k) (e - k) = F2R m e.
Proof.
  intros Hk. unfold F2R. rewrite mult_IZR, <- bpow_Z by assumption.
  replace e with ((e - k) + k) at 2 by ring. rewrite (bpow_add (e - k) k). ring.
Qed.

Lemma F2R_le_same e m1 m2 : m1 <= m2 -> (F2R m1 e <= F2R m2 e)%R.
Proof.
  intros H. unfold F2R. apply IZR_le in H. pose proof (bpow_gt0 e). nra.
Qed.

Lemma F2R_le_same_inv e m1 m2 : (F2R m1 e <= F2R m2 e)%R -> m1 <= m2.
Proof.
  unfold F2R. intros H. apply le_IZR. pose proof (bpow_gt0 e). nra.
Qed.

Lemma F2R_lt_same_inv e m1 m2 : (F2R m1 e < F2R m2 e)%R -> m1 < m2.
Proof.
  unfold F2R. intros H. apply lt_IZR. pose proof (bpow_gt0 e). nra.
Qed.

(** ** Number of binary digits *)

Lemma digits2_pos_bounds p :
  2 ^ (Z.pos (digits2_pos p) - 1) <= Z.pos p < 2 ^ Z.pos (digits2_pos p).
Proof.
  induction p as [p IH|p IH|]; cbn [digits2_pos].
  - rewrite Pos2Z.inj_succ.
    replace (Z.succ (Z.pos (digits2_pos p)) - 1) with (Z.succ (Z.pos (digits2_pos p) - 1)) by lia.
    rewrite !Z.pow_succ_r by lia. lia.
  - rewrite Pos2Z.inj_succ.
    replace (Z.succ (Z.pos (digits2_pos p)) - 1) with (Z.succ (Z.pos (digits2_pos p) - 1)) by lia.
    rewrite !Z.pow_succ_r by lia. lia.
  - cbn. lia.
Qed.

Lemma Zdigits2_bounds m :
  0 < m -> 2 ^ (Zdigits2 m - 1) <= m < 2 ^ Zdigits2 m.
Proof.
  destruct m as [|p|p]; try lia. intros _. apply digits2_pos_bounds.
Qed.

Lemma Zdigits2_pos m : 0 < m -> 0 < Zdigits2 m.
Proof. destruct m; cbn; lia. Qed.

Lemma Zdigits2_nonneg m : 0 <= Zdigits2 m.
Proof. destruct m; cbn; lia. Qed.

(** [Zdigits2 m] is the only [d] with [2^(d-1) <= m < 2^d]. *)
Lemma Zdigits2_unique m d :
  0 < d -> 2 ^ (d - 1) <= m < 2 ^ d -> Zdigits2 m = d.
Proof.
  intros Hd [Hlo Hhi].
  assert (Hm : 0 < m).
  { assert (0 < 2 ^ (d - 1)) by (apply Z.pow_pos_nonneg; lia). lia. }
  destruct (Zdigits2_bounds m Hm) as [Hlo' Hhi'].
  pose proof (Zdigits2_pos m Hm) as Hp.
  destruct (Z.lt_trichotomy (Zdigits2 m) d) as [Hlt|[Heq|Hgt]]; [|assumption|].
  - assert (2 ^ Zdigits2 m <= 2 ^ (d - 1)) by (apply Z.pow_le_mono_r; lia). lia.
  - assert (2 ^ d <= 2 ^ (Zdigits2 m - 1)) by (apply Z.pow_le_mono_r; lia). lia.
Qed.

Lemma Zdigits2_le m1 m2 : 0 <= m1 <= m2 -> Zdigits2 m1 <= Zdigits2 m2.
Proof.
  intros [H1 H2].
  destruct (Z.eq_dec m1 0) as [->|Hn]; [apply Zdigits2_nonneg|].
  assert (Hm1 : 0 < m1) by lia. assert (Hm2 : 0 < m2) by lia.
  destruct (Zdigits2_bounds m1 Hm1) as [Hlo1 _].
  destruct (Zdigits2_bounds m2 Hm2) as [_ Hhi2].
  destruct (Z_lt_le_dec (Zdigits2 m2) (Zdigits2 m1)) as [Hlt|]; [|assumption].
  assert (2 ^ Zdigits2 m2 <= 2 ^ (Zdigits2 m1 - 1)) by (apply Z.pow_le_mono_r; lia). lia.
Qed.

Lemma Zdigits2_shift m k : 0 < m -> 0 <= k -> Zdigits2 (m * 2 ^ k) = Zdigits2 m + k.
Proof.
  intros Hm Hk. destruct (Zdigits2_bounds m Hm) as [Hlo Hhi].
  pose proof (Zdigits2_pos m Hm).
  assert (0 < 2 ^ k) by (apply Z.pow_pos_nonneg; lia).
  apply Zdigits2_unique; [lia|].
  replace (Zdigits2 m + k - 1) with ((Zdigits2 m - 1) + k) by ring.
  rewrite !Z.pow_add_r by lia. nia.
Qed.

Lemma F2R_digits m e : 0 < m ->
  (bpow (Zdigits2 m - 1 + e) <= F2R m e < bpow (Zdigits2 m + e))%R.
Proof.
  intros Hm. destruct (Zdigits2_bounds m Hm) as [Hlo Hhi].
  pose proof (Zdigits2_pos m Hm).
  unfold F2R. rewrite (bpow_add (Zdigits2 m - 1) e), (bpow_add (Zdigits2 m) e).
  rewrite (bpow_Z (Zdigits2 m - 1)), (bpow_Z (Zdigits2 m)) by lia.
  apply IZR_le in Hlo. apply IZR_lt in Hhi. pose proof (bpow_gt0 e). split.
  - apply Rmult_le_compat_r; lra.
  - apply Rmult_lt_compat_r; lra.
Qed.

Lemma fexp_mono a b : a <= b -> fexp64 a <= fexp64 b.
Proof. unfold fexp64, SpecFloat.fexp. lia. Qed.

Lemma fexp_ge_emin a : emin64 <= fexp64 a.
Proof. unfold fexp64, emin64, SpecFloat.fexp. lia. Qed.

Lemma fexp_le a : emin64 <= a -> fexp64 a <= a.
Proof. unfold fexp64, emin64, SpecFloat.fexp, SpecFloat.emin, prec, emax. lia. Qed.

Lemma fexp_eq a : fexp64 a = Z.max (a - 53) (-1074).
Proof. reflexivity. Qed.

Lemma canonical_mantissa_iff m e :
  canonical_mantissa prec emax m e = true <-> canonical (Z.pos m) e.
Proof. unfold canonical_mantissa, canonical. cbn [Zdigits2]. apply Z.eqb_eq. Qed.

Lemma bounded_iff m e :
  bounded prec emax m e = true <-> canonical (Z.pos m) e /\ e <= emax - prec.
Proof.
  unfold bounded. rewrite andb_true_iff, canonical_mantissa_iff, Z.leb_le. tauto.
Qed.

Lemma canonical_digits m e : 0 < m -> canonical m e -> Zdigits2 m <= prec /\ emin64 <= e.
Proof.
  unfold canonical. rewrite fexp_eq. intros Hm H. change emin64 with (-1074). change prec with 53. lia.
Qed.

Lemma shr_1_m mrs : 0 <= shr_m mrs -> shr_m (shr_1 mrs) = shr_m mrs / 2.
Proof.
  destruct mrs as [m r s]. cbn [shr_m]. intros Hm. rewrite <- Z.div2_div.
  destruct m as [|[p|p|]|p]; try reflexivity. lia.
Qed.

Lemma shr_1_exact mrs :
  shr_exact mrs -> Z.even (shr_m mrs) = true -> shr_exact (shr_1 mrs).
Proof.
  destruct mrs as [m r s]. unfold shr_exact. cbn [shr_m shr_r shr_s].
  intros [-> ->] Hev. destruct m as [|[p|p|]|[p|p|]]; cbn in *; auto; discriminate.
Qed.

Lemma iter_pos_nat {A} (f : A -> A) p x :
  iter_pos f p x = Nat.iter (Pos.to_nat p) f x.
Proof.
  revert x. induction p as [p IH|p IH|]; intros x; cbn [iter_pos].
  - rewrite !IH, Pos2Nat.inj_xI, Nat.iter_succ_r.
    replace (2 * Pos.to_nat p)%nat with (Pos.to_nat p + Pos.to_nat p)%nat by lia.
    rewrite Nat.iter_add. reflexivity.
  - rewrite !IH, Pos2Nat.inj_xO.
    replace (2 * Pos.to_nat p)%nat with (Pos.to_nat p + Pos.to_nat p)%nat by lia.
    rewrite Nat.iter_add. reflexivity.
  - reflexivity.
Qed.

Lemma shr_iter_m n mrs :
  0 <= shr_m mrs ->
  shr_m (Nat.iter n shr_1 mrs) = shr_m mrs / 2 ^ Z.of_nat n.
Proof.
  intros Hm. induction n as [|n IH].
  - cbn. rewrite Z.div_1_r. reflexivity.
  - rewrite Nat.iter_succ, shr_1_m.
    + rewrite IH, Nat2Z.inj_succ, Z.pow_succ_r by lia.
      rewrite Z.div_div by (try apply Z.pow_pos_nonneg; lia).
      rewrite (Z.mul_comm 2). reflexivity.
    + rewrite IH. apply Z.div_pos; [assumption|apply Z.pow_pos_nonneg; lia].
Qed.

Lemma shr_iter_exact n mrs :
  0 <= shr_m mrs -> shr_exact mrs -> shr_m mrs mod 2 ^ Z.of_nat n = 0 ->
  shr_exact (Nat.iter n shr_1 mrs).
Proof.
  intros Hm Hex. induction n as [|n IH]; intros Hmod.
  - exact Hex.
  - rewrite Nat.iter_succ.
    rewrite Nat2Z.inj_succ, Z.pow_succ_r in Hmod by lia.
    assert (Hp : 0 < 2 ^ Z.of_nat n) by (apply Z.pow_pos_nonneg; lia).
    assert (Hdiv : shr_m mrs = 2 * 2 ^ Z.of_nat n * (shr_m mrs / (2 * 2 ^ Z.of_nat n))).
    { apply Z.div_exact; lia. }
    set (q := shr_m mrs / (2 * 2 ^ Z.of_nat n)) in *.
    apply shr_1_exact.
    + apply IH. rewrite Hdiv.
      replace (2 * 2 ^ Z.of_nat n * q) with ((2 * q) * 2 ^ Z.of_nat n) by ring.
      apply Z.mod_mul. lia.
    + rewrite shr_iter_m by assumption. rewrite Hdiv.
      replace (2 * 2 ^ Z.of_nat n * q) with ((2 * q) * 2 ^ Z.of_nat n) by ring.
      rewrite Z.div_mul by lia. rewrite Z.even_mul. reflexivity.
Qed.

(** What [shr mrs e n] computes, for a mantissa that is not negative. *)
Lemma shr_spec mrs e n :
  0 <= shr_m mrs ->
  let k := Z.max n 0 in
  shr_m (fst (shr mrs e n)) = shr_m mrs / 2 ^ k
  /\ snd (shr mrs e n) = e + k
  /\ (shr_exact mrs -> shr_m mrs mod 2 ^ k = 0 -> shr_exact (fst (shr mrs e n))).
Proof.
  intros Hm k. unfold shr. destruct n as [|p|p]; cbn [fst snd].
  - subst k. cbn. rewrite Z.div_1_r, Z.add_0_r. auto.
  - subst k. rewrite Z.max_l by lia. rewrite iter_pos_nat.
    rewrite <- (positive_nat_Z p).
    split; [apply shr_iter_m; assumption|]. split; [reflexivity|].
    intros Hex Hmod. apply shr_iter_exact; assumption.
  - subst k. rewrite Z.max_r by lia. cbn. rewrite Z.div_1_r, Z.add_0_r. auto.
Qed.

Lemma round_nearest_even_bounds mrs :
  let m := round_nearest_even (shr_m mrs) (loc_of_shr_record mrs) in
  shr_m mrs <= m <= shr_m mrs + 1 /\ (shr_exact mrs -> m = shr_m mrs).
Proof.
  destruct mrs as [m [|] [|]]; unfold shr_exact; cbn; repeat split; try lia;
    try (intros [? ?]; discriminate);
    destruct (Z.even m); lia.
Qed.

Lemma shr_record_of_loc_m m l : shr_m (shr_record_of_loc m l) = m.
Proof. destruct l as [|[| |]]; reflexivity. Qed.

Lemma shr_record_of_loc_exact m : shr_exact (shr_record_of_loc m loc_Exact).
Proof. split; reflexivity. Qed.

(** ** Rounding to the format *)

(** [binary_round_aux] shifts the mantissa right to the exponent of the
    format, rounds to [mR], the shifted mantissa or its successor, and
    shifts once more if the rounding carried. *)
Lemma binary_round_aux_spec sx mx ex lx :
  0 <= mx ->
  let n := Z.max (fexp64 (Zdigits2 mx + ex) - ex) 0 in
  let e1 := ex + n in
  exists mR,
    mx / 2 ^ n <= mR <= mx / 2 ^ n + 1
    /\ (lx = loc_Exact -> mx mod 2 ^ n = 0 -> mR = mx / 2 ^ n)
    /\ let k := Z.max (fexp64 (Zdigits2 mR + e1) - e1) 0 in
       binary_round_aux prec emax sx mx ex lx =
       match mR / 2 ^ k with
       | Z0 => S754_zero sx
       | Z.pos m =>
           if e1 + k <=? emax - prec then S754_finite sx m (e1 + k) else S754_infinity sx
       | Z.neg _ => S754_nan
       end.
Proof.
  intros Hmx n e1. unfold binary_round_aux, shr_fexp.
  change (SpecFloat.fexp prec emax) with fexp64.
  set (mrs0 := shr_record_of_loc mx lx).
  assert (Hm0 : 0 <= shr_m mrs0) by (subst mrs0; rewrite shr_record_of_loc_m; assumption).
  destruct (shr_spec mrs0 ex (fexp64 (Zdigits2 mx + ex) - ex) Hm0) as (Hm1 & He1 & Hex1).
  fold n in Hm1, He1, Hex1.
  destruct (shr mrs0 ex (fexp64 (Zdigits2 mx + ex) - ex)) as [mrs' e'].
  cbn [fst snd] in Hm1, He1, Hex1. fold e1 in He1. subst e'.
  unfold mrs0 in Hm1; rewrite shr_record_of_loc_m in Hm1.
  destruct (round_nearest_even_bounds mrs') as [HmR HmRex].
  set (mR := round_nearest_even (shr_m mrs') (loc_of_shr_record mrs')) in *.
  exists mR. rewrite <- Hm1. split; [exact HmR|]. split.
  - intros -> Hmod. apply HmRex, Hex1.
    + apply shr_record_of_loc_exact.
    + unfold mrs0. rewrite shr_record_of_loc_m. assumption.
  - assert (Hp : 0 <= shr_m mrs').
    { rewrite Hm1. apply Z.div_pos; [assumption|apply Z.pow_pos_nonneg; lia]. }
    assert (HR : 0 <= shr_m (shr_record_of_loc mR loc_Exact)) by (cbn; lia).
    destruct (shr_spec (shr_record_of_loc mR loc_Exact) e1
                (fexp64 (Zdigits2 mR + e1) - e1) HR) as (Hm2 & He2 & _).
    destruct (shr (shr_record_of_loc mR loc_Exact) e1 (fexp64 (Zdigits2 mR + e1) - e1))
      as [mrs'' e''].
    cbn [fst snd shr_m shr_record_of_loc] in Hm2, He2. cbv zeta.
    rewrite Hm2, He2. reflexivity.
Qed.

Lemma binary_round_aux_sign sx mx ex lx :
  0 <= mx -> sign_is sx (binary_round_aux prec emax sx mx ex lx).
Proof.
  intros Hmx.
  destruct (binary_round_aux_spec sx mx ex lx Hmx) as (mR & [HmR _] & _ & Heq).
  cbv zeta in Heq. rewrite Heq.
  set (n := Z.max (fexp64 (Zdigits2 mx + ex) - ex) 0) in *.
  set (k := Z.max _ 0).
  assert (0 <= mx / 2 ^ n) by (apply Z.div_pos; [assumption|apply Z.pow_pos_nonneg; lia]).
  assert (Hq : 0 <= mR / 2 ^ k) by (apply Z.div_pos; [lia|apply Z.pow_pos_nonneg; lia]).
  destruct (mR / 2 ^ k) as [|q|q]; cbn; try reflexivity; try lia.
  destruct (_ <=? _); reflexivity.
Qed.

(** Rounding is below every number of the format that the exact value is
    below. *)
Lemma binary_round_aux_le sx M e D eD :
  0 < M -> e <= fexp64 (Zdigits2 M + e) ->
  0 < D -> canonical D eD -> eD <= emax - prec ->
  (F2R M e <= F2R D eD)%R ->
  binary_round_aux prec emax sx M e loc_Exact = S754_zero sx
  \/ exists m' e',
       binary_round_aux prec emax sx M e loc_Exact = S754_finite sx m' e'
       /\ (F2R (Z.pos m') e' <= F2R D eD)%R.
Proof.
  intros HM Hpre HD Hcan Hbnd Hle.
  destruct (binary_round_aux_spec sx M e loc_Exact ltac:(lia)) as (mR & HmR & Hex & Heq).
  cbv zeta in Heq, HmR, Hex.
  set (n := Z.max (fexp64 (Zdigits2 M + e) - e) 0) in *.
  assert (Hn : n = fexp64 (Zdigits2 M + e) - e) by (subst n; lia).
  set (e1 := e + n) in *.
  assert (He1 : e1 = fexp64 (Zdigits2 M + e)) by (subst e1; lia).
  (* exponents *)
  assert (HA : Zdigits2 M + e <= Zdigits2 D + eD).
  { destruct (F2R_digits M e HM) as [Hlo _]. destruct (F2R_digits D eD HD) as [_ Hhi].
    assert (Hlt : (bpow (Zdigits2 M - 1 + e) < bpow (Zdigits2 D + eD))%R) by lra.
    apply bpow_lt_inv in Hlt. lia. }
  assert (HB : e1 <= eD).
  { rewrite He1, <- Hcan. apply fexp_mono. assumption. }
  (* the bound, at the exponent e1 *)
  set (D' := D * 2 ^ (eD - e1)).
  assert (HD'val : F2R D' e1 = F2R D eD).
  { unfold D'. replace e1 with (eD - (eD - e1)) at 2 by ring. apply F2R_shift. lia. }
  assert (Hpn : 0 < 2 ^ n) by (apply Z.pow_pos_nonneg; lia).
  assert (HMle : M <= D' * 2 ^ n).
  { apply (F2R_le_same_inv e).
    replace e with (e1 - n) at 2 by (subst e1; ring).
    rewrite F2R_shift by lia. lra. }
  assert (HmRle : mR <= D').
  { destruct (Z.eq_dec (M mod 2 ^ n) 0) as [Hz|Hnz].
    - rewrite (Hex eq_refl Hz). apply Z.div_le_upper_bound; lia.
    - assert (M <> D' * 2 ^ n).
      { intros HMeq. rewrite HMeq, Z.mod_mul in Hnz by lia. congruence. }
      assert (M / 2 ^ n < D') by (apply Z.div_lt_upper_bound; lia). lia. }
  assert (HmR0 : 0 <= mR).
  { assert (0 <= M / 2 ^ n) by (apply Z.div_pos; lia). lia. }
  set (k := Z.max (fexp64 (Zdigits2 mR + e1) - e1) 0) in *.
  assert (Hpk : 0 < 2 ^ k) by (apply Z.pow_pos_nonneg; lia).
  assert (Hq0 : 0 <= mR / 2 ^ k) by (apply Z.div_pos; lia).
  destruct (mR / 2 ^ k) as [|q|q] eqn:Hq; [left; assumption| |lia].
  right.
  assert (HmRpos : 0 < mR).
  { destruct (Z.eq_dec mR 0) as [->|]; [rewrite Z.div_0_l in Hq by lia; discriminate|lia]. }
  assert (Hek : e1 + k <= eD).
  { destruct (Z.eq_dec k 0) as [->|Hk]; [lia|].
    assert (Hkk : e1 + k = fexp64 (Zdigits2 mR + e1)) by (subst k; lia).
    rewrite Hkk, <- Hcan. apply fexp_mono.
    assert (HdR : Zdigits2 mR <= Zdigits2 D') by (apply Zdigits2_le; lia).
    unfold D' in HdR. rewrite Zdigits2_shift in HdR by lia. lia. }
  replace (e1 + k <=? emax - prec) with true in Heq by (symmetry; apply Z.leb_le; lia).
  exists q, (e1 + k). split; [assumption|].
  rewrite <- Hq, <- HD'val.
  apply Rle_trans with (F2R mR e1); [|apply F2R_le_same; assumption].
  replace e1 with ((e1 + k) - k) at 2 by ring.
  rewrite <- (F2R_shift (mR / 2 ^ k) (e1 + k) k) by lia.
  apply F2R_le_same.
  rewrite Z.mul_comm. apply Z.mul_div_le. assumption.
Qed.

(** *** [binary_round]: alignment, then rounding *)

Lemma Pos_iter_xO m d : Z.pos (Pos.iter xO m d) = Z.pos m * 2 ^ Z.pos d.
Proof.
  induction d as [|d IH] using Pos.peano_ind.
  - cbn. lia.
  - rewrite Pos.iter_succ, Pos2Z.inj_xO, IH, Pos2Z.inj_succ, Z.pow_succ_r by lia. ring.
Qed.

Lemma shl_align_spec mx ex ex' :
  let k := Z.max (ex - ex') 0 in
  Z.pos (fst (shl_align mx ex ex')) = Z.pos mx * 2 ^ k
  /\ snd (shl_align mx ex ex') = ex - k.
Proof.
  intros k. unfold shl_align. destruct (ex' - ex) as [|d|d] eqn:Hd; cbn [fst snd].
  - subst k. rewrite Z.max_r by lia. cbn. lia.
  - subst k. rewrite Z.max_r by lia. cbn. lia.
  - subst k. rewrite Z.max_l by lia.
    replace (ex - ex') with (Z.pos d) by lia. rewrite Pos_iter_xO. lia.
Qed.

(** After the alignment of [binary_round] the mantissa needs no left shift
    any more, and the value is the same. *)
Lemma shl_align_fexp_spec mx ex :
  let mz := Z.pos (fst (shl_align mx ex (fexp64 (Zdigits2 (Z.pos mx) + ex)))) in
  let ez := snd (shl_align mx ex (fexp64 (Zdigits2 (Z.pos mx) + ex))) in
  ez <= fexp64 (Zdigits2 mz + ez)
  /\ F2R mz ez = F2R (Z.pos mx) ex
  /\ ez = Z.min ex (fexp64 (Zdigits2 (Z.pos mx) + ex))
  /\ mz = Z.pos mx * 2 ^ (ex - ez).
Proof.
  cbv zeta.
  destruct (shl_align_spec mx ex (fexp64 (Zdigits2 (Z.pos mx) + ex))) as [Hm He].
  cbv zeta in Hm, He. rewrite Hm, He.
  set (f := fexp64 (Zdigits2 (Z.pos mx) + ex)) in *.
  set (k := Z.max (ex - f) 0).
  assert (Hk : 0 <= k) by (subst k; lia).
  rewrite Zdigits2_shift by lia.
  replace (Zdigits2 (Z.pos mx) + k + (ex - k)) with (Zdigits2 (Z.pos mx) + ex) by ring.
  fold f. repeat split.
  - subst k. lia.
  - apply F2R_shift. assumption.
  - subst k. lia.
  - f_equal. f_equal. ring.
Qed.

Lemma binary_round_sign sx mx ex : sign_is sx (binary_round prec emax sx mx ex).
Proof.
  unfold binary_round. destruct (shl_align _ _ _) as [mz ez].
  apply binary_round_aux_sign. lia.
Qed.

Lemma binary_round_le sx mx ex D eD :
  0 < D -> canonical D eD -> eD <= emax - prec ->
  (F2R (Z.pos mx) ex <= F2R D eD)%R ->
  binary_round prec emax sx mx ex = S754_zero sx
  \/ exists m' e',
       binary_round prec emax sx mx ex = S754_finite sx m' e'
       /\ (F2R (Z.pos m') e' <= F2R D eD)%R.
Proof.
  intros HD Hcan Hbnd Hle. unfold binary_round.
  change (SpecFloat.fexp prec emax) with fexp64.
  change (Z.pos (digits2_pos mx)) with (Zdigits2 (Z.pos mx)).
  destruct (shl_align_fexp_spec mx ex) as (Hpre & Hval & _). cbv zeta in Hpre, Hval.
  destruct (shl_align mx ex (fexp64 (Zdigits2 (Z.pos mx) + ex))) as [mz ez].
  cbn [fst snd] in Hpre, Hval.
  apply binary_round_aux_le; try assumption; try lia. rewrite Hval. assumption.
Qed.

(** When no bit is lost, [binary_round] only normalizes. *)
(** When no bit is lost, [binary_round] only normalizes. *)
Lemma binary_round_exact sx mx ex :
  let ez := fexp64 (Zdigits2 (Z.pos mx) + ex) in
  ez <= ex -> ez <= emax - prec ->
  exists mz,
    binary_round prec emax sx mx ex = S754_finite sx mz ez
    /\ Z.pos mz = Z.pos mx * 2 ^ (ex - ez).
Proof.
  intros ez Hez Hbnd. unfold binary_round.
  change (SpecFloat.fexp prec emax) with fexp64.
  change (Z.pos (digits2_pos mx)) with (Zdigits2 (Z.pos mx)).
  destruct (shl_align_fexp_spec mx ex) as (Hpre & Hval & He & Hm).
  cbv zeta in Hpre, Hval, He, Hm. fold ez in Hpre, Hval, He, Hm |- *.
  destruct (shl_align mx ex ez) as [mz ez'].
  cbn [fst snd] in Hpre, Hval, He, Hm.
  assert (Hezz : ez' = ez) by lia. clear He. subst ez'.
  assert (Hcan : fexp64 (Zdigits2 (Z.pos mz) + ez) = ez).
  { rewrite Hm, Zdigits2_shift by lia.
    replace (Zdigits2 (Z.pos mx) + (ex - ez) + ez) with (Zdigits2 (Z.pos mx) + ex) by ring.
    reflexivity. }
  destruct (binary_round_aux_spec sx (Z.pos mz) ez loc_Exact ltac:(lia))
    as (mR & HmR & Hex & Heq).
  cbv zeta in HmR, Hex, Heq. rewrite Hcan in HmR, Hex, Heq.
  replace (Z.max (ez - ez) 0) with 0 in * by lia.
  rewrite Z.div_1_r in *. specialize (Hex eq_refl (Z.mod_1_r _)). subst mR.
  rewrite Z.add_0_r, Hcan in Heq.
  replace (Z.max (ez - ez) 0) with 0 in Heq by lia.
  rewrite Z.div_1_r, Z.add_0_r in Heq.
  replace (ez <=? emax - prec) with true in Heq by (symmetry; apply Z.leb_le; lia).
  exists mz. split; assumption.
Qed.

(** ** Order of the numbers of the format *)

Lemma canonical_lt m1 e1 m2 e2 :
  0 < m1 -> 0 < m2 -> canonical m1 e1 -> canonical m2 e2 ->
  e1 < e2 -> (F2R m1 e1 < F2R m2 e2)%R.
Proof.
  intros H1 H2 C1 C2 He.
  destruct (canonical_digits m1 e1 H1 C1) as [Hd1 Hmin1].
  assert (Hd2 : Zdigits2 m2 = prec).
  { unfold canonical in C2. rewrite fexp_eq in C2.
    change emin64 with (-1074) in Hmin1. change prec with 53. lia. }
  destruct (F2R_digits m1 e1 H1) as [_ Hhi]. destruct (F2R_digits m2 e2 H2) as [Hlo _].
  assert (Hb : (bpow (Zdigits2 m1 + e1) <= bpow (Zdigits2 m2 - 1 + e2))%R)
    by (apply bpow_le; lia).
  lra.
Qed.

(** On canonical positive numbers [SFcompare] is the order of the values. *)
Lemma SFcompare_pos m1 e1 m2 e2 :
  canonical (Z.pos m1) e1 -> canonical (Z.pos m2) e2 ->
  match SFcompare (S754_finite false m1 e1) (S754_finite false m2 e2) with
  | Some Lt => (F2R (Z.pos m1) e1 < F2R (Z.pos m2) e2)%R
  | Some Eq => m1 = m2 /\ e1 = e2
  | Some Gt => (F2R (Z.pos m2) e2 < F2R (Z.pos m1) e1)%R
  | None => False
  end.
Proof.
  intros C1 C2. cbn [SFcompare].
  destruct (Z.compare_spec e1 e2) as [->|Hlt|Hgt].
  - fold (Pos.compare m1 m2). destruct (Pos.compare_spec m1 m2) as [->|Hm|Hm].
    + auto.
    + unfold F2R. apply Rmult_lt_compat_r; [apply bpow_gt0|apply IZR_lt; lia].
    + unfold F2R. apply Rmult_lt_compat_r; [apply bpow_gt0|apply IZR_lt; lia].
  - apply canonical_lt; auto; lia.
  - apply canonical_lt; auto; lia.
Qed.

(** ** The operations on positive finite numbers *)

(** The two mantissas of an addition or subtraction, at the smaller
    exponent. *)
Lemma shl_align_min m1 e1 m2 e2 :
  let ez := Z.min e1 e2 in
  F2R (Z.pos (fst (shl_align m1 e1 ez))) ez = F2R (Z.pos m1) e1
  /\ F2R (Z.pos (fst (shl_align m2 e2 ez))) ez = F2R (Z.pos m2) e2.
Proof.
  intros ez.
  destruct (shl_align_spec m1 e1 ez) as [H1 _]. destruct (shl_align_spec m2 e2 ez) as [H2 _].
  cbv zeta in H1, H2. rewrite H1, H2.
  replace (Z.max (e1 - ez) 0) with (e1 - ez) by (subst ez; lia).
  replace (Z.max (e2 - ez) 0) with (e2 - ez) by (subst ez; lia).
  split.
  - replace ez with (e1 - (e1 - ez)) at 2 by ring. apply F2R_shift. subst ez; lia.
  - replace ez with (e2 - (e2 - ez)) at 2 by ring. apply F2R_shift. subst ez; lia.
Qed.

Lemma F2R_minus m1 m2 e : F2R (m1 - m2) e = (F2R m1 e - F2R m2 e)%R.
Proof. unfold F2R. rewrite minus_IZR. ring. Qed.

Lemma F2R_plus m1 m2 e : F2R (m1 + m2) e = (F2R m1 e + F2R m2 e)%R.
Proof. unfold F2R. rewrite plus_IZR. ring. Qed.

Lemma F2R_pos m e : 0 < m -> (0 < F2R m e)%R.
Proof.
  intros H. unfold F2R. apply Rmult_lt_0_compat; [apply IZR_lt; assumption|apply bpow_gt0].
Qed.

Lemma binary_normalize_sign m e :
  0 <= m -> sign_is false (binary_normalize prec emax m e false).
Proof.
  intros Hm. destruct m as [|p|p]; cbn [binary_normalize]; try reflexivity; try lia.
  apply binary_round_sign.
Qed.

Lemma binary_normalize_sign_neg m e :
  m < 0 -> sign_is true (binary_normalize prec emax m e false).
Proof.
  intros Hm. destruct m as [|p|p]; cbn [binary_normalize]; try lia.
  apply binary_round_sign.
Qed.

Lemma binary_normalize_le m e D eD :
  0 <= m -> 0 < D -> canonical D eD -> eD <= emax - prec ->
  (F2R m e <= F2R D eD)%R ->
  binary_normalize prec emax m e false = S754_zero false
  \/ exists m' e',
       binary_normalize prec emax m e false = S754_finite false m' e'
       /\ (F2R (Z.pos m') e' <= F2R D eD)%R.
Proof.
  intros Hm HD Hcan Hbnd Hle. destruct m as [|p|p]; cbn [binary_normalize]; try lia.
  - left; reflexivity.
  - apply binary_round_le; assumption.
Qed.

Lemma Prim2SF_zero : Prim2SF 0 = S754_zero false.
Proof. reflexivity. Qed.

Lemma nonneg_spec x : not_negative x <-> SFnonneg (Prim2SF x).
Proof.
  unfold not_negative. rewrite leb_spec, Prim2SF_zero.
  destruct (Prim2SF x) as [s|[|]| |[|] m e]; cbn; intuition discriminate.
Qed.

Lemma sign_is_nonneg r : sign_is false r -> SFnonneg r.
Proof. destruct r as [s|s| |s m e]; cbn; intros H; subst; auto. Qed.

Lemma valid_canonical x s m e :
  Prim2SF x = S754_finite s m e -> canonical (Z.pos m) e /\ e <= emax - prec.
Proof.
  intros H. pose proof (Prim2SF_valid x) as Hv. rewrite H in Hv.
  apply bounded_iff. exact Hv.
Qed.

Lemma SFfin_nonneg_nonneg r : SFfin_nonneg r -> SFnonneg r.
Proof. destruct r as [s|[|]| |[|] m e]; cbn; auto. Qed.

Lemma SFval_nonneg r : SFfin_nonneg r -> (0 <= SFval r)%R.
Proof.
  destruct r as [s|[|]| |[|] m e]; cbn; try lra; try tauto.
  intros _. apply Rlt_le, F2R_pos. lia.
Qed.

(** *** Conversions from integers *)

Lemma nonneg_of_uint63 n : not_negative (of_uint63 n).
Proof.
  apply nonneg_spec. rewrite of_uint63_spec. apply sign_is_nonneg, binary_normalize_sign.
  pose proof (Uint63.to_Z_bounded n). lia.
Qed.

Lemma Prim2SF_of_Z63 k :
  0 <= k < 2 ^ 63 ->
  Prim2SF (of_uint63 (Uint63.of_Z k)) = binary_normalize prec emax k 0 false.
Proof.
  intros Hk. rewrite of_uint63_spec, Uint63.of_Z_spec, Z.mod_small; [reflexivity|].
  exact Hk.
Qed.

(** *** Signs of the operations *)

Lemma SFmul_nonneg a m e :
  SFnonneg a -> SFnonneg (SFmul prec emax a (S754_finite false m e)).
Proof.
  destruct a as [s|[|]| |[|] ma ea]; cbn [SFnonneg SFmul]; try tauto.
  intros _. cbn [xorb]. apply sign_is_nonneg, binary_round_aux_sign. lia.
Qed.

Lemma SFdiv_nonneg a m e :
  SFnonneg a -> SFnonneg (SFdiv prec emax a (S754_finite false m e)).
Proof.
  destruct a as [s|[|]| |[|] ma ea]; cbn [SFnonneg SFdiv]; try tauto.
  intros _. unfold SFdiv_core_binary.
  set (m' := match _ with Z.pos _ => _ | Z0 => _ | Z.neg _ => _ end).
  assert (Hm' : 0 <= m').
  { subst m'. destruct (_ - _ - _) as [|p|p]; try lia. apply Z.shiftl_nonneg. lia. }
  pose proof (Z.div_pos m' (Z.pos m) Hm' ltac:(lia)) as Hq.
  unfold Z.div in Hq. destruct (Z.div_eucl m' (Z.pos m)) as [q r]. cbn [fst] in Hq.
  cbn [xorb]. apply sign_is_nonneg, binary_round_aux_sign. assumption.
Qed.

Lemma SFadd_nonneg a b : SFnonneg a -> SFnonneg b -> SFnonneg (SFadd prec emax a b).
Proof.
  destruct a as [sa|[|]| |[|] ma ea]; destruct b as [sb|[|]| |[|] mb eb];
    cbn [SFnonneg SFadd]; try tauto.
  - destruct sa, sb; auto.
  - intros _ _. cbn [cond_Zopp]. apply sign_is_nonneg, binary_normalize_sign. lia.
Qed.

Lemma nonneg_add a b : not_negative a -> not_negative b -> not_negative (a + b)%float.
Proof.
  rewrite !nonneg_spec, add_spec. apply SFadd_nonneg.
Qed.

Lemma nonneg_double_of_u64 n : not_negative (double_of_u64 n).
Proof.
  unfold double_of_u64. destruct (n <? 2 ^ 63); [apply nonneg_of_uint63|].
  apply nonneg_spec. rewrite mul_spec.
  change (Prim2SF 2) with (S754_finite false 4503599627370496 (-51)).
  apply SFmul_nonneg. apply nonneg_spec, nonneg_of_uint63.
Qed.

Lemma nonneg_double_of_Z z : 0 <= z -> not_negative (double_of_Z z).
Proof.
  intros Hz. unfold double_of_Z.
  replace (z <? 0) with false by (symmetry; apply Z.ltb_ge; assumption).
  apply nonneg_double_of_u64.
Qed.

Lemma Prim2SF_nmax :
  Prim2SF (double_of_Z nmax) = S754_finite false 8388608000000000 (-23).
Proof. reflexivity. Qed.

(** *** Comparison and subtraction *)

Lemma SFleb_pos_true m1 e1 m2 e2 :
  canonical (Z.pos m1) e1 -> canonical (Z.pos m2) e2 ->
  SFleb (S754_finite false m1 e1) (S754_finite false m2 e2) = true ->
  (F2R (Z.pos m1) e1 <= F2R (Z.pos m2) e2)%R.
Proof.
  intros C1 C2. pose proof (SFcompare_pos m1 e1 m2 e2 C1 C2) as H. unfold SFleb.
  destruct (SFcompare _ _) as [[| |]|]; try discriminate; intros _.
  - destruct H as [-> ->]. lra.
  - lra.
Qed.

Lemma SFleb_pos_false m1 e1 m2 e2 :
  canonical (Z.pos m1) e1 -> canonical (Z.pos m2) e2 ->
  SFleb (S754_finite false m1 e1) (S754_finite false m2 e2) = false ->
  (F2R (Z.pos m2) e2 < F2R (Z.pos m1) e1)%R.
Proof.
  intros C1 C2. pose proof (SFcompare_pos m1 e1 m2 e2 C1 C2) as H. unfold SFleb.
  destruct (SFcompare _ _) as [[| |]|]; try discriminate; try tauto.
Qed.

Lemma SFltb_pos_true m1 e1 m2 e2 :
  canonical (Z.pos m1) e1 -> canonical (Z.pos m2) e2 ->
  SFltb (S754_finite false m1 e1) (S754_finite false m2 e2) = true ->
  (F2R (Z.pos m1) e1 < F2R (Z.pos m2) e2)%R.
Proof.
  intros C1 C2. pose proof (SFcompare_pos m1 e1 m2 e2 C1 C2) as H. unfold SFltb.
  destruct (SFcompare _ _) as [[| |]|]; try discriminate; try tauto.
Qed.

Lemma F2R_0 e : F2R 0 e = 0%R.
Proof. unfold F2R. lra. Qed.

Lemma F2R_nonneg_inv m e : (0 <= F2R m e)%R -> 0 <= m.
Proof. intros H. apply (F2R_le_same_inv e). rewrite F2R_0. assumption. Qed.

Lemma SFsub_pos_spec m1 e1 m2 e2 :
  exists M,
    SFsub prec emax (S754_finite false m1 e1) (S754_finite false m2 e2)
    = binary_normalize prec emax M (Z.min e1 e2) false
    /\ F2R M (Z.min e1 e2) = (F2R (Z.pos m1) e1 - F2R (Z.pos m2) e2)%R.
Proof.
  cbn [SFsub cond_Zopp]. eexists. split; [reflexivity|].
  rewrite F2R_minus. destruct (shl_align_min m1 e1 m2 e2) as [-> ->]. reflexivity.
Qed.

Lemma SFvalid_Prim2SF x : SFvalid (Prim2SF x).
Proof. apply Prim2SF_valid. Qed.

Lemma SFvalid_canonical s m e :
  SFvalid (S754_finite s m e) -> canonical (Z.pos m) e /\ e <= emax - prec.
Proof. apply bounded_iff. Qed.

(** The new credit [extra - duration] of the second branch of the
    draw-down is not negative. *)
Lemma SFsub_credit c d :
  SFvalid c -> SFvalid d -> SFnonneg c -> d <> S754_nan ->
  SFleb c d = false -> SFnonneg (SFsub prec emax c d).
Proof.
  intros Vc Vd Hc Hd Hle.
  destruct c as [sc|[|]| |[|] mc ec]; cbn [SFnonneg] in Hc; try tauto;
    destruct d as [sd|[|]| |[|] md ed]; try congruence;
    try discriminate Hle; try exact I.
  - cbn [SFsub cond_Zopp]. apply sign_is_nonneg, binary_normalize_sign. lia.
  - destruct (SFvalid_canonical _ _ _ Vc) as [Cc _].
    destruct (SFvalid_canonical _ _ _ Vd) as [Cd _].
    pose proof (SFleb_pos_false mc ec md ed Cc Cd Hle) as Hlt.
    destruct (SFsub_pos_spec mc ec md ed) as (M & -> & HM).
    apply sign_is_nonneg, binary_normalize_sign.
    apply (F2R_nonneg_inv M (Z.min ec ed)). lra.
Qed.

(** The new duration [duration - extra] of the first branch is between
    zero and the old duration. *)
Lemma SFsub_duration c d :
  SFvalid c -> SFvalid d -> SFnonneg c -> SFfin_nonneg d ->
  SFleb c d = true ->
  SFfin_nonneg (SFsub prec emax d c)
  /\ (SFval (SFsub prec emax d c) <= SFval d)%R.
Proof.
  intros Vc Vd Hc Hd Hle.
  destruct c as [sc|[|]| |[|] mc ec]; cbn [SFnonneg] in Hc; try tauto;
    destruct d as [sd|[|]| |[|] md ed]; cbn [SFfin_nonneg] in Hd; try tauto;
    try discriminate Hle.
  - destruct sd, sc; cbn; split; auto; lra.
  - cbn. split; auto; lra.
  - destruct (SFvalid_canonical _ _ _ Vc) as [Cc _].
    destruct (SFvalid_canonical _ _ _ Vd) as [Cd Bd].
    pose proof (SFleb_pos_true mc ec md ed Cc Cd Hle) as Hlt.
    destruct (SFsub_pos_spec md ed mc ec) as (M & -> & HM).
    pose proof (F2R_pos (Z.pos mc) ec ltac:(lia)) as Hcpos.
    destruct (binary_normalize_le M (Z.min ed ec) (Z.pos md) ed) as [->|(m' & e' & -> & Hb)];
      try assumption; try lia.
    + apply (F2R_nonneg_inv M (Z.min ed ec)). lra.
    + lra.
    + cbn. split; auto. apply Rlt_le, F2R_pos. lia.
    + cbn. split; auto.
Qed.

Lemma F2R_Z k : F2R k 0 = IZR k.
Proof. unfold F2R, bpow. cbn. lra. Qed.

Lemma F2R_int m k : 0 <= k -> IZR (m * 2 ^ k) = F2R m k.
Proof.
  intros Hk. rewrite <- F2R_Z. rewrite <- (F2R_shift m k k) by assumption.
  rewrite Z.sub_diag. reflexivity.
Qed.

Lemma ipart_bounds m e :
  0 <= ipart m e
  /\ (IZR (ipart m e) <= F2R (Z.pos m) e < IZR (ipart m e) + 1)%R.
Proof.
  destruct e as [|p|p]; cbn [ipart].
  - rewrite Z.mul_1_r, F2R_Z. split; [lia|lra].
  - assert (0 < 2 ^ Z.pos p) by (apply Z.pow_pos_nonneg; lia).
    split; [lia|]. rewrite F2R_int by lia. lra.
  - assert (Hp : 0 < 2 ^ Z.pos p) by (apply Z.pow_pos_nonneg; lia).
    set (q := Z.pos m / 2 ^ Z.pos p).
    assert (Hq : 0 <= q) by (apply Z.div_pos; lia).
    assert (Hlo : q * 2 ^ Z.pos p <= Z.pos m).
    { rewrite Z.mul_comm. apply Z.mul_div_le. assumption. }
    assert (Hhi : Z.pos m < (q + 1) * 2 ^ Z.pos p).
    { pose proof (Z.mul_succ_div_gt (Z.pos m) (2 ^ Z.pos p) Hp). subst q. lia. }
    split; [assumption|].
    rewrite <- plus_IZR. rewrite <- (F2R_Z q), <- (F2R_Z (q + 1)).
    rewrite <- (F2R_shift q 0 (Z.pos p)), <- (F2R_shift (q + 1) 0 (Z.pos p)) by lia.
    change (0 - Z.pos p) with (Z.neg p).
    split.
    + apply F2R_le_same. assumption.
    + unfold F2R. apply Rmult_lt_compat_r; [apply bpow_gt0|apply IZR_lt; assumption].
Qed.

Lemma trunc_Z_finite x m e :
  Prim2SF x = S754_finite false m e -> trunc_Z x = ipart m e.
Proof. intros H. unfold trunc_Z. rewrite H. reflexivity. Qed.

Lemma double_to_int_finite x s m e :
  Prim2SF x = S754_finite s m e -> 0 <= trunc_Z x < 2 ^ 31 ->
  double_to_int x = trunc_Z x.
Proof.
  intros H Hk. unfold double_to_int. rewrite H.
  replace (INT_MIN <=? trunc_Z x) with true
    by (symmetry; apply Z.leb_le; unfold INT_MIN; lia).
  replace (trunc_Z x <=? INT_MAX) with true
    by (symmetry; apply Z.leb_le; unfold INT_MAX; lia).
  reflexivity.
Qed.

Lemma canonical_one : canonical 4503599627370496 (-52).
Proof. reflexivity. Qed.

Lemma F2R_one : F2R 4503599627370496 (-52) = 1%R.
Proof.
  change 4503599627370496 with (1 * 2 ^ 52). change (-52) with (0 - 52).
  rewrite F2R_shift by lia. rewrite F2R_Z. reflexivity.
Qed.

(** [trunc] and the conversion to [int] on a non-negative double below
    [2^31]; the fractional part is between 0 and 1. *)
Lemma trunc_spec x :
  SFfin_nonneg (Prim2SF x) -> (SFval (Prim2SF x) < 2147483648)%R ->
  double_to_int (trunc x) = trunc_Z x
  /\ 0 <= trunc_Z x < 2 ^ 31
  /\ (IZR (trunc_Z x) <= SFval (Prim2SF x))%R
  /\ SFfin_nonneg (Prim2SF (x - trunc x))
  /\ (SFval (Prim2SF (x - trunc x)) <= 1)%R.
Proof.
  intros Hfin Hlt. rewrite sub_spec.
  destruct (Prim2SF x) as [s|s| |[|] m e] eqn:Hx; cbn [SFfin_nonneg] in Hfin; try tauto.
  - (* a zero *)
    assert (Ht : trunc x = x) by (unfold trunc; rewrite Hx; reflexivity).
    rewrite Ht, Hx. unfold double_to_int, trunc_Z. rewrite Hx. cbn [SFval].
    repeat split; try lia; try lra; destruct s; cbn; auto; lra.
  - (* a positive number *)
    cbn [SFval cond_Zopp] in Hlt |- *.
    destruct (ipart_bounds m e) as (Hi0 & Hilo & Hihi).
    pose proof (trunc_Z_finite x m e Hx) as HtZ.
    assert (Hrange : 0 <= trunc_Z x < 2 ^ 31).
    { rewrite HtZ. split; [assumption|]. apply lt_IZR. 
      change (2 ^ 31) with 2147483648. lra. }
    assert (Hself :
      SFsub prec emax (S754_finite false m e) (S754_finite false m e) = S754_zero false).
    { destruct (SFsub_pos_spec m e m e) as (M & -> & HM).
      assert (M = 0).
      { assert (0 <= M) by (apply (F2R_nonneg_inv M (Z.min e e)); lra).
        assert (M <= 0) by (apply (F2R_le_same_inv (Z.min e e)); rewrite F2R_0; lra).
        lia. }
      subst M. reflexivity. }
    destruct e as [|p|p].
    + assert (Ht : trunc x = x) by (unfold trunc; rewrite Hx; reflexivity).
      rewrite Ht, Hx. unfold SF64sub. rewrite Hself. cbn [SFfin_nonneg SFval].
      rewrite (double_to_int_finite x _ _ _ Hx Hrange), HtZ.
      repeat split; try lia; try lra.
    + assert (Ht : trunc x = x) by (unfold trunc; rewrite Hx; reflexivity).
      rewrite Ht, Hx. unfold SF64sub. rewrite Hself. cbn [SFfin_nonneg SFval].
      rewrite (double_to_int_finite x _ _ _ Hx Hrange), HtZ.
      repeat split; try lia; try lra.
    + set (k := Z.pos m / 2 ^ Z.pos p) in *.
      assert (Hk : k = trunc_Z x) by (rewrite HtZ; reflexivity).
      assert (Ht : Prim2SF (trunc x) = binary_normalize prec emax k 0 false).
      { unfold trunc. rewrite Hx. fold k. apply Prim2SF_of_Z63. lia. }
      rewrite <- Hk in *. cbn [ipart] in Hilo, Hihi. fold k in Hilo, Hihi.
      destruct k as [|kp|kp] eqn:Ek; [| |lia].
      * (* the integer part is zero *)
        cbn [binary_normalize] in Ht. unfold double_to_int, SF64sub. rewrite Ht.
        cbn [SFsub SFfin_nonneg SFval cond_Zopp]. repeat split; try lia; lra.
      * (* the integer part is positive *)
        cbn [binary_normalize] in Ht.
        assert (Hdk : Zdigits2 (Z.pos kp) <= 31).
        { destruct (Zdigits2_bounds (Z.pos kp) ltac:(lia)) as [Hlo _].
          destruct (Z_lt_le_dec 31 (Zdigits2 (Z.pos kp))) as [Hgt|]; [|assumption].
          assert (2 ^ 31 <= 2 ^ (Zdigits2 (Z.pos kp) - 1)) by (apply Z.pow_le_mono_r; lia).
          lia. }
        pose proof (Zdigits2_pos (Z.pos kp) ltac:(lia)) as Hdk0.
        destruct (binary_round_exact false kp 0) as (kz & Hkz & Hkzv).
        { cbv zeta. rewrite fexp_eq. lia. }
        { cbv zeta. rewrite fexp_eq. change (emax - prec) with 971. lia. }
        cbv zeta in Hkz, Hkzv. rewrite Hkz in Ht.
        set (ez := fexp64 (Zdigits2 (Z.pos kp) + 0)) in *.
        assert (Hez : ez = Zdigits2 (Z.pos kp) - 53) by (subst ez; rewrite fexp_eq; lia).
        assert (Hkzval : F2R (Z.pos kz) ez = IZR (Z.pos kp)).
        { rewrite Hkzv. replace ez with (0 - (0 - ez)) at 2 by ring.
          rewrite F2R_shift by lia. apply F2R_Z. }
        assert (HtZ' : trunc_Z (trunc x) = Z.pos kp).
        { rewrite (trunc_Z_finite _ _ _ Ht).
          destruct (ipart_bounds kz ez) as (Hj0 & Hjlo & Hjhi).
          rewrite Hkzval in Hjlo, Hjhi.
          apply le_IZR in Hjlo. rewrite <- plus_IZR in Hjhi. apply lt_IZR in Hjhi. lia. }
        rewrite (double_to_int_finite _ _ _ _ Ht) by (rewrite HtZ'; lia).
        rewrite HtZ'. unfold SF64sub. rewrite Ht.
        destruct (SFsub_pos_spec m (Z.neg p) kz ez) as (M & -> & HM).
        rewrite Hkzval in HM.
        assert (HM0 : 0 <= M) by (apply (F2R_nonneg_inv M (Z.min (Z.neg p) ez)); lra).
        destruct (binary_normalize_le M (Z.min (Z.neg p) ez) 4503599627370496 (-52))
          as [->|(m' & e' & -> & Hb)];
          [assumption|lia|apply canonical_one|change (emax - prec) with 971; lia
          |rewrite F2R_one; lra| |].
        -- cbn [SFfin_nonneg SFval]. repeat split; try lia; lra.
        -- rewrite F2R_one in Hb. cbn [SFfin_nonneg SFval cond_Zopp].
           repeat split; try lia; lra.
Qed.

(** *** The nanoseconds of a fractional part *)

Lemma F2R_mult m1 e1 m2 e2 : F2R (m1 * m2) (e1 + e2) = (F2R m1 e1 * F2R m2 e2)%R.
Proof. unfold F2R. rewrite mult_IZR, bpow_add. ring. Qed.

Lemma F2R_nmax : F2R 8388608000000000 (-23) = 1000000000%R.
Proof.
  change 8388608000000000 with (1000000000 * 2 ^ 23). change (-23) with (0 - 23).
  rewrite F2R_shift by lia. apply F2R_Z.
Qed.

Lemma frac_ns f :
  SFfin_nonneg (Prim2SF f) -> (SFval (Prim2SF f) <= 1)%R ->
  SFfin_nonneg (Prim2SF (f * double_of_Z nmax))
  /\ (SFval (Prim2SF (f * double_of_Z nmax)) <= 1000000000)%R.
Proof.
  intros Hfin Hle. rewrite mul_spec, Prim2SF_nmax. unfold SF64mul.
  destruct (Prim2SF f) as [s|s| |[|] m e]; cbn [SFfin_nonneg] in Hfin; try tauto.
  - cbn. split; [exact I|lra].
  - cbn [SFmul xorb SFval cond_Zopp] in *.
    change (Z.pos (m * 8388608000000000)) with (Z.pos m * 8388608000000000).
    destruct (binary_round_aux_le false (Z.pos m * 8388608000000000) (e + -23)
                8388608000000000 (-23)) as [->|(m' & e' & -> & Hb)].
    + lia.
    + rewrite fexp_eq.
      assert (Zdigits2 8388608000000000 <= Zdigits2 (Z.pos m * 8388608000000000))
        by (apply Zdigits2_le; lia).
      change (Zdigits2 8388608000000000) with 53 in H. lia.
    + lia.
    + reflexivity.
    + change (emax - prec) with 971. lia.
    + rewrite F2R_mult. pose proof (F2R_pos 8388608000000000 (-23) ltac:(lia)). 
      pose proof (F2R_pos (Z.pos m) e ltac:(lia)). nra.
    + cbn. split; [exact I|lra].
    + rewrite F2R_nmax in Hb. cbn. split; [exact I|exact Hb].
Qed.

Lemma to_long_small z : - 2 ^ 63 <= z < 2 ^ 63 -> to_long z = z.
Proof.
  intros Hz. unfold to_long, wrap_signed. change (2 ^ (64 - 1)) with (2 ^ 63).
  rewrite Z.mod_small by lia. ring.
Qed.

Lemma add_sec_nsec_bounds d :
  SFfin_nonneg (Prim2SF d) -> (SFval (Prim2SF d) < 2147483648)%R ->
  add_sec d = trunc_Z d /\ 0 <= add_sec d < 2 ^ 31 /\ 0 <= add_nsec d <= nmax.
Proof.
  intros Hfin Hlt. unfold add_sec, add_nsec.
  destruct (trunc_spec d Hfin Hlt) as (Hs & Hsr & _ & Hffin & Hfle).
  destruct (frac_ns _ Hffin Hfle) as (Hpfin & Hple).
  set (P := ((d - trunc d) * double_of_Z nmax)%float) in *.
  destruct (trunc_spec P Hpfin ltac:(lra)) as (Hn & Hnr & Hnle & _).
  rewrite Hs, Hn. repeat split; try lia.
  apply le_IZR. unfold nmax. lra.
Qed.

Lemma time_add_spec t d :
  ts_ok t -> SFfin_nonneg (Prim2SF d) -> (SFval (Prim2SF d) < 2147483648)%R ->
  ts_ns (time_add t d) = ts_ns t + add_sec d * nmax + add_nsec d
  /\ 0 <= tv_nsec (time_add t d) < nmax
  /\ tv_sec t <= tv_sec (time_add t d) <= tv_sec t + 2 ^ 31.
Proof.
  intros [Hsec Hnsec] Hfin Hlt.
  destruct (add_sec_nsec_bounds d Hfin Hlt) as (_ & HS & HN).
  unfold time_add. fold (add_sec d) (add_nsec d).
  set (S := add_sec d) in *. set (N := add_nsec d) in *.
  unfold nmax in *.
  rewrite (to_long_small (tv_sec t + S)) by lia.
  rewrite (to_long_small (tv_nsec t + N)) by lia.
  unfold ts_ns. unfold nmax.
  destruct (Z.leb_spec 1000000000 (tv_nsec t + N)) as [Hge|Hlt'];
    cbn [tv_sec tv_nsec].
  - assert (Hq : Z.quot (tv_nsec t + N) 1000000000 = 1).
    { rewrite Z.quot_div_nonneg by lia. 
      symmetry. apply (Z.div_unique _ _ 1 (tv_nsec t + N - 1000000000)); lia. }
    assert (Hr : Z.rem (tv_nsec t + N) 1000000000 = tv_nsec t + N - 1000000000).
    { rewrite Z.rem_mod_nonneg by lia.
      symmetry. apply (Z.mod_unique _ _ 1 (tv_nsec t + N - 1000000000)); lia. }
    rewrite Hq, Hr. rewrite to_long_small by lia. lia.
  - lia.
Qed.

Lemma Prim2SF_infinity : Prim2SF infinity = S754_infinity false.
Proof. reflexivity. Qed.

Lemma fin_nonneg_spec x : fin_nonneg x <-> SFfin_nonneg (Prim2SF x).
Proof.
  unfold fin_nonneg. rewrite nonneg_spec, ltb_spec, Prim2SF_infinity.
  destruct (Prim2SF x) as [s|[|]| |[|] m e]; cbn; intuition discriminate.
Qed.

Lemma Prim2SF_2p31 : Prim2SF 2147483648 = S754_finite false 4503599627370496 (-21).
Proof. reflexivity. Qed.

Lemma F2R_2p31 : F2R 4503599627370496 (-21) = 2147483648%R.
Proof.
  change 4503599627370496 with (2147483648 * 2 ^ 21). change (-21) with (0 - 21).
  rewrite F2R_shift by lia. apply F2R_Z.
Qed.

Lemma below_2p31_spec x :
  not_negative x -> below_2p31 x ->
  SFfin_nonneg (Prim2SF x) /\ (SFval (Prim2SF x) < 2147483648)%R.
Proof.
  unfold below_2p31. rewrite nonneg_spec, ltb_spec, Prim2SF_2p31.
  pose proof (Prim2SF_valid x) as Hv.
  destruct (Prim2SF x) as [s|[|]| |[|] m e]; cbn [SFnonneg SFfin_nonneg SFval];
    try tauto; try discriminate.
  - intros _ _. split; [exact I|lra].
  - intros _ H. split; [exact I|]. cbn [cond_Zopp]. rewrite <- F2R_2p31.
    apply SFltb_pos_true; [|reflexivity|assumption].
    apply (SFvalid_canonical false m e Hv).
Qed.

(** ** The draw-down *)

Lemma Prim2SF_not_nan_nonneg x : not_negative x -> Prim2SF x <> S754_nan.
Proof. rewrite nonneg_spec. destruct (Prim2SF x); cbn; congruence || tauto. Qed.

(** The credit after the draw-down is not negative. *)
Lemma draw_down_credit_nonneg d c :
  not_negative c -> Prim2SF d <> S754_nan -> not_negative (snd (draw_down d c)).
Proof.
  intros Hc Hd. unfold draw_down. destruct (c <=? d)%float eqn:Hle; cbn [snd].
  - reflexivity.
  - apply nonneg_spec. rewrite sub_spec. rewrite leb_spec in Hle.
    apply SFsub_credit; auto using SFvalid_Prim2SF.
    apply nonneg_spec, Hc.
Qed.

Lemma SFleb_nonneg c d : SFnonneg c -> SFleb c d = true -> SFnonneg d.
Proof.
  destruct c as [sc|[|]| |[|] mc ec]; cbn [SFnonneg]; try tauto;
    destruct d as [sd|[|]| |[|] md ed]; cbn; auto; discriminate.
Qed.

(** The duration after the draw-down is a non-negative number below
    [2^31] when the ideal duration is below [2^31]. *)
Lemma draw_down_duration d c :
  not_negative c -> below_2p31 d ->
  let d' := fst (draw_down d c) in
  SFfin_nonneg (Prim2SF d') /\ (SFval (Prim2SF d') < 2147483648)%R.
Proof.
  intros Hc Hd. unfold draw_down. destruct (c <=? d)%float eqn:Hle; cbn [fst].
  - rewrite leb_spec in Hle.
    assert (Hdn : not_negative d).
    { apply nonneg_spec. apply (SFleb_nonneg (Prim2SF c)); [apply nonneg_spec, Hc|exact Hle]. }
    destruct (below_2p31_spec d Hdn Hd) as [Hfin Hlt].
    rewrite sub_spec.
    destruct (SFsub_duration (Prim2SF c) (Prim2SF d)) as [H1 H2];
      auto using SFvalid_Prim2SF.
    + apply nonneg_spec, Hc.
    + split; [exact H1|]. unfold SF64sub. lra.
  - change (Prim2SF zero) with (S754_zero false). cbn. split; [exact I|lra].
Qed.

(** ** The ideal durations are numbers *)

Lemma SFdiv_not_nan a s m e :
  a <> S754_nan -> SFdiv prec emax a (S754_finite s m e) <> S754_nan.
Proof.
  destruct a as [sa|sa| |sa ma ea]; cbn [SFdiv]; try congruence.
  intros _. unfold SFdiv_core_binary.
  set (m' := match _ with Z.pos _ => _ | Z0 => _ | Z.neg _ => _ end).
  assert (Hm' : 0 <= m').
  { subst m'. destruct (_ - _ - _) as [|p|p]; try lia. apply Z.shiftl_nonneg. lia. }
  pose proof (Z.div_pos m' (Z.pos m) Hm' ltac:(lia)) as Hq.
  unfold Z.div in Hq. destruct (Z.div_eucl m' (Z.pos m)) as [q r]. cbn [fst] in Hq.
  pose proof (binary_round_aux_sign (xorb sa s) q
                (Z.min (fexp64 (Zdigits2 (Z.pos ma) + ea - (Zdigits2 (Z.pos m) + e))) (ea - e))
                (new_location (Z.pos m) r) Hq) as Hs.
  intros Hn. unfold fexp64 in Hs. rewrite Hn in Hs. exact Hs.
Qed.

Lemma double_of_u64_finite n :
  0 < n < 2 ^ 53 -> exists m e, Prim2SF (double_of_u64 n) = S754_finite false m e.
Proof.
  intros Hn. unfold double_of_u64.
  replace (n <? 2 ^ 63) with true by (symmetry; apply Z.ltb_lt; lia).
  rewrite Prim2SF_of_Z63 by lia.
  destruct n as [|p|p]; try lia. cbn [binary_normalize].
  assert (Hd : Zdigits2 (Z.pos p) <= 53).
  { destruct (Zdigits2_bounds (Z.pos p) ltac:(lia)) as [Hlo _].
    destruct (Z_lt_le_dec 53 (Zdigits2 (Z.pos p))) as [Hgt|]; [|assumption].
    assert (2 ^ 53 <= 2 ^ (Zdigits2 (Z.pos p) - 1)) by (apply Z.pow_le_mono_r; lia).
    lia. }
  pose proof (Zdigits2_pos (Z.pos p) ltac:(lia)).
  destruct (binary_round_exact false p 0) as (mz & Hmz & _).
  - cbv zeta. rewrite fexp_eq. lia.
  - cbv zeta. rewrite fexp_eq. change (emax - prec) with 971. lia.
  - eauto.
Qed.

Lemma double_of_Z_finite z :
  z <> 0 -> - 2 ^ 53 < z < 2 ^ 53 ->
  exists s m e, Prim2SF (double_of_Z z) = S754_finite s m e.
Proof.
  intros Hz Hr. unfold double_of_Z. destruct (Z.ltb_spec z 0).
  - destruct (double_of_u64_finite (- z)) as (m & e & H'); [lia|].
    rewrite opp_spec, H'. cbn. eauto.
  - destruct (double_of_u64_finite z) as (m & e & H'); [lia|]. eauto.
Qed.

Lemma double_of_Z_not_nan z : Prim2SF (double_of_Z z) <> S754_nan.
Proof.
  unfold double_of_Z. destruct (z <? 0).
  - rewrite opp_spec. pose proof (nonneg_double_of_u64 (- z)) as H.
    apply nonneg_spec in H. destruct (Prim2SF (double_of_u64 (- z))); cbn in *; congruence || tauto.
  - apply Prim2SF_not_nan_nonneg, nonneg_double_of_u64.
Qed.

Lemma send_duration_not_nan size rate :
  rate <> 0 -> INT_MIN <= rate <= INT_MAX ->
  Prim2SF (send_duration size rate) <> S754_nan.
Proof.
  intros Hr Hi. unfold send_duration. rewrite div_spec.
  destruct (double_of_Z_finite rate) as (s & m & e & ->);
    [assumption|unfold INT_MIN, INT_MAX in Hi; lia|].
  apply SFdiv_not_nan, Prim2SF_not_nan_nonneg, nonneg_double_of_u64.
Qed.

Lemma recv_duration_not_nan result rate :
  rate <> 0 -> INT_MIN <= rate <= INT_MAX ->
  Prim2SF (recv_duration result rate) <> S754_nan.
Proof.
  intros Hr Hi. unfold recv_duration. rewrite div_spec.
  destruct (double_of_Z_finite rate) as (s & m & e & ->);
    [assumption|unfold INT_MIN, INT_MAX in Hi; lia|].
  apply SFdiv_not_nan, double_of_Z_not_nan.
Qed.

Lemma time_less_spec a b :
  normalized a -> normalized b -> (time_less a b = true <-> ts_ns a < ts_ns b).
Proof.
  unfold normalized, time_less, ts_ns, nmax. intros Ha Hb.
  rewrite orb_true_iff, andb_true_iff, !Z.ltb_lt, Z.eqb_eq. nia.
Qed.

Lemma time_less_false a b :
  normalized a -> normalized b -> (time_less a b = false <-> ts_ns b <= ts_ns a).
Proof.
  intros Ha Hb. rewrite <- Bool.not_true_iff_false, time_less_spec by assumption. lia.
Qed.

Lemma time_less_sec a b :
  normalized a -> normalized b -> time_less a b = false -> tv_sec b <= tv_sec a.
Proof.
  unfold normalized, time_less, nmax. intros Ha Hb H.
  apply orb_false_iff in H. destruct H as [H1 H2]. apply Z.ltb_ge in H1. assumption.
Qed.

Lemma time_diff_spec a b :
  ts_ok a -> ts_ok b -> time_less a b = false ->
  ts_ns (time_diff a b) = ts_ns a - ts_ns b
  /\ normalized (time_diff a b)
  /\ 0 <= tv_sec (time_diff a b).
Proof.
  intros [Hsa Hna] [Hsb Hnb] Hle.
  apply (time_less_false a b Hna Hnb) in Hle.
  unfold time_diff, ts_ns, normalized, nmax in *.
  rewrite (to_long_small (tv_sec a - tv_sec b)) by lia.
  rewrite (to_long_small (tv_nsec a - tv_nsec b)) by lia.
  destruct (Z.ltb_spec (tv_nsec a - tv_nsec b) 0); cbn [tv_sec tv_nsec].
  - rewrite !to_long_small by lia. lia.
  - lia.
Qed.

(** [time_diff2] is the difference of [time_diff] as a double. *)
Lemma time_diff2_time_diff a b :
  time_diff2 a b =
  (double_of_Z (tv_sec (time_diff a b))
   + double_of_Z (tv_nsec (time_diff a b)) / double_of_Z nmax)%float.
Proof.
  unfold time_diff2, time_diff.
  destruct (to_long (tv_nsec a - tv_nsec b) <? 0); cbn [tv_sec tv_nsec].
  - rewrite (Z.add_comm nmax). reflexivity.
  - reflexivity.
Qed.

(** A measured duration between two readings in order is not negative. *)
Lemma time_diff2_nonneg t1 t2 :
  ts_ok t1 -> ts_ok t2 -> time_less t2 t1 = false -> not_negative (time_diff2 t2 t1).
Proof.
  intros H1 H2 Hle. rewrite time_diff2_time_diff.
  destruct (time_diff_spec t2 t1 H2 H1 Hle) as (_ & Hn & Hs).
  apply nonneg_add.
  - apply nonneg_double_of_Z. assumption.
  - apply nonneg_spec. rewrite div_spec, Prim2SF_nmax. apply SFdiv_nonneg.
    apply nonneg_spec, nonneg_double_of_Z. apply Hn.
Qed.

(** ** The reservation *)

Lemma reserve_spec slot now d :
  ts_ok slot -> ts_ok now ->
  SFfin_nonneg (Prim2SF d) -> (SFval (Prim2SF d) < 2147483648)%R ->
  let slot' := fst (reserve slot now d) in
  let mine := snd (reserve slot now d) in
  time_less slot' slot = false
  /\ time_less slot' now = false
  /\ normalized slot'
  /\ tv_sec slot <= tv_sec slot' <= Z.max (tv_sec slot) (tv_sec now) + 2 ^ 31
  /\ ts_ns slot' = Z.max (ts_ns slot) (ts_ns now) + add_sec d * nmax + add_nsec d
  /\ ts_ns mine = Z.max (ts_ns slot - ts_ns now) 0.
Proof.
  intros Hslot Hnow Hfin Hlt. unfold reserve.
  destruct (add_sec_nsec_bounds d Hfin Hlt) as (_ & HS & HN).
  pose proof Hslot as [Hss Hsn]. pose proof Hnow as [Hns Hnn].
  destruct (time_less slot now) eqn:Hless; cbn [fst snd].
  - apply (time_less_spec slot now Hsn Hnn) in Hless.
    assert (Hset : time_set now = now) by (destruct now; reflexivity). rewrite Hset.
    destruct (time_add_spec now d Hnow Hfin Hlt) as (Hns' & Hnorm & Hsec).
    assert (tv_sec slot <= tv_sec now).
    { unfold ts_ns, nmax, normalized in *. nia. }
    repeat split; try (apply time_less_false; try assumption; unfold nmax in *; nia);
      try apply Hnorm; try lia.
    + unfold ts_ns at 1. cbn. unfold nmax in *. lia.
  - apply (time_less_false slot now Hsn Hnn) in Hless.
    destruct (time_add_spec slot d Hslot Hfin Hlt) as (Hns' & Hnorm & Hsec).
    destruct (time_diff_spec slot now Hslot Hnow) as (Hd & _).
    { apply time_less_false; assumption. }
    repeat split; try (apply time_less_false; try assumption; unfold nmax in *; nia);
      try apply Hnorm; try lia.
Qed.

Lemma sign_is_nonpos r : sign_is true r -> SFnonpos r.
Proof. destruct r as [s|s| |s m e]; cbn; intros H; subst; auto. Qed.

Lemma SFnonneg_nonpos_zero r : SFnonneg r -> SFnonpos r -> SFis_zero r.
Proof. destruct r as [s|[|]| |[|] m e]; cbn; tauto. Qed.

Lemma SFsub_nonpos c d :
  SFvalid c -> SFvalid d -> SFfin_nonneg c -> SFfin_nonneg d ->
  SFleb c d = true -> SFnonpos (SFsub prec emax c d).
Proof.
  intros Vc Vd Hc Hd Hle.
  destruct c as [sc|[|]| |[|] mc ec]; cbn [SFfin_nonneg] in Hc; try tauto;
    destruct d as [sd|[|]| |[|] md ed]; cbn [SFfin_nonneg] in Hd; try tauto;
    try discriminate Hle.
  - destruct sc, sd; exact I.
  - destruct (SFvalid_canonical _ _ _ Vc) as [Cc _].
    destruct (SFvalid_canonical _ _ _ Vd) as [Cd _].
    pose proof (SFleb_pos_true mc ec md ed Cc Cd Hle) as Hlt.
    destruct (SFsub_pos_spec mc ec md ed) as (M & -> & HM).
    destruct (Z_lt_le_dec M 0) as [Hneg|Hpos].
    + apply sign_is_nonpos, binary_normalize_sign_neg. assumption.
    + assert (M = 0).
      { assert (M <= 0) by (apply (F2R_le_same_inv (Z.min ec ed)); rewrite F2R_0; lra).
        lia. }
      subst M. exact I.
Qed.

Lemma SFleb_total c d :
  SFvalid c -> SFvalid d -> SFfin_nonneg c -> SFfin_nonneg d ->
  SFleb c d = false -> SFleb d c = true.
Proof.
  intros Vc Vd Hc Hd Hle.
  destruct c as [sc|[|]| |[|] mc ec]; cbn [SFfin_nonneg] in Hc; try tauto;
    destruct d as [sd|[|]| |[|] md ed]; cbn [SFfin_nonneg] in Hd; try tauto;
    try discriminate Hle; try reflexivity.
  destruct (SFvalid_canonical _ _ _ Vc) as [Cc _].
  destruct (SFvalid_canonical _ _ _ Vd) as [Cd _].
  pose proof (SFleb_pos_false mc ec md ed Cc Cd Hle) as Hlt.
  pose proof (SFcompare_pos md ed mc ec Cd Cc) as H. unfold SFleb.
  destruct (SFcompare _ _) as [[| |]|]; try reflexivity; try tauto. lra.
Qed.

Lemma SFsub_self x : SFfin_nonneg x -> SFsub prec emax x x = S754_zero false.
Proof.
  destruct x as [s|[|]| |[|] m e]; cbn [SFfin_nonneg]; try tauto; intros _.
  - destruct s; reflexivity.
  - destruct (SFsub_pos_spec m e m e) as (M & -> & HM).
    assert (M = 0).
    { assert (0 <= M) by (apply (F2R_nonneg_inv M (Z.min e e)); lra).
      assert (M <= 0) by (apply (F2R_le_same_inv (Z.min e e)); rewrite F2R_0; lra).
      lia. }
    subst M. reflexivity.
Qed.

Lemma SFeqb_refl x : x <> S754_nan -> SFeqb x x = true.
Proof.
  destruct x as [s|[|]| |[|] m e]; try congruence; intros _; try reflexivity;
    unfold SFeqb; cbn [SFcompare]; rewrite Z.compare_refl;
    fold (Pos.compare m m); rewrite Pos.compare_refl; reflexivity.
Qed.

Lemma SFeqb_zeros x y : SFis_zero x -> SFis_zero y -> SFeqb x y = true.
Proof. destruct x, y; cbn; tauto. Qed.

Lemma SFleb_zero_nonneg x :
  SFnonneg x -> SFleb x (S754_zero false) = true -> SFis_zero x.
Proof. destruct x as [s|[|]| |[|] m e]; cbn; try tauto; discriminate. Qed.

Lemma SFleb_zero_nonpos x : SFnonpos x -> SFleb x (S754_zero false) = true.
Proof. destruct x as [s|[|]| |[|] m e]; cbn; tauto. Qed.

Lemma SFnonneg_not_nan x : SFnonneg x -> x <> S754_nan.
Proof. destruct x; cbn; congruence || tauto. Qed.

Lemma SFis_zero_zero : SFis_zero (S754_zero false).
Proof. exact I. Qed.

Lemma clock_range_ts_ok t : clock_range t -> ts_ok t.
Proof. unfold clock_range, ts_ok, normalized. lia. Qed.

(** ** [sendall] leaves the limiter alone *)

Lemma sendall_loop_lim E fuel : forall s ptr nleft flags len st r st',
  sendall_loop E fuel s ptr nleft flags len st = Some (r, st') ->
  lim st' = lim st /\ exists tr', trace st' = tr' ++ trace st.
Proof.
  induction fuel as [|fuel IH]; intros s ptr nleft flags len st r st' H;
    cbn [sendall_loop] in H; [discriminate|].
  destruct (nleft =? 0).
  - inversion H; subst. split; [reflexivity|exists []; reflexivity].
  - unfold bind, sys_send, syscall, get_errno in H.
    assert (Hdone : forall x st0,
               lim st0 = lim st -> trace st0 = EvSend s ptr nleft flags :: trace st ->
               ret x st0 = Some (r, st') ->
               lim st' = lim st /\ exists tr', trace st' = tr' ++ trace st).
    { intros x st0 Hl Ht Hr. inversion Hr; subst. split; [assumption|].
      exists [EvSend s ptr nleft flags]. assumption. }
    assert (Hrec : forall p n st0,
               lim st0 = lim st -> trace st0 = EvSend s ptr nleft flags :: trace st ->
               sendall_loop E fuel s p n flags len st0 = Some (r, st') ->
               lim st' = lim st /\ exists tr', trace st' = tr' ++ trace st).
    { intros p n st0 Hl Ht Hr. apply IH in Hr. destruct Hr as [Hl' [tr' Ht']].
      split; [congruence|]. exists (tr' ++ [EvSend s ptr nleft flags]).
      rewrite <- app_assoc, Ht', Ht. reflexivity. }
    destruct (env_send E (trace st) s ptr nleft flags) as [n|err];
      repeat match type of H with
             | context [if ?b then _ else _] => destruct b
             end;
      first [eapply Hdone; [| |exact H]; reflexivity
            |eapply Hrec; [| |exact H]; reflexivity].
Qed.

Lemma to_size_not_neg z : (to_size z <? 0) = false.
Proof.
  apply Z.ltb_ge. unfold to_size. apply Z.mod_pos_bound. reflexivity.
Qed.

(** An invariant of the chunks is an invariant of the loop.  The index of
    the invariant is the fuel that is left. *)
Lemma send_loop_invariant E (P : nat -> RateLimiter -> Prop) :
  clock_ok E ->
  (forall f L now t1 t2 total,
      P (S f) L -> 0 < total ->
      clock_range now -> clock_range t1 -> clock_range t2 ->
      time_less t2 t1 = false ->
      P f (send_chunk now t1 t2 total L)) ->
  forall fuel s ptr total flags len st r st',
    P fuel (lim st) ->
    send_loop E fuel s ptr total flags len st = Some (r, st') ->
    exists f', P f' (lim st').
Proof.
  intros [Hrange Hmono] Hstep.
  induction fuel as [|fuel IH]; intros s ptr total flags len st r st' HP H;
    cbn [send_loop] in H; [discriminate|].
  destruct (Z.ltb_spec 0 total) as [Htot|Htot].
  - unfold bind, get_lim, clock_gettime, pthread_mutex_lock, pthread_mutex_unlock,
      nanosleep, log, modify_lim in H.
    cbn [lim errno trace] in H.
    set (now := env_clock E (trace st)) in *.
    set (d := send_duration (chunk_size total (maxburst_ (lim st))) (rate_ (lim st))) in *.
    destruct (send_critical now d (lim st)) as [L' [d' mysend]] eqn:Hcrit.
    cbn [lim errno trace] in H.
    set (tr1 := EvSleep (time_add mysend d') :: EvUnlock :: EvLock :: EvClock :: trace st) in *.
    destruct (sendall E fuel s ptr (chunk_size total (maxburst_ (lim st))) flags
                (mk_State L' (errno st) (EvClock :: tr1))) as [[r1 st1]|] eqn:Hsa;
      [|discriminate].
    apply sendall_loop_lim in Hsa. cbn [lim trace] in Hsa. destruct Hsa as [Hl1 [tr' Htr1]].
    rewrite to_size_not_neg in H. cbn [lim errno trace] in H.
    apply IH in H; [exact H|]. cbn [lim].
    rewrite Hl1.
    replace L' with (fst (send_critical now d (lim st))) by (rewrite Hcrit; reflexivity).
    apply (Hstep fuel (lim st) now (env_clock E tr1) (env_clock E (trace st1)) total);
      auto; try apply Hrange.
    rewrite Htr1. change (tr' ++ EvClock :: tr1) with (tr' ++ [EvClock] ++ tr1).
    rewrite app_assoc. apply Hmono.
  - inversion H; subst. eauto.
Qed.

(** ** The critical sections on the fields *)

Lemma send_critical_fields now d L :
  let L' := fst (send_critical now d L) in
  send_ L' = fst (reserve (send_ L) now (fst (draw_down d (sendextra_ L))))
  /\ sendextra_ L' = snd (draw_down d (sendextra_ L))
  /\ recv_ L' = recv_ L /\ recvextra_ L' = recvextra_ L
  /\ rate_ L' = rate_ L /\ maxburst_ L' = maxburst_ L.
Proof.
  unfold send_critical. destruct (draw_down d (sendextra_ L)) as [d' c'].
  cbn [fst snd]. destruct (reserve (send_ L) now d') as [slot mine]. cbn. repeat split; reflexivity.
Qed.

Lemma recv_critical_fields t1 t2 now d L :
  let c := (recvextra_ L + time_diff2 t2 t1)%float in
  let L' := fst (recv_critical t1 t2 now d L) in
  recv_ L' = fst (reserve (recv_ L) now (fst (draw_down d c)))
  /\ recvextra_ L' = snd (draw_down d c)
  /\ send_ L' = send_ L /\ sendextra_ L' = sendextra_ L
  /\ rate_ L' = rate_ L /\ maxburst_ L' = maxburst_ L.
Proof.
  unfold recv_critical.
  destruct (draw_down d (recvextra_ L + time_diff2 t2 t1)%float) as [d' c'].
  cbn [fst snd]. destruct (reserve (recv_ L) now d') as [slot mine]. cbn. repeat split; reflexivity.
Qed.

Lemma send_chunk_fields now t1 t2 total L :
  let d := send_duration (chunk_size total (maxburst_ L)) (rate_ L) in
  let L' := send_chunk now t1 t2 total L in
  send_ L' = fst (reserve (send_ L) now (fst (draw_down d (sendextra_ L))))
  /\ sendextra_ L' = (snd (draw_down d (sendextra_ L)) + time_diff2 t2 t1)%float
  /\ recv_ L' = recv_ L /\ recvextra_ L' = recvextra_ L
  /\ rate_ L' = rate_ L /\ maxburst_ L' = maxburst_ L.
Proof.
  cbv zeta. unfold send_chunk, send_account.
  destruct (send_critical_fields now
              (send_duration (chunk_size total (maxburst_ L)) (rate_ L)) L)
    as (H1 & H2 & H3 & H4 & H5 & H6).
  cbv zeta in *. cbn [send_ recv_ sendextra_ recvextra_ rate_ maxburst_ set_sendextra_].
  rewrite H2. repeat split; assumption.
Qed.

Lemma below_2p31_not_nan d : below_2p31 d -> Prim2SF d <> S754_nan.
Proof.
  unfold below_2p31. rewrite ltb_spec, Prim2SF_2p31.
  destruct (Prim2SF d); try congruence. cbn [SFltb SFcompare]. discriminate.
Qed.

Lemma chunk_size_range total maxburst :
  0 < total -> 0 <= chunk_size total maxburst <= to_size maxburst \/
               chunk_size total maxburst = total.
Proof.
  intros Ht. unfold chunk_size.
  destruct (Z.ltb_spec (to_size maxburst) total); [left|right; reflexivity].
  unfold to_size. pose proof (Z.mod_pos_bound maxburst (2 ^ 64) eq_refl). lia.
Qed.

Lemma chunk_size_le total maxburst :
  0 < total -> 0 <= chunk_size total maxburst <= to_size maxburst.
Proof.
  intros Ht. unfold chunk_size.
  destruct (Z.ltb_spec (to_size maxburst) total); [|lia].
  unfold to_size. pose proof (Z.mod_pos_bound maxburst (2 ^ 64) eq_refl). lia.
Qed.

Lemma send_chunk_credit now t1 t2 total L :
  credits_nonneg L -> rate_ L <> 0 -> rate_is_int L ->
  ts_ok t1 -> ts_ok t2 -> time_less t2 t1 = false ->
  credits_nonneg (send_chunk now t1 t2 total L).
Proof.
  intros [Hs Hr] Hrate Hint H1 H2 Hle.
  destruct (send_chunk_fields now t1 t2 total L) as (_ & Hc & _ & Hrx & _).
  cbv zeta in Hc, Hrx. unfold credits_nonneg. rewrite Hc, Hrx. split; [|assumption].
  apply nonneg_add.
  - apply draw_down_credit_nonneg; [assumption|].
    apply send_duration_not_nan; assumption.
  - apply time_diff2_nonneg; assumption.
Qed.

Lemma recv_critical_credit t1 t2 now result L :
  credits_nonneg L -> rate_ L <> 0 -> rate_is_int L ->
  ts_ok t1 -> ts_ok t2 -> time_less t2 t1 = false ->
  credits_nonneg (fst (recv_critical t1 t2 now (recv_duration result (rate_ L)) L)).
Proof.
  intros [Hs Hr] Hrate Hint H1 H2 Hle.
  destruct (recv_critical_fields t1 t2 now (recv_duration result (rate_ L)) L)
    as (_ & Hc & _ & Hsx & _).
  cbv zeta in Hc, Hsx. unfold credits_nonneg. rewrite Hc, Hsx. split; [assumption|].
  apply draw_down_credit_nonneg.
  - apply nonneg_add; [assumption|]. apply time_diff2_nonneg; assumption.
  - apply recv_duration_not_nan; assumption.
Qed.

Lemma syscall_eq answer e st :
  syscall answer e st =
  Some (sys_value (answer (trace st)),
        mk_State (lim st) (sys_errno (answer (trace st)) (errno st)) (e :: trace st)).
Proof. unfold syscall. destruct (answer (trace st)); reflexivity. Qed.

Lemma recv_paced E s buf len flags st :
  rate_ (lim st) <> 0 ->
  recv E s buf len flags st = Some (recv_paced_run E s buf len flags st).
Proof.
  intros Hr. unfold recv, recv_paced_run, bind, get_lim, sys_recv, clock_gettime.
  apply Z.eqb_neq in Hr. rewrite Hr. cbn [lim errno trace].
  rewrite syscall_eq. cbn [lim errno trace].
  destruct (to_int (sys_value _) <=? 0); [reflexivity|].
  unfold pthread_mutex_lock, pthread_mutex_unlock, nanosleep, log, modify_lim, ret.
  cbn [lim errno trace].
  destruct (recv_critical _ _ _ _ _) as [L' [d' mine]]. reflexivity.
Qed.

(** C2: from credits that are not negative, every [send] and [recv] that
    returns leaves the credits of both directions not negative, when the
    readings of the clock never go back, so that every measured duration
    of a transfer is not negative, and [rate_] holds an [int]. *)
Theorem credit_never_negative (E : Env) (fuel : nat) (s buf len flags : Z) (st : State) :
  clock_ok E -> rate_is_int (lim st) -> credits_nonneg (lim st) ->
  (forall r st', send E fuel s buf len flags st = Some (r, st') ->
                 credits_nonneg (lim st'))
  /\ (forall r st', recv E s buf len flags st = Some (r, st') ->
                    credits_nonneg (lim st')).
Proof.
  intros Hclock Hint Hcred. split; intros r st' H.
  - unfold send, bind, get_lim in H.
    destruct (Z.eqb_spec (rate_ (lim st)) 0) as [Hz|Hnz].
    + unfold sys_send in H. rewrite syscall_eq in H. inversion H; subst; exact Hcred.
    + destruct (send_loop_invariant E
                  (fun _ L => credits_nonneg L /\ rate_ L <> 0 /\ rate_is_int L) Hclock)
        with (fuel := fuel) (s := s) (ptr := buf) (total := len) (flags := flags)
             (len := len) (st := st) (r := r) (st' := st') as [f' [Hc _]]; auto.
      intros f L now t1 t2 total (Hc & Hr & Hi) Htot Hnow Ht1 Ht2 Hle.
      destruct (send_chunk_fields now t1 t2 total L) as (_ & _ & _ & _ & Hrt & _).
      cbv zeta in Hrt. unfold rate_is_int. rewrite Hrt.
      split; [|split; assumption].
      apply send_chunk_credit; auto using clock_range_ts_ok.
  - destruct Hclock as [Hrange Hmono].
    destruct (Z.eq_dec (rate_ (lim st)) 0) as [Hz|Hnz].
    + unfold recv, bind, get_lim, sys_recv in H.
      rewrite Hz in H. cbn [Z.eqb] in H. rewrite syscall_eq in H.
      inversion H; subst; exact Hcred.
    + rewrite (recv_paced E s buf len flags st Hnz) in H.
      unfold recv_paced_run in H. cbv zeta in H.
      destruct (_ <=? 0); inversion H; subst; cbn [lim]; [exact Hcred|].
      apply recv_critical_credit; auto using clock_range_ts_ok.
      change (EvRecv s buf (chunk_size len (maxburst_ (lim st))) flags
                :: EvClock :: trace st)
        with ([EvRecv s buf (chunk_size len (maxburst_ (lim st))) flags; EvClock]
                ++ trace st).
      apply Hmono.
Qed.

Lemma to_int_le n : 0 <= n -> to_int n <= n.
Proof.
  intros Hn. unfold to_int, wrap_signed. change (2 ^ (32 - 1)) with (2 ^ 31).
  destruct (Z_lt_le_dec n (2 ^ 31)).
  - rewrite Z.mod_small by lia. lia.
  - pose proof (Z.mod_pos_bound (n + 2 ^ 31) (2 ^ 32) eq_refl). lia.
Qed.

Lemma chunk_size_le_maxburst total maxburst : chunk_size total maxburst <= to_size maxburst.
Proof. unfold chunk_size. destruct (Z.ltb_spec (to_size maxburst) total); lia. Qed.

Lemma to_int_range z : INT_MIN <= to_int z <= INT_MAX.
Proof.
  unfold to_int, wrap_signed, INT_MIN, INT_MAX.
  pose proof (Z.mod_pos_bound (z + 2 ^ (32 - 1)) (2 ^ 32) eq_refl).
  change (2 ^ (32 - 1)) with (2 ^ 31) in *. lia.
Qed.

(** One reservation after a draw-down. *)
Lemma reserve_after_draw_down slot now d c n :
  0 <= n -> 2 ^ 32 * n <= 2 ^ 59 ->
  slot_ok (n + 1) slot -> clock_range now ->
  not_negative c -> below_2p31 d ->
  let slot' := fst (reserve slot now (fst (draw_down d c))) in
  slot_ok n slot'
  /\ ts_ns slot <= ts_ns slot'
  /\ tv_sec slot <= tv_sec slot'.
Proof.
  intros Hn0 Hn (Hnorm & Hlo & Hhi) Hnow Hc Hd.
  destruct (draw_down_duration d c Hc Hd) as [Hfin Hlt]. cbv zeta in Hfin, Hlt.
  pose proof Hnow as [[Hn1 Hn2] Hn3].
  destruct (reserve_spec slot now (fst (draw_down d c))) as (H1 & _ & H3 & H4 & _);
    try assumption.
  - unfold ts_ok. split; [lia|exact Hnorm].
  - apply clock_range_ts_ok. assumption.
  - cbv zeta in *. unfold slot_ok.
    apply (time_less_false _ _ H3 Hnorm) in H1.
    repeat split; try apply H3; try lia.
Qed.

Lemma send_chunk_schedule now t1 t2 total L n :
  0 <= n -> 2 ^ 32 * n <= 2 ^ 59 ->
  not_negative (sendextra_ L) -> durations_fit L ->
  slot_ok (n + 1) (send_ L) ->
  0 < total -> clock_range now -> clock_range t1 -> clock_range t2 ->
  time_less t2 t1 = false ->
  let L' := send_chunk now t1 t2 total L in
  not_negative (sendextra_ L') /\ durations_fit L'
  /\ slot_ok n (send_ L')
  /\ ts_ns (send_ L) <= ts_ns (send_ L')
  /\ recv_ L' = recv_ L.
Proof.
  intros Hn0 Hn Hc [Hfit Hfit'] Hslot Htot Hnow Ht1 Ht2 Hle.
  destruct (send_chunk_fields now t1 t2 total L) as (Hs & Hx & Hr & _ & Hrate & Hmb).
  cbv zeta in *.
  assert (Hd : below_2p31 (send_duration (chunk_size total (maxburst_ L)) (rate_ L))).
  { apply Hfit. apply chunk_size_le. assumption. }
  destruct (reserve_after_draw_down (send_ L) now _ (sendextra_ L) n Hn0 Hn Hslot Hnow Hc Hd)
    as (Hslot' & Hns & _).
  cbv zeta in *. unfold durations_fit. rewrite Hs, Hx, Hr, Hrate, Hmb.
  split; [|split; [split; assumption|split; [assumption|split; [assumption|reflexivity]]]].
  apply nonneg_add.
  - apply draw_down_credit_nonneg; [assumption|]. apply below_2p31_not_nan. assumption.
  - apply time_diff2_nonneg; auto using clock_range_ts_ok.
Qed.

Lemma slot_ok_normalized n t : slot_ok n t -> normalized t.
Proof. intros [H _]. exact H. Qed.

(** The two differences of two finite non-negative doubles. *)
Lemma sub_signs d c :
  fin_nonneg d -> fin_nonneg c -> (c <=? d)%float = true ->
  SFfin_nonneg (Prim2SF (d - c)) /\ SFnonpos (Prim2SF (c - d)).
Proof.
  intros Hd Hc Hle. apply fin_nonneg_spec in Hd, Hc. rewrite leb_spec in Hle.
  rewrite !sub_spec. split.
  - apply SFsub_duration; auto using SFvalid_Prim2SF, SFfin_nonneg_nonneg.
  - apply SFsub_nonpos; auto using SFvalid_Prim2SF.
Qed.

Lemma leb_total d c :
  fin_nonneg d -> fin_nonneg c -> (c <=? d)%float = false -> (d <=? c)%float = true.
Proof.
  intros Hd Hc Hle. apply fin_nonneg_spec in Hd, Hc. rewrite leb_spec in *.
  apply SFleb_total; auto using SFvalid_Prim2SF.
Qed.

Lemma eqb_zeros x y :
  SFis_zero (Prim2SF x) -> SFis_zero (Prim2SF y) -> (x =? y)%float = true.
Proof. intros Hx Hy. rewrite eqb_spec. apply SFeqb_zeros; assumption. Qed.

Lemma eqb_refl x : Prim2SF x <> S754_nan -> (x =? x)%float = true.
Proof. intros Hx. rewrite eqb_spec. apply SFeqb_refl; assumption. Qed.

Lemma sub_self x : fin_nonneg x -> Prim2SF (x - x) = S754_zero false.
Proof. intros Hx. apply fin_nonneg_spec in Hx. rewrite sub_spec. apply SFsub_self, Hx. Qed.

Lemma is_zero_zero : SFis_zero (Prim2SF zero).
Proof. exact I. Qed.

Lemma leb_zero_nonneg x :
  SFnonneg (Prim2SF x) -> (x <=? zero)%float = true -> SFis_zero (Prim2SF x).
Proof.
  intros Hx H. rewrite leb_spec in H. change (Prim2SF zero) with (S754_zero false) in H.
  apply SFleb_zero_nonneg; assumption.
Qed.

Lemma leb_zero_nonpos x : SFnonpos (Prim2SF x) -> (x <=? zero)%float = true.
Proof.
  intros Hx. rewrite leb_spec. change (Prim2SF zero) with (S754_zero false).
  apply SFleb_zero_nonpos; assumption.
Qed.

(** C4: for a finite ideal duration [d >= 0] and a finite credit [c >= 0],
    the draw-down yields the duration [d - min d c = max (d - c) 0] and
    the credit [c - min d c = max (c - d) 0], equal as doubles, and
    neither is negative. *)
Theorem draw_down_min_max (d c : double) :
  fin_nonneg d -> fin_nonneg c ->
  let d' := fst (draw_down d c) in
  let c' := snd (draw_down d c) in
  (d' =? d - double_min d c)%float = true
  /\ (d' =? double_max (d - c) zero)%float = true
  /\ (c' =? c - double_min d c)%float = true
  /\ (c' =? double_max (c - d) zero)%float = true
  /\ not_negative d' /\ not_negative c'.
Proof.
  intros Hd Hc. cbv zeta. unfold draw_down, double_min, double_max.
  pose proof (sub_self d Hd) as Hdd. pose proof (sub_self c Hc) as Hcc.
  assert (Zdd : SFis_zero (Prim2SF (d - d))) by (rewrite Hdd; exact I).
  assert (Zcc : SFis_zero (Prim2SF (c - c))) by (rewrite Hcc; exact I).
  destruct (c <=? d)%float eqn:Hcd; cbn [fst snd].
  - destruct (sub_signs d c Hd Hc Hcd) as [Hpos Hneg].
    assert (Hnn : Prim2SF (d - c) <> S754_nan)
      by (apply SFnonneg_not_nan, SFfin_nonneg_nonneg, Hpos).
    split; [|split; [|split; [|split; [|split]]]].
    + destruct (d <=? c)%float eqn:Hdc.
      * destruct (sub_signs c d Hc Hd Hdc) as [_ Hneg'].
        apply eqb_zeros; [|assumption].
        apply SFnonneg_nonpos_zero; [apply SFfin_nonneg_nonneg|]; assumption.
      * apply eqb_refl. assumption.
    + destruct (d - c <=? zero)%float eqn:Hz.
      * apply eqb_zeros; [|apply is_zero_zero].
        apply leb_zero_nonneg; [apply SFfin_nonneg_nonneg|]; assumption.
      * apply eqb_refl. assumption.
    + destruct (d <=? c)%float eqn:Hdc.
      * destruct (sub_signs c d Hc Hd Hdc) as [Hpos' _].
        apply eqb_zeros; [apply is_zero_zero|].
        apply SFnonneg_nonpos_zero; [apply SFfin_nonneg_nonneg|]; assumption.
      * apply eqb_zeros; [apply is_zero_zero|assumption].
    + rewrite (leb_zero_nonpos _ Hneg). apply eqb_zeros; apply is_zero_zero.
    + apply nonneg_spec, SFfin_nonneg_nonneg, Hpos.
    + reflexivity.
  - pose proof (leb_total d c Hd Hc Hcd) as Hdc.
    destruct (sub_signs c d Hc Hd Hdc) as [Hpos Hneg].
    assert (Hnn : Prim2SF (c - d) <> S754_nan)
      by (apply SFnonneg_not_nan, SFfin_nonneg_nonneg, Hpos).
    rewrite Hdc. split; [|split; [|split; [|split; [|split]]]].
    + apply eqb_zeros; [apply is_zero_zero|assumption].
    + rewrite (leb_zero_nonpos _ Hneg). apply eqb_zeros; apply is_zero_zero.
    + apply eqb_refl. assumption.
    + destruct (c - d <=? zero)%float eqn:Hz.
      * apply eqb_zeros; [|apply is_zero_zero].
        apply leb_zero_nonneg; [apply SFfin_nonneg_nonneg|]; assumption.
      * apply eqb_refl. assumption.
    + reflexivity.
    + apply nonneg_spec, SFfin_nonneg_nonneg, Hpos.
Qed.

Lemma add_nsec_whole d :
  fin_nonneg d -> trunc d = d -> add_nsec d = 0.
Proof.
  intros Hd Ht. unfold add_nsec. rewrite Ht.
  assert (Hz : (d - d)%float = zero).
  { apply Prim2SF_inj. rewrite sub_spec. apply SFsub_self. apply fin_nonneg_spec, Hd. }
  rewrite Hz. reflexivity.
Qed.

(** C1: when [::send] fails with ECONNRESET, [sendall] returns 0 and
    [send] returns the requested length, going on to the next chunk:
    the failure is reported as a success count. *)
Lemma send_fatal_error_reported_as_success :
  (exists st', sendall env_reset 10 3 100 100 0 (start limiter) = Some (0, st')
               /\ errno st' = 104)
  /\ (exists st', send env_reset 10 3 100 100 0 (start limiter) = Some (100, st')
                  /\ errno st' = 104)
  /\ (exists st', send env_reset 10 3 100 1000 0 (start limiter) = Some (1000, st')
                  /\ filter (fun e => match e with EvSend _ _ _ _ => true | _ => false end)
                            (trace st')
                     = [EvSend 3 600 500 0; EvSend 3 100 500 0]).
Proof.
  repeat split; eexists; (split; [vm_compute; reflexivity|reflexivity]).
Qed.

Lemma to_long_to_size v : - 2 ^ 63 <= v < 2 ^ 63 -> to_long (to_size v) = v.
Proof.
  intros Hv. unfold to_long, to_size, wrap_signed.
  change (2 ^ (64 - 1)) with (2 ^ 63).
  rewrite Zplus_mod_idemp_l.
  replace ((v + 2 ^ 63) mod 2 ^ 64) with (v + 2 ^ 63); [lia|].
  symmetry. apply Z.mod_small. lia.
Qed.

(** C5: at rate 0 each of [send], [recv] and [sendfile] is one call of
    the system primitive with the caller's arguments: nothing else is
    logged, the limiter is as it was, and the result and [errno] are the
    primitive's ([send] and [recv] return it as a [size_t], which read
    back as an [ssize_t] is the same value). *)
Theorem rate_zero_is_direct_call (E : Env) (st : State) (fuel : nat)
    (s buf len flags sock fd offset count : Z) :
  rate_ (lim st) = 0 ->
  let after a e := mk_State (lim st) (sys_errno a (errno st)) (e :: trace st) in
  let a_send := env_send E (trace st) s buf len flags in
  let a_recv := env_recv E (trace st) s buf len flags in
  let a_file := env_sendfile E (trace st) sock fd offset count in
  send E fuel s buf len flags st
    = Some (to_size (sys_value a_send), after a_send (EvSend s buf len flags))
  /\ recv E s buf len flags st
    = Some (to_size (sys_value a_recv), after a_recv (EvRecv s buf len flags))
  /\ sendfile E fuel sock fd offset count st
    = Some (sys_value a_file, after a_file (EvSendfile sock fd offset count))
  /\ (forall v, - 2 ^ 63 <= v < 2 ^ 63 -> to_long (to_size v) = v).
Proof.
  intros Hr. cbv zeta.
  unfold send, recv, sendfile, bind, get_lim, sys_send, sys_recv, sys_sendfile.
  rewrite Hr. cbn [Z.eqb]. rewrite !syscall_eq. cbn [ret].
  repeat split; auto using to_long_to_size.
Qed.

Lemma rate_zero_is_direct_call_witness :
  send env_reset 5 3 100 10000 0 (start unlimited)
  = Some (to_size (-1), mk_State unlimited 104 [EvSend 3 100 10000 0]).
Proof.
  exact (proj1 (rate_zero_is_direct_call env_reset (start unlimited) 5
                  3 100 10000 0 0 0 0 0 eq_refl)).
Defined.

(** C10: at a rate that is not 0, [send] of 0 bytes returns 0 with the
    state as it was: no call, no sleep, both schedules unchanged. *)
Theorem send_zero_length (E : Env) (st : State) (fuel : nat) (s buf flags : Z) :
  rate_ (lim st) <> 0 ->
  send E (S fuel) s buf 0 flags st = Some (0, st).
Proof.
  intros Hr. unfold send, bind, get_lim.
  apply Z.eqb_neq in Hr. rewrite Hr. reflexivity.
Qed.

Lemma send_zero_length_witness :
  send env_accept 1 3 100 0 0 (start limiter) = Some (0, start limiter).
Proof.
  apply (send_zero_length env_accept (start limiter) 0 3 100 0). vm_compute. discriminate.
Defined.

(** C6: the constructor with two arguments leaves [recv_] as the storage
    held it, and no constructor assigns [sendextra_] or [recvextra_]. *)
Lemma constructors_leave_members_unset :
  (exists st', RateLimiter_ctor2 env_accept 8 500 (start raw_storage) = Some (tt, st')
               /\ send_ (lim st') = t0
               /\ recv_ (lim st') = mk_timespec 3 4
               /\ sendextra_ (lim st') = 5%float
               /\ recvextra_ (lim st') = (-7)%float)
  /\ (exists st', RateLimiter_ctor1 env_accept 8 (start raw_storage) = Some (tt, st')
                  /\ recv_ (lim st') = mk_timespec 1001 0
                  /\ sendextra_ (lim st') = 5%float
                  /\ recvextra_ (lim st') = (-7)%float)
  /\ (exists st', RateLimiter_ctor0 env_accept (start raw_storage) = Some (tt, st')
                  /\ recv_ (lim st') = mk_timespec 1001 0
                  /\ sendextra_ (lim st') = 5%float
                  /\ recvextra_ (lim st') = (-7)%float).
Proof.
  repeat split; eexists; (split; [vm_compute; reflexivity|repeat split]).
Qed.

(** C7: when the peer takes 300 bytes and then none, [send] of 1000
    bytes returns 1000, not the 300 bytes delivered. *)
Lemma send_short_completion_reported_as_full :
  exists st', send env_closing 10 3 100 1000 0 (start limiter) = Some (1000, st')
              /\ filter (fun e => match e with EvSend _ _ _ _ => true | _ => false end)
                        (trace st')
                 = [EvSend 3 600 500 0; EvSend 3 400 200 0; EvSend 3 100 500 0].
Proof.
  eexists. split; [vm_compute; reflexivity|reflexivity].
Qed.

(** C9: when [read] fails with EIO, [sendfile] sends 100 bytes of its
    buffer and returns 100: the failure is not surfaced. *)
Lemma sendfile_read_error_reported_as_success :
  exists st', sendfile env_eio 10 3 4 0 100 (start limiter) = Some (100, st')
              /\ errno st' = 5
              /\ filter (fun e => match e with
                                  | EvSend _ _ _ _ | EvRead _ _ _ => true
                                  | _ => false
                                  end) (trace st')
                 = [EvSend 3 7000 100 0; EvRead 4 7000 1024].
Proof.
  eexists. split; [vm_compute; reflexivity|split; reflexivity].
Qed.

(** ** Witnesses *)

Lemma ticking_clock_ok E : env_clock E = ticking -> clock_ok E.
Proof.
  intros HE. unfold clock_ok. rewrite HE. split.
  - intros tr. unfold clock_range, normalized, ticking, nmax. cbn [tv_sec tv_nsec]. lia.
  - intros tr tr'. apply time_less_false.
    + unfold normalized, ticking, nmax. cbn. lia.
    + unfold normalized, ticking, nmax. cbn. lia.
    + unfold ts_ns, ticking, nmax. cbn [tv_sec tv_nsec].
      rewrite length_app, Nat2Z.inj_add. lia.
Qed.

Lemma forall_upto (P : Z -> bool) (n : nat) :
  forallb P (map Z.of_nat (seq 0 (S n))) = true ->
  forall z, 0 <= z <= Z.of_nat n -> P z = true.
Proof.
  intros H z Hz. rewrite forallb_forall in H. apply H.
  rewrite <- (Z2Nat.id z) by lia. apply in_map, in_seq. lia.
Qed.

Lemma limiter_durations_fit : durations_fit limiter.
Proof.
  split.
  - intros size Hs.
    apply (forall_upto (fun z => (send_duration z 8000 <? 2147483648)%float) 500).
    + vm_compute. reflexivity.
    + exact Hs.
  - intros result Hr.
    apply (forall_upto (fun z => (recv_duration z 8000 <? 2147483648)%float) 500).
    + vm_compute. reflexivity.
    + change (to_size (maxburst_ limiter)) with 500 in Hr. cbn. lia.
Qed.

Lemma env_accept_recv_bounded : recv_bounded env_accept.
Proof.
  intros tr s buf len flags n. cbn. destruct (Z.leb_spec 0 len) as [Hl|Hl]; intros Ha.
  - inversion Ha; subst. lia.
  - discriminate.
Qed.

Lemma credit_never_negative_witness :
  exists r st', send env_accept 10 3 100 1000 0 (start limiter) = Some (r, st')
                /\ credits_nonneg (lim st').
Proof.
  eexists. eexists. split; [vm_compute; reflexivity|].
  eapply (proj1 (credit_never_negative env_accept 10 3 100 1000 0 (start limiter)
                   (ticking_clock_ok env_accept eq_refl)
                   ltac:(vm_compute; split; discriminate)
                   (conj eq_refl eq_refl))).
  vm_compute. reflexivity.
Defined.

Lemma draw_down_min_max_witness :
  (fst (draw_down 0.5 0.25) =? 0.5 - double_min 0.5 0.25)%float = true.
Proof.
  exact (proj1 (draw_down_min_max 0.5%float 0.25%float
                  (conj eq_refl eq_refl) (conj eq_refl eq_refl))).
Defined.

Lemma sendall_loop_step E fuel s ptr nleft flags len st :
  sendall_loop E (S fuel) s ptr nleft flags len st =
  if nleft =? 0 then Some (len, st)
  else
    let st1 := after_send E s ptr nleft flags st in
    let nwritten := nwritten_of E s ptr nleft flags st in
    if nwritten <? 0 then
      if errno st1 =? EINTR
      then sendall_loop E fuel s ptr nleft flags len st1
      else Some (0, st1)
    else if nwritten =? 0 then Some (len, st1)
    else sendall_loop E fuel s (ptr + nwritten) (to_size (nleft - nwritten)) flags len st1.
Proof.
  cbn [sendall_loop]. destruct (nleft =? 0); [reflexivity|].
  unfold bind, sys_send, get_errno. rewrite syscall_eq.
  fold (after_send E s ptr nleft flags st). fold (nwritten_of E s ptr nleft flags st).
  cbv zeta. destruct (nwritten_of E s ptr nleft flags st <? 0).
  - destruct (errno (after_send E s ptr nleft flags st) =? EINTR); reflexivity.
  - destruct (nwritten_of E s ptr nleft flags st =? 0); reflexivity.
Qed.

Lemma send_loop_step E fuel s ptr total flags len st :
  send_loop E (S fuel) s ptr total flags len st =
  if 0 <? total then
    let size := chunk_size total (maxburst_ (lim st)) in
    match sendall E fuel s ptr size flags (before_sendall E total st) with
    | Some (_, st1) =>
        send_loop E fuel s (ptr + size) (to_size (total - size)) flags len
          (after_sendall E (chunk_t1 E total st) st1)
    | None => None
    end
  else Some (len, st).
Proof.
  cbn [send_loop]. destruct (0 <? total); [|reflexivity].
  unfold bind, get_lim, clock_gettime, pthread_mutex_lock, pthread_mutex_unlock,
    nanosleep, log, modify_lim.
  cbn [lim errno trace]. unfold chunk_t1, before_sendall. cbv zeta.
  destruct (send_critical _ _ _) as [L' [d' mysend]]. cbn [fst snd lim errno trace tl].
  destruct (sendall _ _ _ _ _ _ _) as [[r1 st1]|]; [|reflexivity].
  rewrite to_size_not_neg. reflexivity.
Qed.

(** ** Invariants of the loops *)

(** A property of the state that [sendall] keeps when each call of
    [::send] keeps it. *)
Lemma sendall_loop_state_invariant E (P : State -> Prop) :
  (forall s ptr n flags st, P st -> P (after_send E s ptr n flags st)) ->
  forall fuel s ptr nleft flags len st r st',
    P st -> sendall_loop E fuel s ptr nleft flags len st = Some (r, st') -> P st'.
Proof.
  intros Hcall. induction fuel as [|fuel IH]; intros s ptr nleft flags len st r st' HP H;
    [discriminate|].
  rewrite sendall_loop_step in H. cbv zeta in H.
  specialize (Hcall s ptr nleft flags st HP).
  destruct (nleft =? 0); [inversion H; subst; assumption|].
  destruct (_ <? 0).
  - destruct (_ =? EINTR);
      [eapply IH; [|exact H]; exact Hcall|inversion H; subst; assumption].
  - destruct (_ =? 0);
      [inversion H; subst; assumption|eapply IH; [|exact H]; exact Hcall].
Qed.

(** A property of the state that the loop of [send] keeps when each of
    its parts keeps it; and the loop returns [len]. *)
Lemma send_loop_state_invariant E (P : State -> Prop) :
  (forall total st, P st -> 0 < total -> P (before_sendall E total st)) ->
  (forall s ptr n flags st, P st -> P (after_send E s ptr n flags st)) ->
  (forall t1 st1, P st1 -> P (after_sendall E t1 st1)) ->
  forall fuel s ptr total flags len st r st',
    P st -> send_loop E fuel s ptr total flags len st = Some (r, st') ->
    P st' /\ r = len.
Proof.
  intros Hpre Hcall Hpost.
  induction fuel as [|fuel IH]; intros s ptr total flags len st r st' HP H;
    [discriminate|].
  rewrite send_loop_step in H. cbv zeta in H.
  destruct (Z.ltb_spec 0 total) as [Htot|Htot].
  - destruct (sendall _ _ _ _ _ _ _) as [[r1 st1]|] eqn:Hsa; [|discriminate].
    apply (sendall_loop_state_invariant E P Hcall) in Hsa; [|apply Hpre; assumption].
    eapply IH; [|eassumption]. apply Hpost. assumption.
  - inversion H; subst. auto.
Qed.

(** The same for the whole of [send]. *)
Lemma send_state_invariant E (P : State -> Prop) :
  (forall total st, P st -> 0 < total -> P (before_sendall E total st)) ->
  (forall s ptr n flags st, P st -> P (after_send E s ptr n flags st)) ->
  (forall t1 st1, P st1 -> P (after_sendall E t1 st1)) ->
  forall fuel s buf len flags st r st',
    P st -> send E fuel s buf len flags st = Some (r, st') -> P st'.
Proof.
  intros Hpre Hcall Hpost fuel s buf len flags st r st' HP H.
  unfold send, bind, get_lim in H. destruct (rate_ (lim st) =? 0).
  - unfold sys_send in H. rewrite syscall_eq in H. inversion H; subst.
    apply (Hcall s buf len flags st HP).
  - apply (send_loop_state_invariant E P Hpre Hcall Hpost) in H; tauto.
Qed.

(** X1: whatever the transport does, a paced [send] that returns, returns
    the length it was asked to send. *)
Theorem send_paced_returns_len (E : Env) (fuel : nat) (s buf len flags : Z)
    (st : State) (r : Z) (st' : State) :
  rate_ (lim st) <> 0 ->
  send E fuel s buf len flags st = Some (r, st') -> r = len.
Proof.
  intros Hr H. unfold send, bind, get_lim in H.
  apply Z.eqb_neq in Hr. rewrite Hr in H.
  apply (send_loop_state_invariant E (fun _ => True)) in H; tauto.
Qed.

Lemma send_paced_returns_len_witness :
  exists r st', send env_closing 10 3 100 1000 0 (start limiter) = Some (r, st')
                /\ r = 1000.
Proof.
  eexists. eexists. split; [vm_compute; reflexivity|].
  eapply (send_paced_returns_len env_closing 10 3 100 1000 0 (start limiter));
    [vm_compute; discriminate | vm_compute; reflexivity].
Defined.

Lemma sendall_loop_result E fuel : forall s ptr nleft flags len st r st',
  sendall_loop E fuel s ptr nleft flags len st = Some (r, st') ->
  lim st' = lim st
  /\ (r = len \/ (r = 0 /\ errno st' <> EINTR))
  /\ exists tr', trace st' = tr' ++ trace st /\ forallb is_send tr' = true.
Proof.
  induction fuel as [|fuel IH]; intros s ptr nleft flags len st r st' H; [discriminate|].
  rewrite sendall_loop_step in H. cbv zeta in H.
  assert (Hrec : forall p n,
             sendall_loop E fuel s p n flags len (after_send E s ptr nleft flags st)
             = Some (r, st') ->
             lim st' = lim st
             /\ (r = len \/ (r = 0 /\ errno st' <> EINTR))
             /\ exists tr', trace st' = tr' ++ trace st /\ forallb is_send tr' = true).
  { intros p n Hr. apply IH in Hr. destruct Hr as (Hl & Hres & tr' & Ht & Hs).
    cbn [lim trace after_send] in Hl, Ht. repeat split; try assumption.
    exists (tr' ++ [EvSend s ptr nleft flags]). rewrite <- app_assoc. split; [exact Ht|].
    rewrite forallb_app, Hs. reflexivity. }
  assert (Hone : trace (after_send E s ptr nleft flags st)
                 = [EvSend s ptr nleft flags] ++ trace st) by reflexivity.
  destruct (nleft =? 0).
  { inversion H; subst. repeat split; auto. exists []. auto. }
  destruct (_ <? 0).
  - destruct (Z.eqb_spec (errno (after_send E s ptr nleft flags st)) EINTR) as [He|He].
    + eapply Hrec; eassumption.
    + inversion H; subst. repeat split; eauto.
  - destruct (_ =? 0).
    + inversion H; subst. repeat split; eauto.
    + eapply Hrec; eassumption.
Qed.

Lemma sendall_loop_outcome E fuel : forall s ptr nleft flags len st r st',
  sendall_loop E fuel s ptr nleft flags len st = Some (r, st') ->
  (nleft = 0 /\ r = len /\ st' = st)
  \/ (nleft <> 0
      /\ exists p n st0 tr0,
           sendall_reaches E s flags ptr nleft st p n st0
           /\ lim st0 = lim st
           /\ trace st0 = tr0 ++ trace st
           /\ Forall (send_on s flags) tr0
           /\ st' = after_send E s p n flags st0
           /\ let w := nwritten_of E s p n flags st0 in
              (r = len /\ (w = 0 \/ (0 < w /\ to_size (n - w) = 0)))
              \/ (r = 0 /\ w < 0 /\ errno st' <> EINTR)).
Proof.
  induction fuel as [|fuel IH]; intros s ptr nleft flags len st r st' H; [discriminate|].
  rewrite sendall_loop_step in H. cbv zeta in H.
  destruct (Z.eqb_spec nleft 0) as [Hz|Hnz].
  { left. inversion H; subst. auto. }
  right. split; [assumption|].
  set (st1 := after_send E s ptr nleft flags st) in *.
  set (w := nwritten_of E s ptr nleft flags st) in *.
  assert (Hlast : forall res,
             (res = len /\ (w = 0 \/ (0 < w /\ to_size (nleft - w) = 0))
              \/ res = 0 /\ w < 0 /\ errno st1 <> EINTR) ->
             exists p n st0 tr0,
               sendall_reaches E s flags ptr nleft st p n st0
               /\ lim st0 = lim st /\ trace st0 = tr0 ++ trace st
               /\ Forall (send_on s flags) tr0
               /\ st1 = after_send E s p n flags st0
               /\ let w := nwritten_of E s p n flags st0 in
                  (res = len /\ (w = 0 \/ (0 < w /\ to_size (n - w) = 0)))
                  \/ (res = 0 /\ w < 0 /\ errno st1 <> EINTR)).
  { intros res Hres. exists ptr, nleft, st, [].
    split; [apply reaches_first|].
    split; [reflexivity|]. split; [reflexivity|]. split; [constructor|].
    split; [reflexivity|]. exact Hres. }
  assert (Hrec : forall p n,
             (forall p' n' st0, sendall_reaches E s flags p n st1 p' n' st0 ->
                                sendall_reaches E s flags ptr nleft st p' n' st0) ->
             n <> 0 ->
             sendall_loop E fuel s p n flags len st1 = Some (r, st') ->
             exists p n st0 tr0,
               sendall_reaches E s flags ptr nleft st p n st0
               /\ lim st0 = lim st /\ trace st0 = tr0 ++ trace st
               /\ Forall (send_on s flags) tr0
               /\ st' = after_send E s p n flags st0
               /\ let w := nwritten_of E s p n flags st0 in
                  (r = len /\ (w = 0 \/ (0 < w /\ to_size (n - w) = 0)))
                  \/ (r = 0 /\ w < 0 /\ errno st' <> EINTR)).
  { intros p n Hstep Hn Hr. apply IH in Hr.
    destruct Hr as [(Hn0 & _)|(_ & p' & n' & st0 & tr0 & Hpath & Hl & Ht & Hf & Hst & Hout)];
      [contradiction|].
    exists p', n', st0, (tr0 ++ [EvSend s ptr nleft flags]).
    split; [apply Hstep; exact Hpath|].
    split; [exact Hl|]. split; [rewrite <- app_assoc; exact Ht|].
    split; [|split; [exact Hst|exact Hout]].
    apply Forall_app. split; [exact Hf|]. constructor; [cbn; auto|constructor]. }
  destruct (Z.ltb_spec w 0) as [Hneg|Hpos].
  - destruct (Z.eqb_spec (errno st1) EINTR) as [He|He].
    + apply (Hrec ptr nleft); try assumption.
      intros p' n' st0 Hp. apply reaches_retry; assumption.
    + inversion H; subst r st'. apply Hlast. right. auto.
  - destruct (Z.eqb_spec w 0) as [Hw|Hw].
    + inversion H; subst r st'. apply Hlast. left. auto.
    + destruct (Z.eq_dec (to_size (nleft - w)) 0) as [Hdone|Hmore].
      * rewrite Hdone in H. destruct fuel as [|fuel']; [discriminate|].
        rewrite sendall_loop_step in H. cbn [Z.eqb] in H.
        inversion H; subst r st'. apply Hlast. left. split; [reflexivity|]. right. lia.
      * apply (Hrec _ _ ltac:(intros p' n' st0 Hp; apply reaches_rest;
                               [fold w; lia|fold w; assumption|exact Hp]) Hmore H).
Qed.

(** X2: a [sendall] that returns has either made no call, the length
    being 0, or ended on a call of [::send], reached from the first
    call, for the whole buffer, by going on after interrupted calls and
    after calls that took a part of the bytes, and in no other way.  It
    hands back the whole length when the count of that last call, as
    the [int] [nwritten], is 0 or completes the length; it hands back 0
    when that count is negative as an [int] and [errno] is not
    [EINTR].  Every call it makes is a [::send] on the same socket with
    the same flags, and the limiter is as it was. *)
Theorem sendall_result (E : Env) (fuel : nat) (s buf len flags : Z)
    (st : State) (r : Z) (st' : State) :
  sendall E fuel s buf len flags st = Some (r, st') ->
  (len = 0 /\ r = len /\ st' = st)
  \/ (len <> 0
      /\ exists p n st0 tr0,
           sendall_reaches E s flags buf len st p n st0
           /\ lim st0 = lim st
           /\ trace st0 = tr0 ++ trace st
           /\ Forall (send_on s flags) tr0
           /\ st' = after_send E s p n flags st0
           /\ let w := nwritten_of E s p n flags st0 in
              (r = len /\ (w = 0 \/ (0 < w /\ to_size (n - w) = 0)))
              \/ (r = 0 /\ w < 0 /\ errno st' <> EINTR)).
Proof. apply sendall_loop_outcome. Qed.

Lemma sendall_result_witness :
  exists r st', sendall env_reset 10 3 100 500 0 (start limiter) = Some (r, st')
                /\ (r = 500 \/ r = 0).
Proof.
  eexists. eexists. split; [vm_compute; reflexivity|].
  destruct (sendall_result env_reset 10 3 100 500 0 (start limiter) _ _
              ltac:(vm_compute; reflexivity))
    as [(_ & H & _)|(_ & p & n & st0 & tr0 & _ & _ & _ & _ & _ & [(H & _)|(H & _)])];
    [left; exact H|left; exact H|right; exact H].
Defined.

(** ** The two directions are independent *)

Lemma send_keeps_fields E fuel s buf len flags st r st' :
  send E fuel s buf len flags st = Some (r, st') ->
  recv_ (lim st') = recv_ (lim st)
  /\ recvextra_ (lim st') = recvextra_ (lim st)
  /\ rate_ (lim st') = rate_ (lim st)
  /\ maxburst_ (lim st') = maxburst_ (lim st).
Proof.
  intros H.
  apply (send_state_invariant E
           (fun x => recv_ (lim x) = recv_ (lim st)
                     /\ recvextra_ (lim x) = recvextra_ (lim st)
                     /\ rate_ (lim x) = rate_ (lim st)
                     /\ maxburst_ (lim x) = maxburst_ (lim st))) in H; auto.
  - intros total x (H1 & H2 & H3 & H4) _. unfold before_sendall. cbv zeta. cbn [lim].
    destruct (send_critical_fields (env_clock E (trace x))
                (send_duration (chunk_size total (maxburst_ (lim x))) (rate_ (lim x)))
                (lim x)) as (_ & _ & F1 & F2 & F3 & F4).
    cbv zeta in F1, F2, F3, F4. rewrite F1, F2, F3, F4. auto.
Qed.

(** X3: [send] writes neither the receive schedule nor the
    configuration. *)
Theorem send_leaves_receive_side (E : Env) (fuel : nat) (s buf len flags : Z)
    (st : State) (r : Z) (st' : State) :
  send E fuel s buf len flags st = Some (r, st') ->
  recv_ (lim st') = recv_ (lim st)
  /\ recvextra_ (lim st') = recvextra_ (lim st)
  /\ rate_ (lim st') = rate_ (lim st)
  /\ maxburst_ (lim st') = maxburst_ (lim st).
Proof. apply send_keeps_fields. Qed.

Lemma send_leaves_receive_side_witness :
  exists r st', send env_accept 10 3 100 1000 0 (start limiter) = Some (r, st')
                /\ recv_ (lim st') = recv_ limiter.
Proof.
  eexists. eexists. split; [vm_compute; reflexivity|].
  refine (proj1 (send_leaves_receive_side env_accept 10 3 100 1000 0 (start limiter) _ _ _)).
  vm_compute. reflexivity.
Defined.

(** X4: [recv] writes neither the send schedule nor the configuration. *)
Theorem recv_leaves_send_side (E : Env) (s buf len flags : Z)
    (st : State) (r : Z) (st' : State) :
  recv E s buf len flags st = Some (r, st') ->
  send_ (lim st') = send_ (lim st)
  /\ sendextra_ (lim st') = sendextra_ (lim st)
  /\ rate_ (lim st') = rate_ (lim st)
  /\ maxburst_ (lim st') = maxburst_ (lim st).
Proof.
  intros H. destruct (Z.eq_dec (rate_ (lim st)) 0) as [Hz|Hnz].
  - unfold recv, bind, get_lim, sys_recv in H.
    rewrite Hz in H. cbn [Z.eqb] in H. rewrite syscall_eq in H.
    inversion H; subst. cbn [lim]. auto.
  - rewrite (recv_paced E s buf len flags st Hnz) in H.
    unfold recv_paced_run in H. cbv zeta in H.
    destruct (_ <=? 0); inversion H; subst; cbn [lim]; auto.
    match goal with
    | |- context [recv_critical ?a ?b ?c ?d ?L] =>
        destruct (recv_critical_fields a b c d L) as (_ & _ & F1 & F2 & F3 & F4)
    end.
    cbv zeta in F1, F2, F3, F4. auto.
Qed.

Lemma recv_leaves_send_side_witness :
  exists r st', recv env_accept 3 100 1000 0 (start limiter) = Some (r, st')
                /\ send_ (lim st') = send_ limiter.
Proof.
  eexists. eexists. split; [vm_compute; reflexivity|].
  refine (proj1 (recv_leaves_send_side env_accept 3 100 1000 0 (start limiter) _ _ _)).
  vm_compute. reflexivity.
Defined.

Lemma sendfile_loop_step E fuel sock fd count len st :
  sendfile_loop E (S fuel) sock fd count len st =
  if len <? count then
    let rnum := rnum_of E fd st in
    if rnum =? 0 then Some (to_long len, after_read E fd st)
    else
      let rnum := if to_size (count - len) <? rnum then to_size (count - len) else rnum in
      match send E fuel sock (env_stackbuf E) rnum 0 (after_read E fd st) with
      | Some (_, st2) => sendfile_loop E fuel sock fd count (to_size (len + rnum)) st2
      | None => None
      end
  else Some (to_long count, st).
Proof.
  cbn [sendfile_loop]. destruct (len <? count); [|reflexivity].
  unfold bind at 1. unfold sys_read. rewrite syscall_eq.
  cbv zeta. rewrite to_size_not_neg.
  fold (after_read E fd st). fold (rnum_of E fd st).
  destruct (rnum_of E fd st =? 0); [reflexivity|].
  unfold bind. destruct (send _ _ _ _ _ _ _) as [[r st2]|]; [|reflexivity].
  rewrite to_size_not_neg. reflexivity.
Qed.

(** A property of the state that the loop of [sendfile] keeps when each
    of its parts keeps it. *)
Lemma sendfile_loop_state_invariant E (P : State -> Prop) :
  (forall total st, P st -> 0 < total -> P (before_sendall E total st)) ->
  (forall s ptr n flags st, P st -> P (after_send E s ptr n flags st)) ->
  (forall t1 st1, P st1 -> P (after_sendall E t1 st1)) ->
  (forall fd st, P st -> P (after_read E fd st)) ->
  forall fuel sock fd count len st r st',
    P st -> sendfile_loop E fuel sock fd count len st = Some (r, st') -> P st'.
Proof.
  intros Hpre Hcall Hpost Hread.
  induction fuel as [|fuel IH]; intros sock fd count len st r st' HP H; [discriminate|].
  rewrite sendfile_loop_step in H. cbv zeta in H.
  destruct (len <? count); [|inversion H; subst; assumption].
  destruct (_ =? 0); [inversion H; subst; apply Hread; assumption|].
  destruct (send _ _ _ _ _ _ _) as [[r2 st2]|] eqn:Hs; [|discriminate].
  apply (send_state_invariant E P Hpre Hcall Hpost) in Hs; [|apply Hread; assumption].
  eapply IH; eassumption.
Qed.

Lemma mutex_free_send_parts E :
  (forall total st, mutex_free (trace st) -> 0 < total ->
                    mutex_free (trace (before_sendall E total st)))
  /\ (forall s ptr n flags st, mutex_free (trace st) ->
                               mutex_free (trace (after_send E s ptr n flags st)))
  /\ (forall t1 st1, mutex_free (trace st1) -> mutex_free (trace (after_sendall E t1 st1)))
  /\ (forall fd st, mutex_free (trace st) -> mutex_free (trace (after_read E fd st))).
Proof.
  unfold mutex_free, before_sendall, after_send, after_sendall, after_read.
  repeat split; intros; cbv zeta; cbn [trace mutex_held];
    match goal with H : mutex_held _ = _ |- _ => rewrite H end; reflexivity.
Qed.

(** X5: [send], [recv] and [sendfile] take the mutex only when it is
    free, release it before they return, and while they hold it make no
    system call, read no clock and do not sleep. *)
Theorem mutex_discipline (E : Env) (st : State) :
  mutex_free (trace st) ->
  (forall fuel s buf len flags r st',
      send E fuel s buf len flags st = Some (r, st') -> mutex_free (trace st'))
  /\ (forall s buf len flags r st',
         recv E s buf len flags st = Some (r, st') -> mutex_free (trace st'))
  /\ (forall fuel sock fd offset count r st',
         sendfile E fuel sock fd offset count st = Some (r, st') ->
         mutex_free (trace st')).
Proof.
  intros Hfree. destruct (mutex_free_send_parts E) as (Hpre & Hcall & Hpost & Hread).
  split; [|split].
  - intros fuel s buf len flags r st' H.
    exact (send_state_invariant E (fun x => mutex_free (trace x)) Hpre Hcall Hpost
             fuel s buf len flags st r st' Hfree H).
  - intros s buf len flags r st' H.
    destruct (Z.eq_dec (rate_ (lim st)) 0) as [Hz|Hnz].
    + unfold recv, bind, get_lim, sys_recv in H.
      rewrite Hz in H. cbn [Z.eqb] in H. rewrite syscall_eq in H.
      inversion H; subst. unfold mutex_free in *. cbn [trace mutex_held].
      rewrite Hfree. reflexivity.
    + rewrite (recv_paced E s buf len flags st Hnz) in H.
      unfold recv_paced_run in H. cbv zeta in H. unfold mutex_free in *.
      destruct (_ <=? 0); inversion H; subst; cbn [trace mutex_held];
        rewrite Hfree; reflexivity.
  - intros fuel sock fd offset count r st' H.
    unfold sendfile, bind, get_lim in H. destruct (rate_ (lim st) =? 0).
    + unfold sys_sendfile in H. rewrite syscall_eq in H. inversion H; subst.
      unfold mutex_free in *. cbn [trace mutex_held]. rewrite Hfree. reflexivity.
    + exact (sendfile_loop_state_invariant E (fun x => mutex_free (trace x))
               Hpre Hcall Hpost Hread fuel sock fd count 0 st r st' Hfree H).
Qed.

Lemma mutex_discipline_witness :
  exists r st', send env_accept 10 3 100 1000 0 (start limiter) = Some (r, st')
                /\ mutex_free (trace st').
Proof.
  eexists. eexists. split; [vm_compute; reflexivity|].
  refine (proj1 (mutex_discipline env_accept (start limiter) eq_refl) 10%nat 3 100 1000 0 _ _ _).
  vm_compute. reflexivity.
Defined.

Lemma sendfile_loop_result E (noeof : Prop) :
  (noeof -> never_eof E) ->
  forall fuel sock fd count len st r st',
    0 <= len <= count -> count < 2 ^ 63 ->
    sendfile_loop E fuel sock fd count len st = Some (r, st') ->
    len <= r <= count /\ (noeof -> r = count).
Proof.
  intros Hno.
  induction fuel as [|fuel IH]; intros sock fd count len st r st' Hlen Hc H; [discriminate|].
  rewrite sendfile_loop_step in H. cbv zeta in H.
  destruct (Z.ltb_spec len count) as [Hlt|Hge].
  - destruct (Z.eqb_spec (rnum_of E fd st) 0) as [Hz|Hnz].
    + inversion H; subst. rewrite to_long_small by lia. split; [lia|].
      intros Hn. exfalso. apply (Hno Hn _ _ _ _ Hz).
    + destruct (send _ _ _ _ _ _ _) as [[r2 st2]|]; [|discriminate].
      assert (Hsz : to_size (count - len) = count - len).
      { unfold to_size. apply Z.mod_small. lia. }
      rewrite Hsz in H.
      assert (Hr : 0 <= rnum_of E fd st).
      { unfold rnum_of, to_size. apply Z.mod_pos_bound. reflexivity. }
      set (n := if count - len <? rnum_of E fd st then count - len else rnum_of E fd st) in *.
      assert (Hn : 0 < n <= count - len).
      { subst n. destruct (Z.ltb_spec (count - len) (rnum_of E fd st)); lia. }
      assert (Hl : to_size (len + n) = len + n).
      { unfold to_size. apply Z.mod_small. lia. }
      rewrite Hl in H. apply IH in H; [|lia|lia]. split; [lia|tauto].
  - inversion H; subst. rewrite to_long_small by lia. split; [lia|auto].
Qed.

(** X6: for a count that fits [ssize_t], a paced [sendfile] hands back
    a count between 0 and [count], never an error; and unless a [read]
    reports the end of the file it hands back [count], whatever [read]
    and [::send] answered. *)
Theorem sendfile_paced_result (E : Env) (fuel : nat) (sock fd offset count : Z)
    (st : State) (r : Z) (st' : State) :
  rate_ (lim st) <> 0 ->
  0 <= count < 2 ^ 63 ->
  sendfile E fuel sock fd offset count st = Some (r, st') ->
  0 <= r <= count /\ (never_eof E -> r = count).
Proof.
  intros Hr Hc H. unfold sendfile, bind, get_lim in H.
  apply Z.eqb_neq in Hr. rewrite Hr in H.
  apply (sendfile_loop_result E (never_eof E) (fun x => x)) in H; lia || tauto.
Qed.

Lemma sendfile_paced_result_witness :
  exists r st', sendfile env_reset 40 3 4 0 2000 (start limiter) = Some (r, st')
                /\ 0 <= r <= 2000.
Proof.
  eexists. eexists. split; [vm_compute; reflexivity|].
  refine (proj1 (sendfile_paced_result env_reset 40 3 4 0 2000 (start limiter) _ _
                   ltac:(vm_compute; discriminate) ltac:(lia) _)).
  vm_compute. reflexivity.
Defined.

(** ** A burst size of zero *)

Lemma before_sendall_maxburst E total st :
  maxburst_ (lim (before_sendall E total st)) = maxburst_ (lim st)
  /\ rate_ (lim (before_sendall E total st)) = rate_ (lim st).
Proof.
  unfold before_sendall. cbv zeta. cbn [lim].
  destruct (send_critical_fields (env_clock E (trace st))
              (send_duration (chunk_size total (maxburst_ (lim st))) (rate_ (lim st)))
              (lim st)) as (_ & _ & _ & _ & F3 & F4).
  cbv zeta in F3, F4. auto.
Qed.

Lemma send_loop_zero_burst E s flags len total : 0 < total < 2 ^ 64 ->
  forall fuel ptr st,
    to_size (maxburst_ (lim st)) = 0 ->
    send_loop E fuel s ptr total flags len st = None.
Proof.
  intros Htot. induction fuel as [|fuel IH]; intros ptr st Hmb; [reflexivity|].
  rewrite send_loop_step. cbv zeta.
  assert (Hsize : chunk_size total (maxburst_ (lim st)) = 0).
  { unfold chunk_size. rewrite Hmb. destruct (Z.ltb_spec 0 total); [reflexivity|lia]. }
  rewrite Hsize. destruct (Z.ltb_spec 0 total); [|lia].
  destruct fuel as [|fuel']; [reflexivity|].
  unfold sendall. rewrite sendall_loop_step. cbn [Z.eqb].
  rewrite Z.sub_0_r. replace (to_size total) with total
    by (unfold to_size; rewrite Z.mod_small; lia).
  apply IH. unfold after_sendall, send_account. cbn [lim maxburst_ set_sendextra_].
  rewrite (proj1 (before_sendall_maxburst E total st)). exact Hmb.
Qed.

(** X7: with a maximum burst of 0 and a rate that is not 0, [send] of
    one byte or more never returns: every run of its loop, however long,
    is still in the loop. *)
Theorem send_zero_burst_never_returns (E : Env) (fuel : nat) (s buf len flags : Z)
    (st : State) :
  rate_ (lim st) <> 0 ->
  to_size (maxburst_ (lim st)) = 0 ->
  0 < len < 2 ^ 64 ->
  send E fuel s buf len flags st = None.
Proof.
  intros Hr Hmb Hlen. unfold send, bind, get_lim.
  apply Z.eqb_neq in Hr. rewrite Hr.
  apply send_loop_zero_burst; assumption.
Qed.

Lemma send_zero_burst_never_returns_witness :
  send env_accept 1000 3 100 1 0
    (start (mk_RateLimiter t0 t0 0%float 0%float 8000 0)) = None.
Proof.
  apply (send_zero_burst_never_returns env_accept 1000 3 100 1 0
           (start (mk_RateLimiter t0 t0 0%float 0%float 8000 0))).
  - vm_compute. discriminate.
  - reflexivity.
  - lia.
Defined.

Lemma nwritten_le E s ptr nleft flags st :
  send_bounded E -> 0 <= nleft -> 0 < nwritten_of E s ptr nleft flags st ->
  nwritten_of E s ptr nleft flags st <= nleft.
Proof.
  unfold nwritten_of. intros Hb Hn Hpos.
  destruct (env_send E (trace st) s ptr nleft flags) as [k|e] eqn:Ha; cbn [sys_value] in *.
  - apply Hb in Ha; [|assumption]. pose proof (to_int_le k ltac:(lia)). lia.
  - exfalso. revert Hpos. vm_compute. congruence.
Qed.

Lemma sendall_loop_in_buffer E s flags lo hi burst : send_bounded E ->
  forall fuel ptr nleft len st r st',
    0 <= nleft < 2 ^ 64 -> lo <= ptr -> ptr + nleft = hi -> nleft <= burst ->
    sendall_loop E fuel s ptr nleft flags len st = Some (r, st') ->
    exists tr', trace st' = tr' ++ trace st /\ Forall (in_buffer s flags lo hi burst) tr'.
Proof.
  intros Hb. induction fuel as [|fuel IH]; intros ptr nleft len st r st' Hn Hlo Hhi Hbu H;
    [discriminate|].
  rewrite sendall_loop_step in H. cbv zeta in H.
  destruct (Z.eqb_spec nleft 0) as [Hz|Hnz].
  { inversion H; subst. exists []. split; [reflexivity|constructor]. }
  assert (Hev : in_buffer s flags lo hi burst (EvSend s ptr nleft flags)).
  { cbn. lia. }
  assert (Hrec : forall p n,
             0 <= n < 2 ^ 64 -> lo <= p -> p + n = hi -> n <= burst ->
             sendall_loop E fuel s p n flags len (after_send E s ptr nleft flags st)
             = Some (r, st') ->
             exists tr', trace st' = tr' ++ trace st
                         /\ Forall (in_buffer s flags lo hi burst) tr').
  { intros p n H1 H2 H3 H4 Hr. apply IH in Hr; try assumption.
    destruct Hr as (tr' & Ht & Hf). cbn [trace after_send] in Ht.
    exists (tr' ++ [EvSend s ptr nleft flags]). rewrite <- app_assoc. split; [exact Ht|].
    apply Forall_app. split; [assumption|]. constructor; [assumption|constructor]. }
  assert (Hone : exists tr', trace (after_send E s ptr nleft flags st) = tr' ++ trace st
                             /\ Forall (in_buffer s flags lo hi burst) tr').
  { exists [EvSend s ptr nleft flags]. split; [reflexivity|].
    constructor; [assumption|constructor]. }
  destruct (Z.ltb_spec (nwritten_of E s ptr nleft flags st) 0) as [Hneg|Hpos].
  - destruct (_ =? EINTR).
    + apply (Hrec ptr nleft); assumption.
    + inversion H; subst. assumption.
  - destruct (Z.eqb_spec (nwritten_of E s ptr nleft flags st) 0) as [Hw|Hw].
    + inversion H; subst. assumption.
    + pose proof (nwritten_le E s ptr nleft flags st Hb ltac:(lia) ltac:(lia)) as Hle.
      assert (Hsz : to_size (nleft - nwritten_of E s ptr nleft flags st)
                    = nleft - nwritten_of E s ptr nleft flags st).
      { unfold to_size. apply Z.mod_small. lia. }
      rewrite Hsz in H. apply Hrec in H; try assumption; lia.
Qed.

Lemma in_buffer_weaken s flags lo hi burst lo' hi' burst' e :
  lo' <= lo -> hi <= hi' -> burst <= burst' ->
  in_buffer s flags lo hi burst e -> in_buffer s flags lo' hi' burst' e.
Proof. destruct e; cbn; intros; try tauto. lia. Qed.

Lemma send_loop_in_buffer E s flags buf len0 mb : send_bounded E ->
  forall fuel ptr total len st r st',
    0 <= total < 2 ^ 64 -> buf <= ptr -> ptr + total = buf + len0 ->
    to_size (maxburst_ (lim st)) = mb ->
    send_loop E fuel s ptr total flags len st = Some (r, st') ->
    exists tr', trace st' = tr' ++ trace st
                /\ Forall (in_buffer s flags buf (buf + len0) mb) tr'.
Proof.
  intros Hb. induction fuel as [|fuel IH]; intros ptr total len st r st' Ht Hlo Hhi Hmb H;
    [discriminate|].
  rewrite send_loop_step in H. cbv zeta in H.
  destruct (Z.ltb_spec 0 total) as [Hpos|Hle].
  - destruct (sendall _ _ _ _ _ _ _) as [[r1 st1]|] eqn:Hsa; [|discriminate].
    pose proof (chunk_size_le total (maxburst_ (lim st)) Hpos) as Hc.
    assert (Hct : chunk_size total (maxburst_ (lim st)) <= total).
    { unfold chunk_size. destruct (Z.ltb_spec (to_size (maxburst_ (lim st))) total); lia. }
    set (size := chunk_size total (maxburst_ (lim st))) in *.
    pose proof Hsa as Hlim. apply sendall_loop_lim in Hlim.
    unfold sendall in Hsa.
    apply (sendall_loop_in_buffer E s flags ptr (ptr + size) size Hb) in Hsa; try lia.
    destruct Hsa as (tr1 & Ht1 & Hf1).
    assert (Hsz : to_size (total - size) = total - size).
    { unfold to_size. apply Z.mod_small. lia. }
    rewrite Hsz in H. apply IH in H; try lia.
    + destruct H as (tr2 & Ht2 & Hf2).
      cbn [trace after_sendall] in Ht2. rewrite Ht1 in Ht2.
      unfold before_sendall in Ht2. cbv zeta in Ht2. cbn [trace] in Ht2.
      eexists (tr2 ++ [_; _; _] ++ tr1 ++ [_; _; _; _; _]). split.
      * rewrite Ht2, <- !app_assoc. cbn [app]. reflexivity.
      * repeat (apply Forall_app; split); try assumption.
        -- repeat constructor.
        -- eapply Forall_impl; [|exact Hf1].
           intros e. apply in_buffer_weaken; lia.
        -- repeat constructor.
    + unfold after_sendall, send_account. cbn [lim maxburst_ set_sendextra_].
      destruct Hlim as [Hlim _]. rewrite Hlim.
      rewrite (proj1 (before_sendall_maxburst E total st)). exact Hmb.
  - inversion H; subst. exists []. split; [reflexivity|constructor].
Qed.

(** X8: when [::send] reports at most what it was offered, every call
    of [::send] that a paced [send] makes is on the caller's socket with
    the caller's flags, for one byte at least and one burst at most, and
    stays inside the caller's buffer; the transport is used in no other
    way. *)
Theorem send_calls_within_buffer (E : Env) (fuel : nat) (s buf len flags : Z)
    (st : State) (r : Z) (st' : State) :
  rate_ (lim st) <> 0 ->
  send_bounded E ->
  0 <= len < 2 ^ 64 ->
  send E fuel s buf len flags st = Some (r, st') ->
  exists tr', trace st' = tr' ++ trace st
              /\ Forall (in_buffer s flags buf (buf + len)
                           (to_size (maxburst_ (lim st)))) tr'.
Proof.
  intros Hr Hb Hlen H. unfold send, bind, get_lim in H.
  apply Z.eqb_neq in Hr. rewrite Hr in H.
  apply (send_loop_in_buffer E s flags buf len (to_size (maxburst_ (lim st))) Hb) in H;
    try assumption; try reflexivity; lia.
Qed.

Lemma env_accept_send_bounded : send_bounded env_accept.
Proof. intros tr s ptr n flags k Hn H. cbn in H. inversion H; subst. lia. Qed.

Lemma send_calls_within_buffer_witness :
  exists r st', send env_accept 10 3 100 1000 0 (start limiter) = Some (r, st')
                /\ exists tr', trace st' = tr' ++ []
                               /\ Forall (in_buffer 3 0 100 1100 500) tr'.
Proof.
  eexists. eexists. split; [vm_compute; reflexivity|].
  refine (send_calls_within_buffer env_accept 10 3 100 1000 0 (start limiter) _ _
            ltac:(vm_compute; discriminate) env_accept_send_bounded ltac:(lia) _).
  vm_compute. reflexivity.
Defined.

Lemma sendall_loop_completes E s flags len : send_progress E ->
  forall fuel ptr nleft st,
    0 <= nleft <= INT_MAX -> nleft < Z.of_nat fuel ->
    exists st', sendall_loop E fuel s ptr nleft flags len st = Some (len, st')
                /\ errno st' = errno st.
Proof.
  intros Hp. induction fuel as [|fuel IH]; intros ptr nleft st Hn Hf; [lia|].
  rewrite sendall_loop_step. cbv zeta.
  destruct (Z.eqb_spec nleft 0) as [Hz|Hnz]; [eauto|].
  destruct (Hp (trace st) s ptr nleft flags ltac:(lia)) as (k & Hk & Hrange).
  unfold nwritten_of, after_send. rewrite Hk. cbn [sys_value sys_errno].
  assert (Hi : to_int k = k).
  { unfold to_int, wrap_signed, INT_MAX in *. change (2 ^ (32 - 1)) with (2 ^ 31).
    rewrite Z.mod_small; lia. }
  rewrite Hi. destruct (Z.ltb_spec k 0); [lia|]. destruct (Z.eqb_spec k 0); [lia|].
  assert (Hsz : to_size (nleft - k) = nleft - k).
  { unfold to_size, INT_MAX in *. apply Z.mod_small. lia. }
  rewrite Hsz.
  destruct (IH (ptr + k) (nleft - k)
              (mk_State (lim st) (errno st) (EvSend s ptr nleft flags :: trace st))
              ltac:(lia) ltac:(lia)) as (st' & Hst & He).
  exists st'. split; assumption.
Qed.

Lemma send_loop_completes E s flags len mb : send_progress E -> 0 < mb <= INT_MAX ->
  forall fuel ptr total st,
    0 <= total < 2 ^ 64 -> total + 1 < Z.of_nat fuel ->
    to_size (maxburst_ (lim st)) = mb ->
    exists st', send_loop E fuel s ptr total flags len st = Some (len, st')
                /\ errno st' = errno st.
Proof.
  intros Hp Hmbr. induction fuel as [|fuel IH]; intros ptr total st Ht Hf Hmb; [lia|].
  rewrite send_loop_step. cbv zeta.
  destruct (Z.ltb_spec 0 total) as [Hpos|Hle]; [|eauto].
  assert (Hc : 0 < chunk_size total (maxburst_ (lim st)) <= total
               /\ chunk_size total (maxburst_ (lim st)) <= mb).
  { unfold chunk_size. rewrite Hmb. destruct (Z.ltb_spec mb total); lia. }
  set (size := chunk_size total (maxburst_ (lim st))) in *.
  destruct (sendall_loop_completes E s flags size Hp fuel ptr size
              (before_sendall E total st) ltac:(lia) ltac:(lia)) as (st1 & Hsa & He1).
  unfold sendall. rewrite Hsa.
  assert (Hsz : to_size (total - size) = total - size).
  { unfold to_size. apply Z.mod_small. lia. }
  rewrite Hsz.
  destruct (IH (ptr + size) (total - size) (after_sendall E (chunk_t1 E total st) st1)
              ltac:(lia) ltac:(lia)) as (st' & Hst & He).
  - unfold after_sendall, send_account. cbn [lim maxburst_ set_sendextra_].
    apply sendall_loop_lim in Hsa. destruct Hsa as [Hlim _]. rewrite Hlim.
    rewrite (proj1 (before_sendall_maxburst E total st)). exact Hmb.
  - exists st'. split; [assumption|]. rewrite He. cbn [errno after_sendall].
    rewrite He1. reflexivity.
Qed.

(** X9: when [::send] takes one byte at least of what it is offered and
    the maximum burst is positive, a paced [send] returns: a loop of
    [len + 2] turns is enough, and it returns [len]. *)
Theorem send_completes (E : Env) (fuel : nat) (s buf len flags : Z) (st : State) :
  rate_ (lim st) <> 0 ->
  send_progress E ->
  0 < maxburst_ (lim st) <= INT_MAX ->
  0 <= len < 2 ^ 64 ->
  len + 1 < Z.of_nat fuel ->
  exists st', send E fuel s buf len flags st = Some (len, st').
Proof.
  intros Hr Hp Hmb Hlen Hf. unfold send, bind, get_lim.
  apply Z.eqb_neq in Hr. rewrite Hr.
  destruct (send_loop_completes E s flags len (maxburst_ (lim st)) Hp Hmb
              fuel buf len st Hlen Hf) as (st' & H & _).
  - unfold to_size, INT_MAX in *. apply Z.mod_small. lia.
  - exists st'. exact H.
Qed.

Lemma env_slow_send_progress : send_progress env_slow.
Proof. intros tr s ptr n flags Hn. exists (Z.min n 300). cbn. split; [reflexivity|lia]. Qed.

Lemma send_completes_witness :
  exists st', send env_slow 1002 3 100 1000 0 (start limiter) = Some (1000, st').
Proof.
  apply (send_completes env_slow 1002 3 100 1000 0 (start limiter)).
  - vm_compute. discriminate.
  - exact env_slow_send_progress.
  - vm_compute. split; [reflexivity|discriminate].
  - lia.
  - vm_compute. reflexivity.
Defined.

(** ** What [recv] hands back *)

(** X10: at a rate that is not 0 and with a maximum burst that fits
    [int], [recv] reads the clock and calls [::recv] once, for the
    smaller of [len] and the maximum burst.  When [::recv] hands back a
    positive count, [recv] returns that count, books the reservation of
    its critical section for the ideal duration of that count, and
    sleeps once, last of all.  When [::recv] hands back 0, [recv]
    returns 0; when it fails, [recv] returns [(size_t) -1] with [errno]
    as [::recv] set it; in both cases the limiter is as it was and
    nothing follows the call. *)
Theorem recv_paced_result (E : Env) (s buf len flags : Z)
    (st : State) (r : Z) (st' : State) :
  rate_ (lim st) <> 0 ->
  recv_bounded E ->
  0 <= maxburst_ (lim st) <= INT_MAX ->
  0 <= len ->
  recv E s buf len flags st = Some (r, st') ->
  let size := Z.min len (maxburst_ (lim st)) in
  let a := env_recv E (EvClock :: trace st) s buf size flags in
  let tr2 := EvRecv s buf size flags :: EvClock :: trace st in
  (exists n,
      a = SysOk n /\ 0 < n <= size /\ r = n
      /\ let cr := recv_critical (env_clock E (trace st)) (env_clock E tr2)
                     (env_clock E (EvClock :: tr2))
                     (recv_duration n (rate_ (lim st))) (lim st) in
         lim st' = fst cr
         /\ trace st' = EvSleep (time_add (snd (snd cr)) (fst (snd cr)))
                          :: EvUnlock :: EvLock :: EvClock :: EvClock :: tr2)
  \/ ((a = SysOk 0 /\ r = 0 \/ exists e, a = SysErr e /\ r = to_size (-1) /\ errno st' = e)
      /\ lim st' = lim st /\ trace st' = tr2).
Proof.
  intros Hr Hb Hmb Hlen H size a tr2.
  rewrite (recv_paced E s buf len flags st Hr) in H.
  unfold recv_paced_run in H. cbv zeta in H.
  assert (Hsize : chunk_size len (maxburst_ (lim st)) = size).
  { unfold chunk_size, size.
    replace (to_size (maxburst_ (lim st))) with (maxburst_ (lim st))
      by (unfold to_size, INT_MAX in *; rewrite Z.mod_small; lia).
    destruct (Z.ltb_spec (maxburst_ (lim st)) len); lia. }
  rewrite Hsize in H. fold a in H. fold tr2 in H.
  destruct a as [n|e] eqn:Ha; cbn [sys_value sys_errno] in H.
  - pose proof (Hb _ _ _ _ _ _ Ha) as Hn.
    assert (Hi : to_int n = n).
    { unfold to_int, wrap_signed, INT_MAX, size in *. change (2 ^ (32 - 1)) with (2 ^ 31).
      rewrite Z.mod_small; lia. }
    rewrite Hi in H.
    assert (Hs : to_size n = n).
    { unfold to_size, INT_MAX, size in *. apply Z.mod_small. lia. }
    rewrite Hs in H.
    destruct (Z.leb_spec n 0); inversion H; subst r st'.
    + right. cbn [lim trace]. assert (n = 0) by lia. subst n. auto.
    + left. exists n. cbn [lim trace]. repeat split; try lia.
  - change (to_int (-1) <=? 0) with true in H. cbv iota in H.
    inversion H; subst r st'. right. cbn [lim trace errno]. repeat split.
    right. exists e. auto.
Qed.

Lemma recv_paced_result_witness :
  exists r st', recv env_accept 3 100 1000 0 (start limiter) = Some (r, st')
                /\ (0 < r <= 500 \/ r = 0 \/ r = to_size (-1)).
Proof.
  eexists. eexists. split; [vm_compute; reflexivity|].
  destruct (recv_paced_result env_accept 3 100 1000 0 (start limiter) _ _
              ltac:(vm_compute; discriminate) env_accept_recv_bounded
              ltac:(vm_compute; split; discriminate) ltac:(lia)
              ltac:(vm_compute; reflexivity))
    as [(n & _ & Hn & Hr & _)|([(_ & H)|(e & _ & H & _)] & _)].
  - left. rewrite <- Hr in Hn. exact Hn.
  - right. left. exact H.
  - right. right. exact H.
Defined.

(** ** The sleep ends where the slot ends *)

Lemma time_set_id t : time_set t = t.
Proof. destruct t; reflexivity. Qed.

Lemma reserve_sleep slot now d :
  clock_range slot -> clock_range now ->
  SFfin_nonneg (Prim2SF d) -> (SFval (Prim2SF d) < 2147483648)%R ->
  ts_ns now + ts_ns (time_add (snd (reserve slot now d)) d)
  = ts_ns (fst (reserve slot now d)).
Proof.
  intros Hslot Hnow Hfin Hlt. unfold reserve.
  pose proof (clock_range_ts_ok _ Hslot) as Hs. pose proof (clock_range_ts_ok _ Hnow) as Hn.
  destruct (time_less slot now) eqn:Hless; cbn [fst snd].
  - rewrite time_set_id.
    assert (Hz : ts_ok (mk_timespec 0 0)) by (unfold ts_ok, nmax; cbn; lia).
    destruct (time_add_spec _ d Hz Hfin Hlt) as (-> & _).
    destruct (time_add_spec now d Hn Hfin Hlt) as (-> & _).
    unfold ts_ns at 2. cbn [tv_sec tv_nsec]. lia.
  - destruct (time_diff_spec slot now Hs Hn Hless) as (Hd & Hnorm & Hsec).
    assert (Hm : ts_ok (time_diff slot now)).
    { split; [|exact Hnorm]. destruct Hslot as [Hss Hsn], Hnow as [Hns Hnn].
      unfold ts_ns, normalized, nmax in *. split; [lia|nia]. }
    destruct (time_add_spec _ d Hm Hfin Hlt) as (-> & _).
    destruct (time_add_spec slot d Hs Hfin Hlt) as (-> & _).
    lia.
Qed.

(** X11: in the critical section of [send], and in that of [recv], the
    time for which the caller is then put to sleep, counted from the
    reading [now] of the clock, ends exactly at the next-eligible time
    that the section has just stored. *)
Theorem sleep_ends_at_slot (now t1 t2 : timespec) (d : double) (L : RateLimiter) :
  clock_range now -> clock_range (send_ L) -> clock_range (recv_ L) ->
  not_negative (sendextra_ L) -> not_negative (recvextra_ L) ->
  clock_range t1 -> clock_range t2 -> time_less t2 t1 = false ->
  below_2p31 d ->
  (let cr := send_critical now d L in
   ts_ns now + ts_ns (time_add (snd (snd cr)) (fst (snd cr))) = ts_ns (send_ (fst cr)))
  /\ (let cr := recv_critical t1 t2 now d L in
      ts_ns now + ts_ns (time_add (snd (snd cr)) (fst (snd cr))) = ts_ns (recv_ (fst cr))).
Proof.
  intros Hnow Hs Hr Hse Hre Ht1 Ht2 Hord Hd. split; cbv zeta.
  - unfold send_critical.
    destruct (draw_down_duration d (sendextra_ L) Hse Hd) as [Hfin Hlt].
    destruct (draw_down d (sendextra_ L)) as [d' c']. cbn [fst] in Hfin, Hlt.
    pose proof (reserve_sleep (send_ L) now d' Hs Hnow Hfin Hlt) as H.
    destruct (reserve (send_ L) now d') as [slot mine]. cbn [fst snd] in *. exact H.
  - unfold recv_critical.
    assert (Hc : not_negative (recvextra_ L + time_diff2 t2 t1)%float).
    { apply nonneg_add; [assumption|].
      apply time_diff2_nonneg; auto using clock_range_ts_ok. }
    destruct (draw_down_duration d _ Hc Hd) as [Hfin Hlt].
    destruct (draw_down d _) as [d' c']. cbn [fst] in Hfin, Hlt.
    pose proof (reserve_sleep (recv_ L) now d' Hr Hnow Hfin Hlt) as H.
    destruct (reserve (recv_ L) now d') as [slot mine]. cbn [fst snd] in *. exact H.
Qed.

Lemma sleep_ends_at_slot_witness :
  let cr := send_critical (mk_timespec 1000 500) 0.75%float limiter in
  ts_ns (mk_timespec 1000 500) + ts_ns (time_add (snd (snd cr)) (fst (snd cr)))
  = ts_ns (send_ (fst cr)).
Proof.
  refine (proj1 (sleep_ends_at_slot (mk_timespec 1000 500) t0 t0 0.75%float limiter
                   _ _ _ eq_refl eq_refl _ _ eq_refl eq_refl));
    unfold clock_range, normalized, nmax; cbn; lia.
Defined.

(** ** Adding a duration and taking the difference *)

(** X12: for a duration [d] with [0 <= d < 2^31], the difference between
    a timestamp with [d] added and the timestamp itself is the whole
    seconds of [d] and the nanoseconds that [time_add] made of its
    fractional part, as a normalized timestamp. *)
Theorem time_diff_after_time_add (t : timespec) (d : double) :
  clock_range t -> not_negative d -> below_2p31 d ->
  time_less (time_add t d) t = false
  /\ normalized (time_diff (time_add t d) t)
  /\ ts_ns (time_diff (time_add t d) t) = trunc_Z d * nmax + add_nsec d.
Proof.
  intros Ht Hd Hb.
  destruct (below_2p31_spec d Hd Hb) as [Hfin Hlt].
  pose proof (clock_range_ts_ok _ Ht) as Hok.
  destruct (time_add_spec t d Hok Hfin Hlt) as (Hns & Hnorm & Hsec).
  destruct (add_sec_nsec_bounds d Hfin Hlt) as (Hs & HS & HN).
  assert (Hless : time_less (time_add t d) t = false).
  { apply time_less_false; [exact Hnorm|apply Ht|]. unfold nmax in *. nia. }
  assert (Hok' : ts_ok (time_add t d)).
  { split; [|exact Hnorm]. destruct Ht as [Hr _]. lia. }
  destruct (time_diff_spec _ _ Hok' Hok Hless) as (H1 & H2 & _).
  repeat split; try assumption; try apply H2. rewrite H1, Hns, Hs. ring.
Qed.

Lemma time_diff_after_time_add_witness :
  ts_ns (time_diff (time_add t0 2.75%float) t0) = trunc_Z 2.75%float * nmax + add_nsec 2.75%float.
Proof.
  refine (proj2 (proj2 (time_diff_after_time_add t0 2.75%float _ eq_refl eq_refl))).
  unfold clock_range, normalized, nmax; cbn; lia.
Defined.

(** ** Constructors and accessors *)

(** X13: constructing a limiter with a rate is constructing the default
    limiter and then setting the rate: from the same storage the two
    leave the same object, having read the clock alike. *)
Theorem ctor1_is_ctor0_then_set_rate (E : Env) (r : Z) (st : State) :
  RateLimiter_ctor1 E r st = (RateLimiter_ctor0 E ;;; set_rate r)%io st.
Proof.
  unfold RateLimiter_ctor1, RateLimiter_ctor0, set_rate, bind, modify_lim,
    clock_gettime, log.
  cbn. rewrite (Z.mul_comm r 1000). reflexivity.
Qed.

(** X14: [get_rate] after [set_rate r] hands back [1000 * r] when that
    fits [int]; setting the rate changes nothing else. *)
Theorem set_rate_get_rate (r : Z) (st : State) :
  INT_MIN <= 1000 * r <= INT_MAX ->
  (set_rate r ;;; get_rate)%io st
  = Some (1000 * r, mk_State (set_rate_ (1000 * r) (lim st)) (errno st) (trace st)).
Proof.
  intros Hr.
  assert (Hi : to_int (1000 * r) = 1000 * r).
  { unfold to_int, wrap_signed, INT_MIN, INT_MAX in *. change (2 ^ (32 - 1)) with (2 ^ 31).
    rewrite Z.mod_small; lia. }
  unfold set_rate, get_rate, bind, modify_lim, get_lim, ret. rewrite Hi. reflexivity.
Qed.

Lemma set_rate_get_rate_witness :
  (set_rate 8 ;;; get_rate)%io (start unlimited)
  = Some (8000, mk_State (set_rate_ 8000 unlimited) 0 []).
Proof.
  apply (set_rate_get_rate 8 (start unlimited)). unfold INT_MIN, INT_MAX. lia.
Defined.

(** ** [sendfile] as a whole *)

Lemma sendfile_loop_completes E sock fd count mb :
  send_progress E -> 0 < mb <= INT_MAX -> count < 2 ^ 63 ->
  forall fuel len st,
    0 <= len <= count -> rate_ (lim st) <> 0 -> maxburst_ (lim st) = mb ->
    count - len + 2 < Z.of_nat fuel ->
    exists r st', sendfile_loop E fuel sock fd count len st = Some (r, st').
Proof.
  intros Hp Hmb Hc. induction fuel as [|fuel IH]; intros len st Hlen Hr Hm Hf; [lia|].
  rewrite sendfile_loop_step. cbv zeta.
  destruct (Z.ltb_spec len count) as [Hlt|Hge]; [|eauto].
  destruct (Z.eqb_spec (rnum_of E fd st) 0) as [Hz|Hnz]; [eauto|].
  assert (Hsz : to_size (count - len) = count - len).
  { unfold to_size. apply Z.mod_small. lia. }
  rewrite Hsz.
  assert (Hrn : 0 <= rnum_of E fd st).
  { unfold rnum_of, to_size. apply Z.mod_pos_bound. reflexivity. }
  set (n := if count - len <? rnum_of E fd st then count - len else rnum_of E fd st) in *.
  assert (Hn : 0 < n <= count - len).
  { subst n. destruct (Z.ltb_spec (count - len) (rnum_of E fd st)); lia. }
  assert (Hto : to_size mb = mb).
  { unfold to_size, INT_MAX in *. apply Z.mod_small. lia. }
  destruct (send_loop_completes E sock 0 n mb Hp Hmb fuel (env_stackbuf E) n
              (after_read E fd st) ltac:(lia) ltac:(lia)) as (st2 & Hs & _).
  { cbn [lim after_read]. rewrite Hm. exact Hto. }
  assert (Hsend : send E fuel sock (env_stackbuf E) n 0 (after_read E fd st) = Some (n, st2)).
  { unfold send, bind, get_lim. cbn [lim after_read].
    apply Z.eqb_neq in Hr. rewrite Hr. exact Hs. }
  rewrite Hsend.
  destruct (send_keeps_fields _ _ _ _ _ _ _ _ _ Hsend) as (_ & _ & F3 & F4).
  cbn [lim after_read] in F3, F4.
  assert (Hl : to_size (len + n) = len + n).
  { unfold to_size. apply Z.mod_small. lia. }
  rewrite Hl. apply IH; try lia; congruence.
Qed.

(** X15: when [::send] takes one byte at least of what it is offered and
    the maximum burst is positive, a paced [sendfile] of a count that
    fits [ssize_t] returns, whatever [read] answers: a loop of
    [count + 3] turns is enough, and the count it hands back is between
    0 and [count]. *)
Theorem sendfile_completes (E : Env) (fuel : nat) (sock fd offset count : Z) (st : State) :
  rate_ (lim st) <> 0 ->
  send_progress E ->
  0 < maxburst_ (lim st) <= INT_MAX ->
  0 <= count < 2 ^ 63 ->
  count + 2 < Z.of_nat fuel ->
  exists r st', sendfile E fuel sock fd offset count st = Some (r, st')
                /\ 0 <= r <= count.
Proof.
  intros Hr Hp Hmb Hc Hf. unfold sendfile, bind, get_lim.
  pose proof Hr as Hr'. apply Z.eqb_neq in Hr'. rewrite Hr'.
  destruct (sendfile_loop_completes E sock fd count (maxburst_ (lim st)) Hp Hmb
              ltac:(lia) fuel 0 st ltac:(lia) Hr eq_refl ltac:(lia)) as (r & st' & H).
  exists r, st'. split; [exact H|].
  apply (sendfile_loop_result E False (fun x => match x with end)) in H; lia.
Qed.

Lemma sendfile_completes_witness :
  exists r st', sendfile env_slow 2003 3 4 0 2000 (start limiter) = Some (r, st')
                /\ 0 <= r <= 2000.
Proof.
  apply (sendfile_completes env_slow 2003 3 4 0 2000 (start limiter)).
  - vm_compute. discriminate.
  - exact env_slow_send_progress.
  - vm_compute. split; [reflexivity|discriminate].
  - lia.
  - vm_compute. reflexivity.
Defined.

Lemma in_buffer_in_block sock fd lo n burst e :
  n <= 1024 -> in_buffer sock 0 lo (lo + n) burst e -> in_block sock fd lo e.
Proof. destruct e; cbn; intros; try tauto. lia. Qed.

Lemma sendfile_loop_in_block E sock fd count :
  send_bounded E -> read_succeeds E -> count < 2 ^ 63 ->
  forall fuel len st r st',
    0 <= len <= count -> rate_ (lim st) <> 0 ->
    sendfile_loop E fuel sock fd count len st = Some (r, st') ->
    exists tr', trace st' = tr' ++ trace st
                /\ Forall (in_block sock fd (env_stackbuf E)) tr'.
Proof.
  intros Hb Hrd Hc. induction fuel as [|fuel IH]; intros len st r st' Hlen Hr H;
    [discriminate|].
  rewrite sendfile_loop_step in H. cbv zeta in H.
  assert (Hone : exists tr', trace (after_read E fd st) = tr' ++ trace st
                             /\ Forall (in_block sock fd (env_stackbuf E)) tr').
  { exists [EvRead fd (env_stackbuf E) 1024]. split; [reflexivity|].
    constructor; [cbn; auto|constructor]. }
  destruct (Z.ltb_spec len count) as [Hlt|Hge].
  - destruct (Z.eqb_spec (rnum_of E fd st) 0) as [Hz|Hnz].
    { inversion H; subst. assumption. }
    destruct (send _ _ _ _ _ _ _) as [[r2 st2]|] eqn:Hs; [|discriminate].
    assert (Hsz : to_size (count - len) = count - len).
    { unfold to_size. apply Z.mod_small. lia. }
    rewrite Hsz in H, Hs.
    assert (Hrn : 0 <= rnum_of E fd st <= 1024).
    { unfold rnum_of.
      destruct (Hrd (trace st) fd (env_stackbuf E) 1024 ltac:(lia)) as (k & -> & Hk).
      cbn [sys_value]. unfold to_size. rewrite Z.mod_small; lia. }
    set (n := if count - len <? rnum_of E fd st then count - len else rnum_of E fd st) in *.
    assert (Hn : 0 < n <= count - len /\ n <= 1024).
    { subst n. destruct (Z.ltb_spec (count - len) (rnum_of E fd st)); lia. }
    assert (Hl : to_size (len + n) = len + n).
    { unfold to_size. apply Z.mod_small. lia. }
    rewrite Hl in H.
    destruct (send_keeps_fields _ _ _ _ _ _ _ _ _ Hs) as (_ & _ & F3 & _).
    cbn [lim after_read] in F3.
    apply IH in H; [|lia|congruence].
    destruct H as (tr2 & Ht2 & Hf2).
    unfold send, bind, get_lim in Hs. cbn [lim after_read] in Hs.
    pose proof Hr as Hr'. apply Z.eqb_neq in Hr'. rewrite Hr' in Hs.
    apply (send_loop_in_buffer E sock 0 (env_stackbuf E) n
             (to_size (maxburst_ (lim st))) Hb) in Hs; try lia; try reflexivity.
    destruct Hs as (tr1 & Ht1 & Hf1). cbn [trace after_read] in Ht1.
    exists (tr2 ++ tr1 ++ [EvRead fd (env_stackbuf E) 1024]). split.
    + rewrite Ht2, Ht1, <- !app_assoc. reflexivity.
    + repeat (apply Forall_app; split); try assumption.
      * eapply Forall_impl; [|exact Hf1]. intros e. apply in_buffer_in_block. lia.
      * constructor; [cbn; auto|constructor].
  - inversion H; subst. exists []. split; [reflexivity|constructor].
Qed.

(** X16: when every [read] succeeds and [::send] reports at most what
    it was offered, a paced [sendfile] reads the file in blocks of 1024
    bytes into its local buffer and sends from that buffer only: every
    call of [::send] stays inside the 1024 bytes of the block, and
    [::sendfile] is never called. *)
Theorem sendfile_sends_from_block (E : Env) (fuel : nat) (sock fd offset count : Z)
    (st : State) (r : Z) (st' : State) :
  rate_ (lim st) <> 0 ->
  send_bounded E ->
  read_succeeds E ->
  0 <= count < 2 ^ 63 ->
  sendfile E fuel sock fd offset count st = Some (r, st') ->
  exists tr', trace st' = tr' ++ trace st
              /\ Forall (in_block sock fd (env_stackbuf E)) tr'.
Proof.
  intros Hr Hb Hrd Hc H. unfold sendfile, bind, get_lim in H.
  pose proof Hr as Hr'. apply Z.eqb_neq in Hr'. rewrite Hr' in H.
  apply (sendfile_loop_in_block E sock fd count Hb Hrd ltac:(lia)) in H;
    [assumption|lia|assumption].
Qed.

Lemma env_accept_read_succeeds : read_succeeds env_accept.
Proof. intros tr fd buf count Hc. exists count. cbn. split; [reflexivity|lia]. Qed.

Lemma sendfile_sends_from_block_witness :
  exists r st', sendfile env_accept 40 3 4 0 2000 (start limiter) = Some (r, st')
                /\ exists tr', trace st' = tr' ++ []
                               /\ Forall (in_block 3 4 7000) tr'.
Proof.
  eexists. eexists. split; [vm_compute; reflexivity|].
  refine (sendfile_sends_from_block env_accept 40 3 4 0 2000 (start limiter) _ _
            ltac:(vm_compute; discriminate) env_accept_send_bounded
            env_accept_read_succeeds ltac:(lia) _).
  vm_compute. reflexivity.
Defined.

Lemma reserve_sleep_valid slot now d :
  ts_ok slot -> clock_range now ->
  SFfin_nonneg (Prim2SF d) -> (SFval (Prim2SF d) < 2147483648)%R ->
  sleep_valid (EvSleep (time_add (snd (reserve slot now d)) d)).
Proof.
  intros Hs Hnow Hfin Hlt. unfold reserve, sleep_valid.
  pose proof (clock_range_ts_ok _ Hnow) as Hn.
  destruct (time_less slot now) eqn:Hless; cbn [fst snd].
  - assert (Hz : ts_ok (mk_timespec 0 0)) by (unfold ts_ok, nmax; cbn; lia).
    destruct (time_add_spec _ d Hz Hfin Hlt) as (_ & Hnorm & Hsec).
    cbn [tv_sec] in Hsec. split; [lia|exact Hnorm].
  - destruct (time_diff_spec slot now Hs Hn Hless) as (Hd & Hnorm & Hsec).
    assert (Hm : ts_ok (time_diff slot now)).
    { split; [|exact Hnorm]. destruct Hs as [Hss Hsn], Hnow as [Hns Hnn].
      unfold ts_ns, normalized, nmax in *. split; [lia|nia]. }
    destruct (time_add_spec _ d Hm Hfin Hlt) as (_ & Hnorm' & Hsec').
    split; [lia|exact Hnorm'].
Qed.

Lemma slot_ok_ts_ok n t : 0 <= n -> slot_ok n t -> ts_ok t.
Proof. intros Hn (H1 & H2 & H3). split; [lia|exact H1]. Qed.

Lemma is_send_sleep_valid tr : forallb is_send tr = true -> Forall sleep_valid tr.
Proof.
  induction tr as [|e tr IH]; cbn [forallb]; intros H; constructor.
  - apply andb_true_iff in H. destruct e; cbn in *; try exact I. destruct H; discriminate.
  - apply IH. apply andb_true_iff in H. tauto.
Qed.

Lemma send_loop_sleeps E : clock_ok E ->
  forall fuel s ptr total flags len st r st',
    2 ^ 32 * Z.of_nat fuel <= 2 ^ 59 ->
    not_negative (sendextra_ (lim st)) -> durations_fit (lim st) ->
    slot_ok (Z.of_nat fuel) (send_ (lim st)) ->
    send_loop E fuel s ptr total flags len st = Some (r, st') ->
    exists tr', trace st' = tr' ++ trace st /\ Forall sleep_valid tr'.
Proof.
  intros Hclock. pose proof Hclock as [Hrange Hmono].
  induction fuel as [|fuel IH]; intros s ptr total flags len st r st' Hf Hc Hfit Hslot H;
    [discriminate|].
  rewrite send_loop_step in H. cbv zeta in H.
  destruct (Z.ltb_spec 0 total) as [Hpos|Hle].
  - destruct (sendall _ _ _ _ _ _ _) as [[r1 st1]|] eqn:Hsa; [|discriminate].
    apply sendall_loop_result in Hsa. destruct Hsa as (Hlim & _ & tr1 & Ht1 & Hs1).
    rewrite Nat2Z.inj_succ in Hf, Hslot.
    set (now := env_clock E (trace st)) in *.
    set (L := lim st) in *.
    set (d := send_duration (chunk_size total (maxburst_ L)) (rate_ L)) in *.
    assert (Hd : below_2p31 d).
    { apply (proj1 Hfit). apply chunk_size_le. assumption. }
    destruct (draw_down_duration d (sendextra_ L) Hc Hd) as [Hfin Hlt]. cbv zeta in Hfin, Hlt.
    assert (Hsleep : sleep_valid
              (EvSleep (time_add (snd (snd (send_critical now d L)))
                                 (fst (snd (send_critical now d L)))))).
    { unfold send_critical. destruct (draw_down d (sendextra_ L)) as [d' c'].
      cbn [fst] in Hfin, Hlt.
      pose proof (reserve_sleep_valid (send_ L) now d'
                    (slot_ok_ts_ok (Z.succ (Z.of_nat fuel)) _ ltac:(lia) Hslot) (Hrange _) Hfin Hlt) as Hv.
      destruct (reserve (send_ L) now d') as [slot mine]. cbn [fst snd] in *. exact Hv. }
    assert (Hbefore : trace (before_sendall E total st)
                      = [EvClock;
                         EvSleep (time_add (snd (snd (send_critical now d L)))
                                           (fst (snd (send_critical now d L))));
                         EvUnlock; EvLock; EvClock] ++ trace st) by reflexivity.
    assert (Hchunk : lim (after_sendall E (chunk_t1 E total st) st1)
                     = send_chunk now (chunk_t1 E total st) (env_clock E (trace st1))
                         total L).
    { unfold after_sendall, send_chunk. cbn [lim]. rewrite Hlim. reflexivity. }
    assert (Hord : time_less (env_clock E (trace st1)) (chunk_t1 E total st) = false).
    { unfold chunk_t1. rewrite Ht1, Hbefore. cbn [app tl].
      change (tr1 ++ EvClock :: ?x) with (tr1 ++ [EvClock] ++ x).
      rewrite app_assoc. apply Hmono. }
    destruct (send_chunk_schedule now (chunk_t1 E total st) (env_clock E (trace st1))
                total L (Z.of_nat fuel))
      as (Hc' & Hfit' & Hslot' & _); try assumption; try lia; try apply Hrange.
    cbv zeta in Hc', Hfit', Hslot'. rewrite <- Hchunk in Hc', Hfit', Hslot'.
    apply IH in H; try assumption; try lia.
    destruct H as (tr2 & Ht2 & Hf2). cbn [trace after_sendall] in Ht2.
    rewrite Ht1, Hbefore in Ht2.
    eexists (tr2 ++ [_; _; _] ++ tr1 ++ [_; _; _; _; _]). split.
    + rewrite Ht2, <- !app_assoc. cbn [app]. reflexivity.
    + repeat (apply Forall_app; split); try assumption.
      * repeat constructor.
      * apply is_send_sleep_valid. assumption.
      * repeat (apply Forall_cons || apply Forall_nil); try exact I. exact Hsleep.
  - inversion H; subst. exists []. split; [reflexivity|constructor].
Qed.

(** X18: every request to sleep that [send] or [recv] makes is one that
    [nanosleep] accepts: its seconds are not negative and its
    nanoseconds are between 0 and 999999999.  The hypotheses are those
    under which the schedule never moves back. *)
Theorem sleeps_are_valid (E : Env) (fuel : nat) (s buf len flags : Z) (st : State) :
  clock_ok E -> recv_bounded E -> 2 ^ 32 * Z.of_nat fuel <= 2 ^ 59 ->
  credits_nonneg (lim st) -> durations_fit (lim st) ->
  slot_ok (Z.of_nat fuel) (send_ (lim st)) -> slot_ok 1 (recv_ (lim st)) ->
  (forall r st', send E fuel s buf len flags st = Some (r, st') ->
                 exists tr', trace st' = tr' ++ trace st /\ Forall sleep_valid tr')
  /\ (forall r st', recv E s buf len flags st = Some (r, st') ->
                    exists tr', trace st' = tr' ++ trace st /\ Forall sleep_valid tr').
Proof.
  intros Hclock Hrb Hfuel [Hcs Hcr] Hfit Hsend Hrecv. split; intros r st' H.
  - unfold send, bind, get_lim in H.
    destruct (Z.eqb_spec (rate_ (lim st)) 0) as [Hz|Hnz].
    + unfold sys_send in H. rewrite syscall_eq in H. inversion H; subst. cbn [trace].
      exists [EvSend s buf len flags]. split; [reflexivity|repeat constructor].
    + apply (send_loop_sleeps E Hclock) in H; assumption.
  - destruct Hclock as [Hrange Hmono].
    destruct (Z.eq_dec (rate_ (lim st)) 0) as [Hz|Hnz].
    + unfold recv, bind, get_lim, sys_recv in H.
      rewrite Hz in H. cbn [Z.eqb] in H. rewrite syscall_eq in H.
      inversion H; subst. cbn [trace].
      exists [EvRecv s buf len flags]. split; [reflexivity|repeat constructor].
    + rewrite (recv_paced E s buf len flags st Hnz) in H.
      unfold recv_paced_run in H. cbv zeta in H.
      set (size := chunk_size len (maxburst_ (lim st))) in *.
      set (t1 := env_clock E (trace st)) in *.
      set (tr2 := EvRecv s buf size flags :: EvClock :: trace st) in *.
      set (t2 := env_clock E tr2) in *.
      set (now := env_clock E (EvClock :: tr2)) in *.
      set (result := to_int (sys_value (env_recv E (EvClock :: trace st) s buf size flags)))
        in *.
      set (d0 := recv_duration result (rate_ (lim st))) in *.
      destruct (Z.leb_spec result 0) as [Hle|Hgt]; inversion H; subst r st'; cbn [trace].
      { exists [EvRecv s buf size flags; EvClock]. split; [reflexivity|repeat constructor]. }
      assert (Hc : not_negative (recvextra_ (lim st) + time_diff2 t2 t1)%float).
      { apply nonneg_add; [assumption|].
        apply time_diff2_nonneg; try (apply clock_range_ts_ok, Hrange).
        apply (Hmono (trace st) [EvRecv s buf size flags; EvClock]). }
      assert (Hd : below_2p31 d0).
      { apply Hfit. split; [assumption|]. subst result.
        destruct (env_recv E (EvClock :: trace st) s buf size flags) as [n|err] eqn:Ha;
          cbn [sys_value] in *.
        - apply Hrb in Ha. pose proof (to_int_le n ltac:(lia)) as Hti.
          pose proof (chunk_size_le_maxburst len (maxburst_ (lim st))) as Hsz.
          fold size in Hsz. lia.
        - exfalso. revert Hgt. vm_compute. discriminate. }
      destruct (draw_down_duration d0 _ Hc Hd) as [Hfin Hlt]. cbv zeta in Hfin, Hlt.
      assert (Hsleep : sleep_valid
                (EvSleep (time_add (snd (snd (recv_critical t1 t2 now d0 (lim st))))
                                   (fst (snd (recv_critical t1 t2 now d0 (lim st))))))).
      { unfold recv_critical. destruct (draw_down d0 _) as [d' c'].
        cbn [fst] in Hfin, Hlt.
        pose proof (reserve_sleep_valid (recv_ (lim st)) now d'
                      (slot_ok_ts_ok 1 _ ltac:(lia) Hrecv) (Hrange _) Hfin Hlt) as Hv.
        destruct (reserve (recv_ (lim st)) now d') as [slot mine]. cbn [fst snd] in *.
        exact Hv. }
      eexists [_; _; _; _; _; _; _]. split; [reflexivity|].
      repeat (apply Forall_cons || apply Forall_nil); try exact I. exact Hsleep.
Qed.

Lemma sleeps_are_valid_witness :
  exists r st', send env_accept 10 3 100 1000 0 (start limiter) = Some (r, st')
                /\ exists tr', trace st' = tr' ++ [] /\ Forall sleep_valid tr'.
Proof.
  eexists. eexists. split; [vm_compute; reflexivity|].
  refine (proj1 (sleeps_are_valid env_accept 10 3 100 1000 0 (start limiter)
                   (ticking_clock_ok env_accept eq_refl)
                   env_accept_recv_bounded
                   ltac:(vm_compute; discriminate)
                   (conj eq_refl eq_refl)
                   limiter_durations_fit
                   ltac:(unfold slot_ok, normalized, nmax; cbn; lia)
                   ltac:(unfold slot_ok, normalized, nmax; cbn; lia)) _ _ _).
  vm_compute. reflexivity.
Defined.

(** ** The reservation *)

(** X19: the critical section of [send], and that of [recv], moves the
    next-eligible time to the later of its old value and the reading
    [now] of the clock, plus the whole seconds and the nanoseconds of
    the credit-adjusted duration; and the caller's waiting time before
    its slot is the old next-eligible time less [now], or nothing when
    that time has passed. *)
Theorem reservation_advance (now t1 t2 : timespec) (d : double) (L : RateLimiter) :
  ts_ok now -> ts_ok (send_ L) -> ts_ok (recv_ L) ->
  not_negative (sendextra_ L) -> not_negative (recvextra_ L) ->
  ts_ok t1 -> ts_ok t2 -> time_less t2 t1 = false ->
  below_2p31 d ->
  (let cr := send_critical now d L in
   let d' := fst (snd cr) in
   d' = fst (draw_down d (sendextra_ L))
   /\ ts_ns (send_ (fst cr))
      = Z.max (ts_ns (send_ L)) (ts_ns now) + trunc_Z d' * nmax + add_nsec d'
   /\ ts_ns (snd (snd cr)) = Z.max (ts_ns (send_ L) - ts_ns now) 0)
  /\ (let cr := recv_critical t1 t2 now d L in
      let d' := fst (snd cr) in
      d' = fst (draw_down d (recvextra_ L + time_diff2 t2 t1)%float)
      /\ ts_ns (recv_ (fst cr))
         = Z.max (ts_ns (recv_ L)) (ts_ns now) + trunc_Z d' * nmax + add_nsec d'
      /\ ts_ns (snd (snd cr)) = Z.max (ts_ns (recv_ L) - ts_ns now) 0).
Proof.
  intros Hnow Hs Hr Hse Hre Ht1 Ht2 Hord Hd. split; cbv zeta.
  - unfold send_critical.
    destruct (draw_down_duration d (sendextra_ L) Hse Hd) as [Hfin Hlt].
    destruct (draw_down d (sendextra_ L)) as [d' c']. cbn [fst] in Hfin, Hlt |- *.
    destruct (reserve_spec (send_ L) now d' Hs Hnow Hfin Hlt) as (_ & _ & _ & _ & H5 & H6).
    destruct (add_sec_nsec_bounds d' Hfin Hlt) as (Hsec & _).
    cbv zeta in H5, H6. rewrite Hsec in H5.
    destruct (reserve (send_ L) now d') as [slot mine]. cbn [fst snd send_ set_send_] in *.
    auto.
  - unfold recv_critical.
    assert (Hc : not_negative (recvextra_ L + time_diff2 t2 t1)%float).
    { apply nonneg_add; [assumption|]. apply time_diff2_nonneg; assumption. }
    destruct (draw_down_duration d _ Hc Hd) as [Hfin Hlt].
    destruct (draw_down d _) as [d' c']. cbn [fst] in Hfin, Hlt |- *.
    destruct (reserve_spec (recv_ L) now d' Hr Hnow Hfin Hlt) as (_ & _ & _ & _ & H5 & H6).
    destruct (add_sec_nsec_bounds d' Hfin Hlt) as (Hsec & _).
    cbv zeta in H5, H6. rewrite Hsec in H5.
    destruct (reserve (recv_ L) now d') as [slot mine]. cbn [fst snd recv_ set_recv_] in *.
    auto.
Qed.

Lemma reservation_advance_witness :
  let cr := send_critical (mk_timespec 1000 500) 0.75%float limiter in
  ts_ns (snd (snd cr)) = Z.max (ts_ns (send_ limiter) - ts_ns (mk_timespec 1000 500)) 0.
Proof.
  refine (proj2 (proj2 (proj1 (reservation_advance (mk_timespec 1000 500) t0 t0
                                 0.75%float limiter
                                 _ _ _ eq_refl eq_refl _ _ eq_refl eq_refl))));
    unfold ts_ok, nmax; cbn; lia.
Defined.

(** ** The ideal duration of a chunk *)

(** Rounding, with digits lost before it or not, is below every number
    of the format that the digits kept are strictly below. *)
Lemma binary_round_aux_lt sx M e lx D eD :
  0 < M -> e <= fexp64 (Zdigits2 M + e) ->
  0 < D -> canonical D eD -> eD <= emax - prec ->
  (F2R M e < F2R D eD)%R ->
  binary_round_aux prec emax sx M e lx = S754_zero sx
  \/ exists m' e',
       binary_round_aux prec emax sx M e lx = S754_finite sx m' e'
       /\ (F2R (Z.pos m') e' <= F2R D eD)%R.
Proof.
  intros HM Hpre HD Hcan Hbnd Hlt.
  destruct (binary_round_aux_spec sx M e lx ltac:(lia)) as (mR & HmR & _ & Heq).
  cbv zeta in Heq, HmR.
  set (n := Z.max (fexp64 (Zdigits2 M + e) - e) 0) in *.
  assert (Hn : n = fexp64 (Zdigits2 M + e) - e) by (subst n; lia).
  set (e1 := e + n) in *.
  assert (He1 : e1 = fexp64 (Zdigits2 M + e)) by (subst e1; lia).
  assert (HA : Zdigits2 M + e <= Zdigits2 D + eD).
  { destruct (F2R_digits M e HM) as [Hlo _]. destruct (F2R_digits D eD HD) as [_ Hhi].
    assert (Hl : (bpow (Zdigits2 M - 1 + e) < bpow (Zdigits2 D + eD))%R) by lra.
    apply bpow_lt_inv in Hl. lia. }
  assert (HB : e1 <= eD).
  { rewrite He1, <- Hcan. apply fexp_mono. assumption. }
  set (D' := D * 2 ^ (eD - e1)).
  assert (HD'val : F2R D' e1 = F2R D eD).
  { unfold D'. replace e1 with (eD - (eD - e1)) at 2 by ring. apply F2R_shift. lia. }
  assert (Hpn : 0 < 2 ^ n) by (apply Z.pow_pos_nonneg; lia).
  assert (HMlt : M < D' * 2 ^ n).
  { apply (F2R_lt_same_inv e).
    replace e with (e1 - n) at 2 by (subst e1; ring).
    rewrite F2R_shift by lia. lra. }
  assert (HmRle : mR <= D').
  { assert (M / 2 ^ n < D') by (apply Z.div_lt_upper_bound; lia). lia. }
  assert (HmR0 : 0 <= mR).
  { assert (0 <= M / 2 ^ n) by (apply Z.div_pos; lia). lia. }
  set (k := Z.max (fexp64 (Zdigits2 mR + e1) - e1) 0) in *.
  assert (Hpk : 0 < 2 ^ k) by (apply Z.pow_pos_nonneg; lia).
  assert (Hq0 : 0 <= mR / 2 ^ k) by (apply Z.div_pos; lia).
  destruct (mR / 2 ^ k) as [|q|q] eqn:Hq; [left; assumption| |lia].
  right.
  assert (HmRpos : 0 < mR).
  { destruct (Z.eq_dec mR 0) as [->|]; [rewrite Z.div_0_l in Hq by lia; discriminate|lia]. }
  assert (Hek : e1 + k <= eD).
  { destruct (Z.eq_dec k 0) as [->|Hk]; [lia|].
    assert (Hkk : e1 + k = fexp64 (Zdigits2 mR + e1)) by (subst k; lia).
    rewrite Hkk, <- Hcan. apply fexp_mono.
    assert (HdR : Zdigits2 mR <= Zdigits2 D') by (apply Zdigits2_le; lia).
    unfold D' in HdR. rewrite Zdigits2_shift in HdR by lia. lia. }
  replace (e1 + k <=? emax - prec) with true in Heq by (symmetry; apply Z.leb_le; lia).
  exists q, (e1 + k). split; [assumption|].
  rewrite <- Hq, <- HD'val.
  apply Rle_trans with (F2R mR e1); [|apply F2R_le_same; assumption].
  replace e1 with ((e1 + k) - k) at 2 by ring.
  rewrite <- (F2R_shift (mR / 2 ^ k) (e1 + k) k) by lia.
  apply F2R_le_same.
  rewrite Z.mul_comm. apply Z.mul_div_le. assumption.
Qed.

(** A quotient has at least the digits of the dividend less those of the
    divisor. *)
Lemma Zdigits2_div a b :
  0 < b -> b <= a -> Zdigits2 a - Zdigits2 b <= Zdigits2 (a / b).
Proof.
  intros Hb Hab.
  destruct (Zdigits2_bounds a ltac:(lia)) as [Hlo _].
  destruct (Zdigits2_bounds b Hb) as [_ Hhi].
  destruct (Z_le_gt_dec (Zdigits2 a - Zdigits2 b) 0) as [Hle|Hgt].
  { pose proof (Zdigits2_nonneg (a / b)). lia. }
  set (k := Zdigits2 a - Zdigits2 b - 1).
  assert (Hk : 0 <= k) by (subst k; lia).
  assert (Hpk : 0 < 2 ^ k) by (apply Z.pow_pos_nonneg; lia).
  assert (Hq : 2 ^ k <= a / b).
  { apply Z.div_le_lower_bound; [assumption|].
    assert (Hpow : 2 ^ (Zdigits2 a - 1) = 2 ^ k * 2 ^ Zdigits2 b).
    { rewrite <- Z.pow_add_r by (pose proof (Zdigits2_nonneg b); lia).
      f_equal. subst k. ring. }
    nia. }
  assert (Hd : Zdigits2 (2 ^ k) = k + 1).
  { apply Zdigits2_unique; [lia|]. replace (k + 1 - 1) with k by ring.
    rewrite Z.pow_add_r by lia. lia. }
  pose proof (Zdigits2_le (2 ^ k) (a / b) ltac:(lia)). lia.
Qed.

(** The quotient of two positive numbers of the format, the divisor 1 at
    least and the quotient far from the smallest numbers, is below every
    number of the format that the dividend is strictly below. *)
Lemma SFdiv_pos_le mx ex my ey D eD :
  (1 <= F2R (Z.pos my) ey)%R ->
  - 1021 <= Zdigits2 (Z.pos mx) + ex - (Zdigits2 (Z.pos my) + ey) ->
  0 < D -> canonical D eD -> eD <= emax - prec ->
  (F2R (Z.pos mx) ex < F2R D eD)%R ->
  let q := SFdiv prec emax (S754_finite false mx ex) (S754_finite false my ey) in
  SFfin_nonneg q /\ (SFval q <= F2R D eD)%R.
Proof.
  intros Hy Hrange HD Hcan Hbnd Hlt. cbv zeta. cbn [SFdiv xorb].
  unfold SFdiv_core_binary. change (SpecFloat.fexp prec emax) with fexp64.
  change (Z.pos (digits2_pos mx)) with (Zdigits2 (Z.pos mx)).
  change (Z.pos (digits2_pos my)) with (Zdigits2 (Z.pos my)).
  set (d1 := Zdigits2 (Z.pos mx)) in *. set (d2 := Zdigits2 (Z.pos my)) in *.
  set (e' := Z.min (fexp64 (d1 + ex - (d2 + ey))) (ex - ey)).
  set (s := ex - ey - e').
  assert (Hfe : fexp64 (d1 + ex - (d2 + ey)) = d1 + ex - (d2 + ey) - 53).
  { rewrite fexp_eq. lia. }
  assert (Hs : d2 - d1 + 53 <= s) by (subst s e'; lia).
  assert (Hs0 : 0 <= s) by (subst s e'; lia).
  set (m' := match s with Z.pos _ => Z.shiftl (Z.pos mx) s | Z0 => Z.pos mx | Z.neg _ => 0 end).
  assert (Hm' : m' = Z.pos mx * 2 ^ s).
  { subst m'. destruct s as [|p|p] eqn:Es; try lia.
    apply Z.shiftl_mul_pow2. lia. }
  clearbody m'.
  pose proof (Zdigits2_pos (Z.pos mx) ltac:(lia)) as Hd1.
  pose proof (Zdigits2_pos (Z.pos my) ltac:(lia)) as Hd2. fold d1 in Hd1. fold d2 in Hd2.
  assert (Hdm : Zdigits2 m' = d1 + s).
  { rewrite Hm'. apply Zdigits2_shift; lia. }
  assert (Hge : Z.pos my <= m').
  { destruct (Zdigits2_bounds (Z.pos my) ltac:(lia)) as [_ Hhi]. fold d2 in Hhi.
    destruct (Zdigits2_bounds m' ltac:(lia)) as [Hlo _]. rewrite Hdm in Hlo.
    assert (2 ^ d2 <= 2 ^ (d1 + s - 1)) by (apply Z.pow_le_mono_r; lia). lia. }
  pose proof (Zdigits2_div m' (Z.pos my) ltac:(lia) Hge) as Hdq.
  rewrite Hdm in Hdq. fold d2 in Hdq.
  pose proof (Z.div_pos m' (Z.pos my) ltac:(lia) ltac:(lia)) as Hq0.
  pose proof (Z.mul_div_le m' (Z.pos my) ltac:(lia)) as Hqm.
  assert (Hq1 : 0 < m' / Z.pos my).
  { apply Z.div_str_pos. lia. }
  unfold Z.div in Hdq, Hq0, Hqm, Hq1.
  destruct (Z.div_eucl m' (Z.pos my)) as [q r]. cbn [fst] in Hdq, Hq0, Hqm, Hq1.
  assert (Hval : (F2R q e' <= F2R (Z.pos mx) ex)%R).
  { assert (Hprod : (F2R q e' * F2R (Z.pos my) ey <= F2R (Z.pos mx) ex)%R).
    { rewrite <- (F2R_shift (Z.pos mx) ex s Hs0). rewrite <- Hm'.
      replace (ex - s) with (e' + ey) by (subst s; ring).
      unfold F2R. rewrite (bpow_add e' ey).
      apply IZR_le in Hqm. rewrite mult_IZR in Hqm.
      pose proof (bpow_gt0 e'). pose proof (bpow_gt0 ey).
      replace (IZR q * bpow e' * (IZR (Z.pos my) * bpow ey))%R
        with (IZR (Z.pos my) * IZR q * (bpow e' * bpow ey))%R by ring.
      apply Rmult_le_compat_r; [|exact Hqm].
      apply Rlt_le, Rmult_lt_0_compat; assumption. }
    pose proof (F2R_pos q e' Hq1). nra. }
  destruct (binary_round_aux_lt false q e' (new_location (Z.pos my) r) D eD)
    as [->|(mz & ez & -> & Hle)]; try assumption.
  - assert (Hmono : fexp64 (d1 + ex - (d2 + ey)) <= fexp64 (Zdigits2 q + e')).
    { apply fexp_mono. subst s. lia. }
    subst e'. lia.
  - lra.
  - cbn. split; [exact I|]. pose proof (F2R_pos D eD HD). lra.
  - cbn [SFfin_nonneg SFval cond_Zopp]. split; [exact I|exact Hle].
Qed.

(** A whole number below [2^53] is converted to a double exactly. *)
Lemma double_of_u64_value n :
  0 < n < 2 ^ 53 ->
  exists m e, Prim2SF (double_of_u64 n) = S754_finite false m e
              /\ F2R (Z.pos m) e = IZR n
              /\ Zdigits2 (Z.pos m) + e = Zdigits2 n.
Proof.
  intros Hn. unfold double_of_u64.
  replace (n <? 2 ^ 63) with true by (symmetry; apply Z.ltb_lt; lia).
  rewrite Prim2SF_of_Z63 by lia.
  destruct n as [|p|p]; try lia. cbn [binary_normalize].
  assert (Hd : Zdigits2 (Z.pos p) <= 53).
  { destruct (Zdigits2_bounds (Z.pos p) ltac:(lia)) as [Hlo _].
    destruct (Z_lt_le_dec 53 (Zdigits2 (Z.pos p))) as [Hgt|]; [|assumption].
    assert (2 ^ 53 <= 2 ^ (Zdigits2 (Z.pos p) - 1)) by (apply Z.pow_le_mono_r; lia).
    lia. }
  pose proof (Zdigits2_pos (Z.pos p) ltac:(lia)) as Hp.
  assert (Hez : fexp64 (Zdigits2 (Z.pos p) + 0) <= 0) by (rewrite fexp_eq; lia).
  destruct (binary_round_exact false p 0) as (mz & Hmz & Hm).
  - cbv zeta. exact Hez.
  - cbv zeta. rewrite fexp_eq. change (emax - prec) with 971. lia.
  - set (ez := fexp64 (Zdigits2 (Z.pos p) + 0)) in *.
    exists mz, ez. split; [exact Hmz|]. rewrite Hm. split.
    + replace ez with (0 - (0 - ez)) at 2 by ring. rewrite F2R_shift by lia. apply F2R_Z.
    + rewrite Zdigits2_shift by lia. ring.
Qed.

Lemma F2R_2p31m1 : F2R 9007199250546688 (-22) = 2147483647%R.
Proof.
  change 9007199250546688 with (2147483647 * 2 ^ 22). change (-22) with (0 - 22).
  rewrite F2R_shift by lia. apply F2R_Z.
Qed.

Lemma below_2p31_of_value x :
  SFfin_nonneg (Prim2SF x) -> (SFval (Prim2SF x) < 2147483648)%R ->
  not_negative x /\ below_2p31 x.
Proof.
  intros Hfin Hlt. split; [apply nonneg_spec, SFfin_nonneg_nonneg, Hfin|].
  unfold below_2p31. rewrite ltb_spec, Prim2SF_2p31.
  pose proof (Prim2SF_valid x) as Hv.
  destruct (Prim2SF x) as [s|[|]| |[|] m e]; cbn [SFfin_nonneg SFval cond_Zopp] in *;
    try tauto.
  destruct (SFvalid_canonical false m e Hv) as [Hc _].
  pose proof (SFcompare_pos m e 4503599627370496 (-21) Hc eq_refl) as H.
  rewrite F2R_2p31 in H. unfold SFltb.
  destruct (SFcompare _ _) as [[| |]|]; try reflexivity; try tauto; try lra.
  destruct H as [-> ->]. rewrite F2R_2p31 in Hlt. lra.
Qed.

(** The quotient of two whole numbers below [2^31], the divisor not 0,
    as computed in double precision. *)
Lemma quotient_fits n rate :
  0 <= n < 2 ^ 31 - 1 -> 0 < rate < 2 ^ 31 ->
  let d := (double_of_u64 n / double_of_u64 rate)%float in
  not_negative d /\ below_2p31 d.
Proof.
  intros Hn Hr. cbv zeta.
  assert (H : SFfin_nonneg (Prim2SF (double_of_u64 n / double_of_u64 rate))
              /\ (SFval (Prim2SF (double_of_u64 n / double_of_u64 rate))
                  <= 2147483647)%R).
  { rewrite div_spec.
    destruct (double_of_u64_value rate ltac:(lia)) as (my & ey & -> & Hvy & Hdy).
    destruct (Z.eq_dec n 0) as [->|Hnz].
    { change (Prim2SF (double_of_u64 0)) with (S754_zero false). cbn. split; [exact I|lra]. }
    destruct (double_of_u64_value n ltac:(lia)) as (mx & ex & -> & Hvx & Hdx).
    rewrite <- F2R_2p31m1. apply SFdiv_pos_le.
    - rewrite Hvy. apply IZR_le. lia.
    - rewrite Hdx, Hdy. pose proof (Zdigits2_pos n ltac:(lia)).
      assert (Zdigits2 rate <= 32).
      { apply Z.le_trans with (Zdigits2 (2 ^ 31)); [apply Zdigits2_le; lia|].
        vm_compute. discriminate. }
      lia.
    - lia.
    - reflexivity.
    - change (emax - prec) with 971. lia.
    - rewrite Hvx, F2R_2p31m1. apply IZR_lt. lia. }
  destruct H as [Hfin Hle]. apply below_2p31_of_value; [exact Hfin|lra].
Qed.

(** X17: at a positive rate and with a maximum burst below [2^28] bytes,
    the ideal duration of every chunk of [send] and of every receipt of
    [recv] is a number of seconds that is not negative and below
    [2^31], so that [time_add] converts it within the range of [int]. *)
Theorem chunk_durations_fit (L : RateLimiter) :
  0 < rate_ L <= INT_MAX ->
  0 <= maxburst_ L < 2 ^ 28 ->
  durations_fit L
  /\ (forall size, 0 <= size <= maxburst_ L ->
                   not_negative (send_duration size (rate_ L)))
  /\ (forall result, 0 < result <= maxburst_ L ->
                     not_negative (recv_duration result (rate_ L))).
Proof.
  intros Hr Hmb. unfold INT_MAX in Hr.
  assert (Hto : to_size (maxburst_ L) = maxburst_ L).
  { unfold to_size. apply Z.mod_small. lia. }
  assert (Hrate : double_of_Z (rate_ L) = double_of_u64 (rate_ L)).
  { unfold double_of_Z. destruct (Z.ltb_spec (rate_ L) 0); [lia|reflexivity]. }
  assert (Hsend : forall size, 0 <= size <= maxburst_ L ->
            not_negative (send_duration size (rate_ L))
            /\ below_2p31 (send_duration size (rate_ L))).
  { intros size Hs. unfold send_duration. rewrite Hrate.
    replace (to_size (size * 8)) with (size * 8)
      by (unfold to_size; rewrite Z.mod_small; lia).
    apply quotient_fits; lia. }
  assert (Hrecv : forall result, 0 < result <= maxburst_ L ->
            not_negative (recv_duration result (rate_ L))
            /\ below_2p31 (recv_duration result (rate_ L))).
  { intros result Hs. unfold recv_duration. rewrite Hrate.
    assert (Hi : to_int (result * 8) = result * 8).
    { unfold to_int, wrap_signed. change (2 ^ (32 - 1)) with (2 ^ 31).
      rewrite Z.mod_small; lia. }
    rewrite Hi. unfold double_of_Z. destruct (Z.ltb_spec (result * 8) 0); [lia|].
    apply quotient_fits; lia. }
  split; [split|split].
  - intros size Hs. rewrite Hto in Hs. apply Hsend, Hs.
  - intros result Hs. rewrite Hto in Hs. apply Hrecv, Hs.
  - intros size Hs. apply Hsend, Hs.
  - intros result Hs. apply Hrecv, Hs.
Qed.

Lemma chunk_durations_fit_witness : durations_fit Samples.limiter.
Proof.
  refine (proj1 (chunk_durations_fit Samples.limiter _ _)); vm_compute;
    split; reflexivity || discriminate.
Defined.

(** ** How close [time_add] is to the exact sum *)

Lemma F2R_pow2 k e : 0 <= k -> F2R (2 ^ k) e = bpow (k + e).
Proof. intros Hk. unfold F2R. rewrite <- bpow_Z by assumption. symmetry. apply bpow_add. Qed.

(** Rounding is above every number of the format that the exact value is
    above. *)
Lemma binary_round_aux_ge sx M e D eD :
  0 < M -> e <= fexp64 (Zdigits2 M + e) ->
  0 < D -> canonical D eD ->
  fexp64 (Zdigits2 M + e) < emax - prec ->
  (F2R D eD <= F2R M e)%R ->
  exists m' e',
    binary_round_aux prec emax sx M e loc_Exact = S754_finite sx m' e'
    /\ (F2R D eD <= F2R (Z.pos m') e')%R.
Proof.
  intros HM Hpre HD Hcan Hbnd Hle.
  destruct (binary_round_aux_spec sx M e loc_Exact ltac:(lia)) as (mR & HmR & _ & Heq).
  cbv zeta in Heq, HmR.
  set (n := Z.max (fexp64 (Zdigits2 M + e) - e) 0) in *.
  assert (Hn : n = fexp64 (Zdigits2 M + e) - e) by (subst n; lia).
  set (e1 := e + n) in *.
  assert (He1 : e1 = fexp64 (Zdigits2 M + e)) by (subst e1; lia).
  set (q := M / 2 ^ n) in *.
  assert (Hpn : 0 < 2 ^ n) by (apply Z.pow_pos_nonneg; lia).
  pose proof (Zdigits2_pos M HM) as HdM.
  destruct (Zdigits2_bounds M HM) as [HMlo HMhi].
  assert (HA : Zdigits2 D + eD <= Zdigits2 M + e).
  { destruct (F2R_digits D eD HD) as [Hlo _]. destruct (F2R_digits M e HM) as [_ Hhi].
    assert (Hl : (bpow (Zdigits2 D - 1 + eD) < bpow (Zdigits2 M + e))%R) by lra.
    apply bpow_lt_inv in Hl. lia. }
  assert (HB : eD <= e1).
  { rewrite He1, <- Hcan. apply fexp_mono. assumption. }
  assert (Hemin : -1074 <= e1).
  { rewrite He1. apply (fexp_ge_emin (Zdigits2 M + e)). }
  assert (Hn53 : Zdigits2 M - 53 <= n).
  { rewrite Hn, fexp_eq. lia. }
  (* the truncated mantissa is above the bound *)
  assert (HqD : (F2R D eD <= F2R q e1)%R).
  { destruct (Z.eq_dec eD e1) as [Heq1|Hne].
    - rewrite Heq1 in *. apply F2R_le_same. subst q.
      apply Z.div_le_lower_bound; [assumption|].
      apply (F2R_le_same_inv e).
      replace e with (e1 - n) at 1 by (subst e1; ring).
      rewrite Z.mul_comm, F2R_shift by lia. assumption.
    - assert (Hlt : Zdigits2 D + eD < Zdigits2 M + e).
      { destruct (Z.eq_dec (Zdigits2 D + eD) (Zdigits2 M + e)) as [Hd|]; [|lia].
        exfalso. apply Hne. unfold canonical in Hcan. rewrite <- Hcan, Hd. symmetry.
        exact He1. }
      assert (Hn' : n = Zdigits2 M - 53).
      { destruct (canonical_digits D eD HD Hcan) as [_ HeD]. change emin64 with (-1074) in HeD.
        rewrite Hn, fexp_eq. rewrite He1, fexp_eq in HB, Hne. lia. }
      assert (Hk : 0 <= Zdigits2 M - 1 - n) by lia.
      assert (Hq : 2 ^ (Zdigits2 M - 1 - n) <= q).
      { subst q. apply Z.div_le_lower_bound; [assumption|].
        rewrite <- Z.pow_add_r by lia.
        replace (n + (Zdigits2 M - 1 - n)) with (Zdigits2 M - 1) by ring. assumption. }
      apply Rle_trans with (F2R (2 ^ (Zdigits2 M - 1 - n)) e1);
        [|apply F2R_le_same; assumption].
      rewrite F2R_pow2 by lia.
      replace (Zdigits2 M - 1 - n + e1) with (Zdigits2 M - 1 + e) by (subst e1; ring).
      destruct (F2R_digits D eD HD) as [_ Hhi].
      assert (Hb : (bpow (Zdigits2 D + eD) <= bpow (Zdigits2 M - 1 + e))%R)
        by (apply bpow_le; lia).
      lra. }
  assert (Hq0 : 0 < q).
  { apply (F2R_lt_same_inv e1). rewrite F2R_0. pose proof (F2R_pos D eD HD). lra. }
  assert (Hq53 : q < 2 ^ 53).
  { assert (Hnd : n < Zdigits2 M).
    { destruct (Z_lt_le_dec n (Zdigits2 M)) as [|Hge]; [assumption|].
      assert (2 ^ Zdigits2 M <= 2 ^ n) by (apply Z.pow_le_mono_r; lia).
      assert (q = 0) by (subst q; apply Z.div_small; lia). lia. }
    assert (Hlt : q < 2 ^ (Zdigits2 M - n)).
    { subst q. apply Z.div_lt_upper_bound; [assumption|].
      rewrite <- Z.pow_add_r by lia.
      replace (n + (Zdigits2 M - n)) with (Zdigits2 M) by ring. assumption. }
    assert (2 ^ (Zdigits2 M - n) <= 2 ^ 53) by (apply Z.pow_le_mono_r; lia). lia. }
  assert (HmRq : (F2R q e1 <= F2R mR e1)%R) by (apply F2R_le_same; lia).
  set (k := Z.max (fexp64 (Zdigits2 mR + e1) - e1) 0) in *.
  destruct (Z_lt_le_dec mR (2 ^ 53)) as [Hsmall|Hbig].
  - assert (HdR : Zdigits2 mR <= 53).
    { destruct (Zdigits2_bounds mR ltac:(lia)) as [Hlo _].
      destruct (Z_lt_le_dec 53 (Zdigits2 mR)) as [Hgt|]; [|assumption].
      assert (2 ^ 53 <= 2 ^ (Zdigits2 mR - 1)) by (apply Z.pow_le_mono_r; lia). lia. }
    assert (Hk0 : k = 0) by (subst k; rewrite fexp_eq; lia).
    rewrite Hk0, Z.div_1_r, Z.add_0_r in Heq.
    destruct mR as [|pR|pR]; try lia.
    replace (e1 <=? emax - prec) with true in Heq by (symmetry; apply Z.leb_le; lia).
    exists pR, e1. split; [exact Heq|lra].
  - assert (HmR53 : mR = 2 ^ 53) by lia.
    assert (Hk1 : k = 1).
    { subst k. rewrite HmR53. change (Zdigits2 (2 ^ 53)) with 54. rewrite fexp_eq. lia. }
    rewrite Hk1, HmR53 in Heq. change (2 ^ 53 / 2 ^ 1) with (Z.pos 4503599627370496) in Heq.
    replace (e1 + 1 <=? emax - prec) with true in Heq by (symmetry; apply Z.leb_le; lia).
    exists 4503599627370496%positive, (e1 + 1). split; [exact Heq|].
    apply Rle_trans with (F2R mR e1); [lra|].
    rewrite HmR53. change (2 ^ 53) with (4503599627370496 * 2 ^ 1).
    replace e1 with (e1 + 1 - 1) at 1 by ring. rewrite F2R_shift by lia. lra.
Qed.

Lemma Zdigits2_mul a b : 0 < a -> 0 < b -> Zdigits2 (a * b) <= Zdigits2 a + Zdigits2 b.
Proof.
  intros Ha Hb.
  destruct (Zdigits2_bounds a Ha) as [_ Hahi]. destruct (Zdigits2_bounds b Hb) as [_ Hbhi].
  destruct (Zdigits2_bounds (a * b) ltac:(lia)) as [Hlo _].
  pose proof (Zdigits2_nonneg a). pose proof (Zdigits2_nonneg b).
  assert (Hp : a * b < 2 ^ (Zdigits2 a + Zdigits2 b)) by (rewrite Z.pow_add_r by lia; nia).
  destruct (Z_lt_le_dec (Zdigits2 a + Zdigits2 b) (Zdigits2 (a * b))) as [Hgt|]; [|assumption].
  assert (2 ^ (Zdigits2 a + Zdigits2 b) <= 2 ^ (Zdigits2 (a * b) - 1))
    by (apply Z.pow_le_mono_r; lia).
  lia.
Qed.

(** A whole number below [2^53] is a number of the format. *)
Lemma int_canonical k :
  0 < k < 2 ^ 53 ->
  exists D eD, 0 < D /\ canonical D eD /\ eD <= emax - prec /\ F2R D eD = IZR k.
Proof.
  intros Hk. destruct (double_of_u64_value k Hk) as (m & e & Hp & Hv & _).
  pose proof (SFvalid_Prim2SF (double_of_u64 k)) as Hval. rewrite Hp in Hval.
  destruct (SFvalid_canonical _ _ _ Hval) as [Hc Hb].
  exists (Z.pos m), e. repeat split; try assumption; lia.
Qed.

(** [binary_normalize] changes nothing of a number that fits the
    format. *)
Lemma binary_normalize_exact M e0 :
  0 <= M < 2 ^ 53 -> -1074 <= e0 <= 971 ->
  SFfin_nonneg (binary_normalize prec emax M e0 false)
  /\ SFval (binary_normalize prec emax M e0 false) = F2R M e0.
Proof.
  intros HM He. destruct M as [|p|p]; try lia; cbn [binary_normalize].
  - cbn. split; [exact I|]. rewrite F2R_0. reflexivity.
  - assert (Hd : Zdigits2 (Z.pos p) <= 53).
    { destruct (Zdigits2_bounds (Z.pos p) ltac:(lia)) as [Hlo _].
      destruct (Z_lt_le_dec 53 (Zdigits2 (Z.pos p))) as [Hgt|]; [|assumption].
      assert (2 ^ 53 <= 2 ^ (Zdigits2 (Z.pos p) - 1)) by (apply Z.pow_le_mono_r; lia).
      lia. }
    destruct (binary_round_exact false p e0) as (mz & -> & Hm).
    + cbv zeta. rewrite fexp_eq. lia.
    + cbv zeta. rewrite fexp_eq. change (emax - prec) with 971. lia.
    + cbv zeta in Hm. set (ez := fexp64 (Zdigits2 (Z.pos p) + e0)) in *.
      assert (Hez : ez <= e0) by (subst ez; rewrite fexp_eq; lia).
      cbn [SFfin_nonneg SFval cond_Zopp]. split; [exact I|]. rewrite Hm.
      replace ez with (e0 - (e0 - ez)) at 2 by ring. apply F2R_shift. lia.
Qed.

(** The integer part of a double that is not negative is its floor. *)
Lemma trunc_Z_floor x :
  SFfin_nonneg (Prim2SF x) ->
  0 <= trunc_Z x
  /\ (IZR (trunc_Z x) <= SFval (Prim2SF x) < IZR (trunc_Z x) + 1)%R.
Proof.
  intros Hfin. destruct (Prim2SF x) as [s|s| |[|] m e] eqn:Hx; cbn [SFfin_nonneg] in Hfin;
    try tauto.
  - unfold trunc_Z. rewrite Hx. cbn [SFval]. split; [lia|lra].
  - rewrite (trunc_Z_finite x m e Hx). cbn [SFval cond_Zopp]. apply ipart_bounds.
Qed.

(** The fractional part [x - trunc x] is computed exactly. *)
Lemma frac_exact x :
  SFfin_nonneg (Prim2SF x) -> (SFval (Prim2SF x) < 2147483648)%R ->
  SFval (Prim2SF (x - trunc x)) = (SFval (Prim2SF x) - IZR (trunc_Z x))%R.
Proof.
  intros Hfin Hlt. rewrite sub_spec.
  pose proof (SFvalid_Prim2SF x) as Hval.
  destruct (Prim2SF x) as [s|s| |[|] m e] eqn:Hx; cbn [SFfin_nonneg] in Hfin; try tauto.
  - assert (Ht : trunc x = x) by (unfold trunc; rewrite Hx; reflexivity).
    rewrite Ht, Hx. unfold trunc_Z. rewrite Hx. destruct s; cbn; lra.
  - cbn [SFval cond_Zopp] in Hlt |- *.
    destruct (ipart_bounds m e) as (Hi0 & Hilo & Hihi).
    rewrite (trunc_Z_finite x m e Hx).
    destruct (SFvalid_canonical _ _ _ Hval) as [Hcan Hbnd].
    destruct (canonical_digits (Z.pos m) e ltac:(lia) Hcan) as [Hdm Hemin].
    change emin64 with (-1074) in Hemin. change prec with 53 in Hdm.
    assert (Hself :
      SFsub prec emax (S754_finite false m e) (S754_finite false m e) = S754_zero false).
    { destruct (SFsub_pos_spec m e m e) as (M & -> & HM).
      assert (M = 0).
      { assert (0 <= M) by (apply (F2R_nonneg_inv M (Z.min e e)); lra).
        assert (M <= 0) by (apply (F2R_le_same_inv (Z.min e e)); rewrite F2R_0; lra).
        lia. }
      subst M. reflexivity. }
    destruct e as [|p|p].
    + assert (Ht : trunc x = x) by (unfold trunc; rewrite Hx; reflexivity).
      rewrite Ht, Hx. unfold SF64sub. rewrite Hself. cbn [ipart SFval].
      rewrite Z.mul_1_r, F2R_Z. lra.
    + assert (Ht : trunc x = x) by (unfold trunc; rewrite Hx; reflexivity).
      rewrite Ht, Hx. unfold SF64sub. rewrite Hself. cbn [ipart SFval].
      rewrite F2R_int by lia. lra.
    + cbn [ipart] in *. set (k := Z.pos m / 2 ^ Z.pos p) in *.
      assert (Hk31 : k < 2 ^ 31).
      { apply lt_IZR. change (2 ^ 31) with 2147483648. lra. }
      assert (Ht : Prim2SF (trunc x) = binary_normalize prec emax k 0 false).
      { unfold trunc. rewrite Hx. fold k. apply Prim2SF_of_Z63. lia. }
      rewrite Ht. unfold SF64sub.
      destruct k as [|kp|kp] eqn:Ek; [| |lia].
      * cbn [binary_normalize SFsub SFval cond_Zopp]. lra.
      * cbn [binary_normalize].
        assert (Hdk : Zdigits2 (Z.pos kp) <= 31).
        { destruct (Zdigits2_bounds (Z.pos kp) ltac:(lia)) as [Hlo _].
          destruct (Z_lt_le_dec 31 (Zdigits2 (Z.pos kp))) as [Hgt|]; [|assumption].
          assert (2 ^ 31 <= 2 ^ (Zdigits2 (Z.pos kp) - 1)) by (apply Z.pow_le_mono_r; lia).
          lia. }
        pose proof (Zdigits2_pos (Z.pos kp) ltac:(lia)) as Hdk0.
        destruct (binary_round_exact false kp 0) as (kz & -> & Hkzv).
        { cbv zeta. rewrite fexp_eq. lia. }
        { cbv zeta. rewrite fexp_eq. change (emax - prec) with 971. lia. }
        cbv zeta in Hkzv. set (ez := fexp64 (Zdigits2 (Z.pos kp) + 0)) in *.
        assert (Hez : ez = Zdigits2 (Z.pos kp) - 53) by (subst ez; rewrite fexp_eq; lia).
        assert (Hkzval : F2R (Z.pos kz) ez = IZR (Z.pos kp)).
        { rewrite Hkzv. replace ez with (0 - (0 - ez)) at 2 by ring.
          rewrite F2R_shift by lia. apply F2R_Z. }
        destruct (SFsub_pos_spec m (Z.neg p) kz ez) as (M & -> & HM).
        rewrite Hkzval in HM.
        set (e0 := Z.min (Z.neg p) ez) in *.
        assert (HM0 : 0 <= M) by (apply (F2R_nonneg_inv M e0); lra).
        assert (HM53 : M < 2 ^ 53).
        { destruct (Z.min_spec (Z.neg p) ez) as [[_ He0]|[_ He0]]; fold e0 in He0.
          - assert (M <= Z.pos m).
            { apply (F2R_le_same_inv e0). rewrite He0.
              rewrite He0 in HM. pose proof (IZR_lt 0 (Z.pos kp) ltac:(lia)). lra. }
            destruct (Zdigits2_bounds (Z.pos m) ltac:(lia)) as [_ Hhi].
            assert (2 ^ Zdigits2 (Z.pos m) <= 2 ^ 53) by (apply Z.pow_le_mono_r; lia). lia.
          - assert (Hlt1 : (F2R M e0 < F2R (2 ^ (- e0)) e0)%R).
            { rewrite F2R_pow2 by lia. replace (- e0 + e0) with 0 by ring.
              change (bpow 0) with 1%R. lra. }
            apply F2R_lt_same_inv in Hlt1.
            assert (2 ^ (- e0) <= 2 ^ 53) by (apply Z.pow_le_mono_r; lia). lia. }
        destruct (binary_normalize_exact M e0 ltac:(lia)) as [_ ->].
        { subst e0. lia. }
        rewrite HM. reflexivity.
Qed.

(** The product of a fractional part and [10^9], as computed in double
    precision, is on the same side of every whole number as the exact
    product. *)
Lemma mul_nmax_bounds f :
  SFfin_nonneg (Prim2SF f) -> (SFval (Prim2SF f) < 1)%R ->
  let P := Prim2SF (f * double_of_Z nmax) in
  let x := (SFval (Prim2SF f) * 1000000000)%R in
  (forall k, 0 < k < 2 ^ 53 -> (IZR k <= x)%R -> (IZR k <= SFval P)%R)
  /\ (forall k, 0 < k < 2 ^ 53 -> (x <= IZR k)%R -> (SFval P <= IZR k)%R)
  /\ (x = 0%R -> SFval P = 0%R).
Proof.
  intros Hfin Hlt. cbv zeta. rewrite mul_spec, Prim2SF_nmax. unfold SF64mul.
  destruct (Prim2SF f) as [s|s| |[|] m e]; cbn [SFfin_nonneg] in Hfin; try tauto.
  - cbn [SFmul SFval]. split; [|split].
    + intros k Hk Hle. pose proof (IZR_lt 0 k ltac:(lia)). lra.
    + intros k Hk Hle. pose proof (IZR_lt 0 k ltac:(lia)). lra.
    + reflexivity.
  - cbn [SFmul xorb SFval cond_Zopp] in *.
    change (Z.pos (m * 8388608000000000)) with (Z.pos m * 8388608000000000).
    set (M := Z.pos m * 8388608000000000).
    assert (HM : 0 < M) by (subst M; lia).
    assert (Hx : F2R M (e + -23) = (F2R (Z.pos m) e * 1000000000)%R).
    { subst M. rewrite F2R_mult, F2R_nmax. reflexivity. }
    assert (Hdlo : 53 <= Zdigits2 M).
    { assert (Zdigits2 8388608000000000 <= Zdigits2 M)
        by (apply Zdigits2_le; subst M; lia).
      change (Zdigits2 8388608000000000) with 53 in *. assumption. }
    assert (Hdhi : Zdigits2 M + (e + -23) <= 30).
    { pose proof (Zdigits2_mul (Z.pos m) 8388608000000000 ltac:(lia) ltac:(lia)) as Hd.
      change (Zdigits2 8388608000000000) with 53 in Hd. fold M in Hd.
      destruct (F2R_digits (Z.pos m) e ltac:(lia)) as [Hlo _].
      assert (Hb : (bpow (Zdigits2 (Z.pos m) - 1 + e) < bpow 0)%R)
        by (change (bpow 0) with 1%R; lra).
      apply bpow_lt_inv in Hb. lia. }
    assert (Hpre : e + -23 <= fexp64 (Zdigits2 M + (e + -23))) by (rewrite fexp_eq; lia).
    assert (Hbnd : fexp64 (Zdigits2 M + (e + -23)) < emax - prec).
    { rewrite fexp_eq. change (emax - prec) with 971. lia. }
    split; [|split].
    + intros k Hk Hle.
      destruct (int_canonical k Hk) as (D & eD & HD & Hcan & _ & HDv).
      destruct (binary_round_aux_ge false M (e + -23) D eD) as (m' & e' & -> & Hb);
        try assumption.
      * rewrite HDv, Hx. exact Hle.
      * cbn [SFval cond_Zopp]. rewrite <- HDv. exact Hb.
    + intros k Hk Hle.
      destruct (int_canonical k Hk) as (D & eD & HD & Hcan & HeD & HDv).
      destruct (binary_round_aux_le false M (e + -23) D eD) as [->|(m' & e' & -> & Hb)];
        try assumption.
      * rewrite HDv, Hx. exact Hle.
      * cbn [SFval]. pose proof (IZR_lt 0 k ltac:(lia)). lra.
      * cbn [SFval cond_Zopp]. rewrite <- HDv. exact Hb.
    + intros H0. pose proof (F2R_pos (Z.pos m) e ltac:(lia)). lra.
Qed.

(** The nanoseconds that [time_add] adds for the fractional part of a
    duration are within one nanosecond of the exact amount. *)
Lemma add_nsec_accurate d :
  SFfin_nonneg (Prim2SF d) -> (SFval (Prim2SF d) < 2147483648)%R ->
  let x := ((SFval (Prim2SF d) - IZR (trunc_Z d)) * 1000000000)%R in
  (x - 1 < IZR (add_nsec d) < x + 1)%R.
Proof.
  intros Hfin Hlt x.
  destruct (trunc_spec d Hfin Hlt) as (_ & _ & _ & Hffin & _).
  pose proof (frac_exact d Hfin Hlt) as Hfv.
  destruct (trunc_Z_floor d Hfin) as (_ & Hdlo & Hdhi).
  set (f := (d - trunc d)%float) in *.
  assert (Hf1 : (SFval (Prim2SF f) < 1)%R) by lra.
  destruct (frac_ns f Hffin ltac:(lra)) as (HPfin & HPle).
  destruct (mul_nmax_bounds f Hffin Hf1) as (Hge & Hle & Hz). cbv zeta in Hge, Hle, Hz.
  rewrite Hfv in Hge, Hle, Hz. fold x in Hge, Hle, Hz.
  unfold add_nsec. fold f. set (P := (f * double_of_Z nmax)%float) in *.
  destruct (trunc_spec P HPfin ltac:(lra)) as (-> & _).
  destruct (trunc_Z_floor P HPfin) as (HN0 & HNlo & HNhi).
  set (N := trunc_Z P) in *.
  assert (Hx0 : (0 <= x < 1000000000)%R) by (subst x; lra).
  destruct (archimed x) as [Hup1 Hup2].
  assert (Hu1 : 1 <= up x).
  { assert (0 < up x) by (apply lt_IZR; lra). lia. }
  assert (Hu2 : up x <= 1000000000).
  { assert (up x < 1000000001) by (apply lt_IZR; lra). lia. }
  assert (Hkf : IZR (up x - 1) = (IZR (up x) - 1)%R) by (rewrite minus_IZR; reflexivity).
  assert (H253 : 1000000000 < 2 ^ 53) by reflexivity.
  split.
  - destruct (Z.eq_dec (up x) 1) as [H1|Hn1].
    + rewrite H1 in Hup1. apply IZR_le in HN0. lra.
    + assert (Hk : (IZR (up x - 1) <= SFval (Prim2SF P))%R)
        by (apply Hge; [lia|lra]).
      assert (up x - 1 < N + 1) by (apply lt_IZR; rewrite plus_IZR; lra).
      assert (Hn : (IZR (up x - 1) <= IZR N)%R) by (apply IZR_le; lia).
      lra.
  - assert (Hk : (SFval (Prim2SF P) <= IZR (up x))%R) by (apply Hle; [lia|lra]).
    assert (HNu : N <= up x) by (apply le_IZR; lra).
    destruct (Rle_lt_dec x (IZR (up x - 1))) as [Hint|Hnot].
    + (* the exact amount is a whole number *)
      assert (HNk : N <= up x - 1).
      { destruct (Z.eq_dec (up x) 1) as [H1|Hn1].
        - rewrite H1 in Hint. change (IZR (1 - 1)) with 0%R in Hint.
          assert (Hx : x = 0%R) by lra. apply Hz in Hx.
          apply le_IZR. rewrite H1. change (IZR (1 - 1)) with 0%R. lra.
        - assert ((SFval (Prim2SF P) <= IZR (up x - 1))%R) by (apply Hle; [lia|lra]).
          apply le_IZR. lra. }
      apply IZR_le in HNk. lra.
    + apply IZR_le in HNu. lra.
Qed.

(** C8, counterexample: [time_add] does not yield the exact sum for every
    non-negative duration and every normalized timestamp.  [2^-32]
    seconds added to 10 s leaves 10 s, and the double nearest to 0.3,
    [0x1.3333333333333p-2], added to 10 s gives 10.3 s, more than the
    exact sum, that double being below three tenths;
    [3 * 10^9] seconds added to 10 s gives a time before 10 s, the
    conversion to [int] being out of range; and at the end of the range
    of [time_t] both [time_add] and [time_diff] wrap around. *)
Lemma time_add_not_exact :
  ~ (forall t d, normalized t -> not_negative d ->
                 (ts_Q (time_add t d) == ts_Q t + double_Q d)%Q)
  /\ (ts_Q (mk_timespec 10 0) + double_Q 0x1.3333333333333p-2%float
      < ts_Q (time_add (mk_timespec 10 0) 0x1.3333333333333p-2%float))%Q
  /\ time_add (mk_timespec 10 0) 3000000000%float = mk_timespec (10 - 2 ^ 31) 0
  /\ time_add (mk_timespec (2 ^ 63 - 1) 0) 1%float = mk_timespec (- 2 ^ 63) 0
  /\ (time_less (mk_timespec (2 ^ 63 - 1) 0) (mk_timespec (-1) 0) = false
      /\ time_diff (mk_timespec (2 ^ 63 - 1) 0) (mk_timespec (-1) 0)
         = mk_timespec (- 2 ^ 63) 0).
Proof.
  split; [|split; [|split; [|split; [|split]]]].
  - intros H.
    specialize (H (mk_timespec 10 0) (1 / 4294967296)%float).
    assert (Hn : normalized (mk_timespec 10 0)) by (unfold normalized, nmax; cbn; lia).
    specialize (H Hn eq_refl). revert H. vm_compute. discriminate.
  - vm_compute. reflexivity.
  - vm_compute. reflexivity.
  - vm_compute. reflexivity.
  - vm_compute. reflexivity.
  - vm_compute. reflexivity.
Qed.

(** [time_add] whenever the sum fits [time_t]. *)
Lemma time_add_fits t d :
  normalized t -> - 2 ^ 63 <= tv_sec t ->
  SFfin_nonneg (Prim2SF d) -> (SFval (Prim2SF d) < 2147483648)%R ->
  ts_ns t + add_sec d * nmax + add_nsec d < 2 ^ 63 * nmax ->
  ts_ns (time_add t d) = ts_ns t + add_sec d * nmax + add_nsec d
  /\ normalized (time_add t d).
Proof.
  intros Hnsec Hsec Hfin Hlt Hfit.
  destruct (add_sec_nsec_bounds d Hfin Hlt) as (_ & HS & HN).
  unfold time_add. fold (add_sec d) (add_nsec d).
  set (S := add_sec d) in *. set (N := add_nsec d) in *.
  unfold normalized, ts_ns, nmax in *.
  rewrite (to_long_small (tv_sec t + S)) by lia.
  rewrite (to_long_small (tv_nsec t + N)) by lia.
  destruct (Z.leb_spec 1000000000 (tv_nsec t + N)) as [Hge|Hlt'];
    cbn [tv_sec tv_nsec].
  - assert (Hq : Z.quot (tv_nsec t + N) 1000000000 = 1).
    { rewrite Z.quot_div_nonneg by lia.
      symmetry. apply (Z.div_unique _ _ 1 (tv_nsec t + N - 1000000000)); lia. }
    assert (Hr : Z.rem (tv_nsec t + N) 1000000000 = tv_nsec t + N - 1000000000).
    { rewrite Z.rem_mod_nonneg by lia.
      symmetry. apply (Z.mod_unique _ _ 1 (tv_nsec t + N - 1000000000)); lia. }
    rewrite Hq, Hr. rewrite to_long_small by lia. lia.
  - lia.
Qed.

(** [time_diff] whenever the difference of the seconds fits [time_t]. *)
Lemma time_diff_fits a b :
  normalized a -> normalized b -> time_less a b = false ->
  tv_sec a - tv_sec b < 2 ^ 63 ->
  ts_ns (time_diff a b) = ts_ns a - ts_ns b
  /\ normalized (time_diff a b).
Proof.
  intros Hna Hnb Hle Hfit.
  pose proof (time_less_sec a b Hna Hnb Hle) as Hsec.
  apply (time_less_false a b Hna Hnb) in Hle.
  unfold time_diff, ts_ns, normalized, nmax in *.
  rewrite (to_long_small (tv_sec a - tv_sec b)) by lia.
  rewrite (to_long_small (tv_nsec a - tv_nsec b)) by lia.
  destruct (Z.ltb_spec (tv_nsec a - tv_nsec b) 0); cbn [tv_sec tv_nsec].
  - rewrite !to_long_small by lia. lia.
  - lia.
Qed.

(** C8, amended: [time_less] is the strict order of normalized
    timestamps.  For a normalized timestamp [t] and a duration [d] with
    [0 <= d < 2^31], whenever the result fits [time_t], [time_add]
    yields a normalized timestamp that is [t] plus the whole seconds of
    [d] plus a whole number of nanoseconds for its fractional part, none
    when [d] is a whole number; the result is less than one nanosecond
    away from the exact sum of [t] and [d].  For normalized [a >= b],
    whenever the difference of their seconds fits [time_t],
    [time_diff] yields exactly [a - b], normalized; and [time_diff2] is
    the seconds of [time_diff] plus its nanoseconds over [10^9] in
    double precision. *)
Theorem time_arithmetic :
  (forall a b, normalized a -> normalized b ->
               (time_less a b = true <-> ts_ns a < ts_ns b))
  /\ (forall t d, normalized t -> - 2 ^ 63 <= tv_sec t ->
                  not_negative d -> below_2p31 d ->
                  ts_ns t + trunc_Z d * nmax + add_nsec d < 2 ^ 63 * nmax ->
                  normalized (time_add t d)
                  /\ ts_ns (time_add t d) = ts_ns t + trunc_Z d * nmax + add_nsec d
                  /\ 0 <= add_nsec d <= nmax
                  /\ (trunc d = d -> add_nsec d = 0)
                  /\ (Rabs (IZR (ts_ns (time_add t d))
                            - (IZR (ts_ns t) + double_R d * 1000000000)) < 1)%R)
  /\ (forall a b, normalized a -> normalized b -> time_less a b = false ->
                  tv_sec a - tv_sec b < 2 ^ 63 ->
                  normalized (time_diff a b)
                  /\ ts_ns (time_diff a b) = ts_ns a - ts_ns b)
  /\ (forall a b,
        time_diff2 a b =
        (double_of_Z (tv_sec (time_diff a b))
         + double_of_Z (tv_nsec (time_diff a b)) / double_of_Z nmax)%float).
Proof.
  split; [exact time_less_spec|]. split; [|split; [|exact time_diff2_time_diff]].
  - intros t d Ht Hsec Hd Hb Hfit.
    destruct (below_2p31_spec d Hd Hb) as [Hfin Hlt].
    destruct (add_sec_nsec_bounds d Hfin Hlt) as (Hs & _ & HN).
    rewrite <- Hs in Hfit |- *.
    destruct (time_add_fits t d Ht Hsec Hfin Hlt Hfit) as (Hns & Hnorm).
    pose proof (add_nsec_accurate d Hfin Hlt) as Hacc. cbv zeta in Hacc.
    split; [assumption|]. split; [assumption|]. split; [assumption|]. split.
    + intros Hw. apply add_nsec_whole; [|assumption].
      apply fin_nonneg_spec. assumption.
    + rewrite Hns, Hs. unfold double_R, nmax.
      rewrite !plus_IZR, mult_IZR. apply Rabs_def1; lra.
  - intros a b Ha Hb Hle Hfit. destruct (time_diff_fits a b Ha Hb Hle Hfit) as (H1 & H2).
    split; assumption.
Qed.

Lemma time_arithmetic_witness :
  ts_ns (time_add t0 0.75%float)
  = ts_ns t0 + trunc_Z 0.75%float * nmax + add_nsec 0.75%float.
Proof.
  refine (proj1 (proj2 (proj1 (proj2 time_arithmetic) t0 0.75%float
                          _ _ eq_refl eq_refl _))).
  - unfold normalized, nmax; cbn; lia.
  - cbn; lia.
  - vm_compute. reflexivity.
Defined.

Lemma send_turns_nonneg cs : 0 <= send_turns cs.
Proof. induction cs as [|[f s b l fl|s b l fl] cs IH]; cbn [send_turns]; lia. Qed.

Lemma recv_turns_nonneg cs : 0 <= recv_turns cs.
Proof. induction cs as [|[f s b l fl|s b l fl] cs IH]; cbn [recv_turns]; lia. Qed.

Lemma send_turns_app a b : send_turns (a ++ b) = send_turns a + send_turns b.
Proof.
  induction a as [|[f s bu l fl|s bu l fl] a IH]; cbn [send_turns app]; try rewrite IH; lia.
Qed.

Lemma recv_turns_app a b : recv_turns (a ++ b) = recv_turns a + recv_turns b.
Proof.
  induction a as [|[f s bu l fl|s bu l fl] a IH]; cbn [recv_turns app]; try rewrite IH; lia.
Qed.

Lemma slot_ok_weaken m n t : 0 <= m <= n -> slot_ok n t -> slot_ok m t.
Proof. intros Hm (H1 & H2 & H3). repeat split; try apply H1; lia. Qed.

Lemma send_call_schedule E fuel s buf len flags st r st' ns nr :
  clock_ok E -> 0 <= ns -> 0 <= nr ->
  2 ^ 32 * (Z.of_nat fuel + ns) <= 2 ^ 59 ->
  schedule_ready (Z.of_nat fuel + ns) nr (lim st) ->
  send E fuel s buf len flags st = Some (r, st') ->
  ts_ns (send_ (lim st)) <= ts_ns (send_ (lim st'))
  /\ recv_ (lim st') = recv_ (lim st)
  /\ schedule_ready ns nr (lim st').
Proof.
  intros Hclock Hns Hnr Hroom ([Hcs Hcr] & Hfit & Hs & Hr) H.
  unfold send, bind, get_lim in H.
  destruct (Z.eqb_spec (rate_ (lim st)) 0) as [Hz|Hnz].
  - unfold sys_send in H. rewrite syscall_eq in H. inversion H; subst. cbn [lim].
    split; [lia|]. split; [reflexivity|].
    split; [split; assumption|]. split; [assumption|]. split; [|assumption].
    apply (slot_ok_weaken ns (Z.of_nat fuel + ns)); [lia|assumption].
  - destruct (send_loop_invariant E
                (fun f L => 2 ^ 32 * (Z.of_nat f + ns) <= 2 ^ 59
                            /\ not_negative (sendextra_ L) /\ durations_fit L
                            /\ slot_ok (Z.of_nat f + ns) (send_ L)
                            /\ ts_ns (send_ (lim st)) <= ts_ns (send_ L)
                            /\ recv_ L = recv_ (lim st)
                            /\ recvextra_ L = recvextra_ (lim st)) Hclock)
      with (fuel := fuel) (s := s) (ptr := buf) (total := len) (flags := flags)
           (len := len) (st := st) (r := r) (st' := st')
      as [f' (_ & Hc' & Hfit' & Hslot' & Hmono & Hr' & Hx')]; auto.
    + intros f L now t1 t2 total (Hf & Hc & Hd & Hsl & Hmono & Hr' & Hx') Htot Hnow Ht1 Ht2 Hle.
      rewrite Nat2Z.inj_succ in Hf, Hsl.
      replace (Z.succ (Z.of_nat f) + ns) with (Z.of_nat f + ns + 1) in Hf, Hsl by lia.
      destruct (send_chunk_schedule now t1 t2 total L (Z.of_nat f + ns))
        as (Hc1 & Hd1 & Hsl1 & Hns1 & Hr1); try assumption; try lia.
      destruct (send_chunk_fields now t1 t2 total L) as (_ & _ & _ & Hx1 & _).
      cbv zeta in Hc1, Hd1, Hsl1, Hns1, Hr1, Hx1.
      split; [lia|]. split; [assumption|]. split; [assumption|]. split; [assumption|].
      split; [lia|]. split; congruence.
    + split; [assumption|]. split; [assumption|]. split; [assumption|].
      split; [assumption|]. split; [lia|]. split; reflexivity.
    + split; [assumption|]. split; [assumption|].
      split; [split; [assumption|rewrite Hx'; assumption]|].
      split; [assumption|]. split; [|rewrite Hr'; assumption].
      apply (slot_ok_weaken ns (Z.of_nat f' + ns)); [lia|assumption].
Qed.

Lemma recv_call_schedule E s buf len flags st r st' ns nr :
  clock_ok E -> recv_bounded E -> 0 <= ns -> 0 <= nr ->
  2 ^ 32 * (nr + 1) <= 2 ^ 59 ->
  schedule_ready ns (nr + 1) (lim st) ->
  recv E s buf len flags st = Some (r, st') ->
  ts_ns (recv_ (lim st)) <= ts_ns (recv_ (lim st'))
  /\ send_ (lim st') = send_ (lim st)
  /\ schedule_ready ns nr (lim st').
Proof.
  intros [Hrange Hmono] Hrb Hns Hnr Hroom ([Hcs Hcr] & Hfit & Hs & Hr) H.
  assert (Hsame : ts_ns (recv_ (lim st)) <= ts_ns (recv_ (lim st))
                  /\ send_ (lim st) = send_ (lim st)
                  /\ schedule_ready ns nr (lim st)).
  { split; [lia|]. split; [reflexivity|].
    split; [split; assumption|]. split; [assumption|]. split; [assumption|].
    apply (slot_ok_weaken nr (nr + 1)); [lia|assumption]. }
  destruct (Z.eq_dec (rate_ (lim st)) 0) as [Hz|Hnz].
  - unfold recv, bind, get_lim, sys_recv in H.
    rewrite Hz in H. cbn [Z.eqb] in H. rewrite syscall_eq in H.
    inversion H; subst. cbn [lim]. exact Hsame.
  - rewrite (recv_paced E s buf len flags st Hnz) in H.
    unfold recv_paced_run in H. cbv zeta in H.
    set (size := chunk_size len (maxburst_ (lim st))) in *.
    set (t1 := env_clock E (trace st)) in *.
    set (tr2 := EvRecv s buf size flags :: EvClock :: trace st) in *.
    set (t2 := env_clock E tr2) in *.
    set (now := env_clock E (EvClock :: tr2)) in *.
    set (result := to_int (sys_value (env_recv E (EvClock :: trace st) s buf size flags)))
      in *.
    set (d0 := recv_duration result (rate_ (lim st))) in *.
    destruct (Z.leb_spec result 0) as [Hle|Hgt];
      inversion H; subst r st'; cbn [lim]; [exact Hsame|].
    destruct (recv_critical_fields t1 t2 now d0 (lim st))
      as (Hslot & Hcredit & Hsd & Hsx & Hrate & Hmb).
    cbv zeta in Hslot, Hcredit, Hsd, Hsx, Hrate, Hmb.
    assert (Hc : not_negative (recvextra_ (lim st) + time_diff2 t2 t1)%float).
    { apply nonneg_add; [assumption|].
      apply time_diff2_nonneg; try (apply clock_range_ts_ok, Hrange).
      apply (Hmono (trace st) [EvRecv s buf size flags; EvClock]). }
    assert (Hd : below_2p31 d0).
    { apply Hfit. split; [assumption|]. subst result.
      destruct (env_recv E (EvClock :: trace st) s buf size flags) as [n|err] eqn:Ha;
        cbn [sys_value] in *.
      - apply Hrb in Ha. pose proof (to_int_le n ltac:(lia)) as Hti.
        pose proof (chunk_size_le_maxburst len (maxburst_ (lim st))) as Hsz.
        fold size in Hsz. lia.
      - exfalso. revert Hgt. vm_compute. discriminate. }
    destruct (reserve_after_draw_down (recv_ (lim st)) now d0 _ nr Hnr ltac:(lia)
                Hr (Hrange _) Hc Hd) as (Hslot' & Hnsle & _).
    cbv zeta in Hslot', Hnsle.
    rewrite Hslot, Hsd. split; [assumption|]. split; [reflexivity|].
    unfold schedule_ready, credits_nonneg, durations_fit.
    rewrite Hslot, Hcredit, Hsd, Hsx, Hrate, Hmb.
    split; [split; [assumption|]|split; [exact Hfit|split; assumption]].
    apply draw_down_credit_nonneg; [assumption|]. apply below_2p31_not_nan. assumption.
Qed.

Lemma run_calls_schedule E : clock_ok E -> recv_bounded E ->
  forall cs st st' ns nr,
    0 <= ns -> 0 <= nr ->
    2 ^ 32 * (send_turns cs + ns) <= 2 ^ 59 ->
    2 ^ 32 * (recv_turns cs + nr) <= 2 ^ 59 ->
    schedule_ready (send_turns cs + ns) (recv_turns cs + nr) (lim st) ->
    run_calls E cs st = Some (tt, st') ->
    ts_ns (send_ (lim st)) <= ts_ns (send_ (lim st'))
    /\ ts_ns (recv_ (lim st)) <= ts_ns (recv_ (lim st'))
    /\ schedule_ready ns nr (lim st').
Proof.
  intros Hclock Hrb.
  induction cs as [|c cs IH]; intros st st' ns nr Hns Hnr Hrs Hrr Hready H.
  - inversion H; subst. cbn [send_turns recv_turns] in Hready.
    split; [lia|]. split; [lia|exact Hready].
  - cbn [run_calls] in H. unfold bind in H.
    destruct (run_call E c st) as [[r st1]|] eqn:Hc; [|discriminate].
    pose proof (send_turns_nonneg cs) as Hst0. pose proof (recv_turns_nonneg cs) as Hrt0.
    destruct c as [fuel s buf len flags|s buf len flags];
      cbn [run_call send_turns recv_turns] in *.
    + destruct (send_call_schedule E fuel s buf len flags st r st1
                  (send_turns cs + ns) (recv_turns cs + nr) Hclock)
        as (G1 & G2 & G3); try assumption; try lia.
      { replace (Z.of_nat fuel + (send_turns cs + ns))
          with (Z.of_nat fuel + send_turns cs + ns) by ring. assumption. }
      destruct (IH st1 st' ns nr) as (G4 & G5 & G6); try assumption; try lia.
      rewrite G2 in G5. split; [lia|]. split; assumption.
    + destruct (recv_call_schedule E s buf len flags st r st1
                  (send_turns cs + ns) (recv_turns cs + nr) Hclock Hrb)
        as (G1 & G2 & G3); try assumption; try lia.
      { replace (recv_turns cs + nr + 1) with (1 + recv_turns cs + nr) by ring.
        assumption. }
      destruct (IH st1 st' ns nr) as (G4 & G5 & G6); try assumption; try lia.
      rewrite G2 in G4. split; [assumption|]. split; [lia|assumption].
Qed.

(** C3, counterexample: a [send] can move the next-eligible time back.
    It does when the credit is negative enough, as storage that no
    constructor initialises may leave it; when the clock goes back by
    as much between two readings; when the next-eligible time is at the
    end of the range of [time_t]; and when the ideal duration of a
    chunk is [2^31] seconds or more. *)
Lemma schedule_moves_back :
  (exists r st',
      send env_accept 10 3 100 100 0
        (start (mk_RateLimiter t0 t0 (-3000000000)%float 0%float 8000 500))
      = Some (r, st')
      /\ time_less (send_ (lim st')) t0 = true)
  /\ (exists r st',
         send env_clock_jump 10 3 100 1000 0 (start limiter) = Some (r, st')
         /\ time_less (send_ (lim st')) (send_ limiter) = true)
  /\ (exists r st',
         send env_accept 10 3 100 500 0
           (start (mk_RateLimiter (mk_timespec (2 ^ 63 - 1) 600000000) t0
                     0%float 0%float 8000 500))
         = Some (r, st')
         /\ time_less (send_ (lim st')) (mk_timespec (2 ^ 63 - 1) 600000000) = true)
  /\ (exists r st',
         send env_accept 10 3 100 3000000000000 0
           (start (mk_RateLimiter t0 t0 0%float 0%float 8000 (-1)))
         = Some (r, st')
         /\ time_less (send_ (lim st')) t0 = true).
Proof.
  repeat split; eexists; eexists; (split; [vm_compute; reflexivity|reflexivity]).
Qed.

Lemma advance_nonneg d :
  SFfin_nonneg (Prim2SF d) -> (SFval (Prim2SF d) < 2147483648)%R -> 0 <= advance d.
Proof.
  intros Hfin Hlt. destruct (add_sec_nsec_bounds d Hfin Hlt) as (Hs & Hs0 & Hn).
  unfold advance, nmax in *. rewrite <- Hs. nia.
Qed.

(** One reservation, whenever its result fits [time_t]. *)
Lemma reserve_fits slot now d :
  normalized slot -> normalized now ->
  - 2 ^ 63 <= tv_sec slot -> - 2 ^ 63 <= tv_sec now ->
  not_negative d -> below_2p31 d ->
  Z.max (ts_ns slot) (ts_ns now) + advance d < 2 ^ 63 * nmax ->
  ts_ns (fst (reserve slot now d)) = Z.max (ts_ns slot) (ts_ns now) + advance d
  /\ 0 <= advance d
  /\ normalized (fst (reserve slot now d))
  /\ time_less (fst (reserve slot now d)) slot = false.
Proof.
  intros Hs Hn Hsl Hnl Hd0 Hd1 Hfit.
  destruct (below_2p31_spec d Hd0 Hd1) as [Hfin Hlt].
  pose proof (advance_nonneg d Hfin Hlt) as Hadv.
  destruct (add_sec_nsec_bounds d Hfin Hlt) as (Hsec & _).
  unfold advance in *. rewrite <- Hsec in *.
  unfold reserve. destruct (time_less slot now) eqn:Hless; cbn [fst].
  - apply (time_less_spec slot now Hs Hn) in Hless.
    assert (Hset : time_set now = now) by (destruct now; reflexivity). rewrite Hset.
    destruct (time_add_fits now d Hn Hnl Hfin Hlt ltac:(lia)) as [He Hnorm].
    split; [lia|]. split; [lia|]. split; [assumption|].
    apply time_less_false; try assumption. lia.
  - apply (time_less_false slot now Hs Hn) in Hless.
    destruct (time_add_fits slot d Hs Hsl Hfin Hlt ltac:(lia)) as [He Hnorm].
    split; [lia|]. split; [lia|]. split; [assumption|].
    apply time_less_false; try assumption. lia.
Qed.

Lemma send_one_chunk_slot E fuel s buf len flags st r st' :
  rate_ (lim st) <> 0 -> 0 < len <= to_size (maxburst_ (lim st)) ->
  send E fuel s buf len flags st = Some (r, st') ->
  let now := env_clock E (trace st) in
  let d' := fst (draw_down (send_duration len (rate_ (lim st))) (sendextra_ (lim st))) in
  normalized (send_ (lim st)) -> normalized now ->
  - 2 ^ 63 <= tv_sec (send_ (lim st)) -> - 2 ^ 63 <= tv_sec now ->
  not_negative d' -> below_2p31 d' ->
  Z.max (ts_ns (send_ (lim st))) (ts_ns now) + advance d' < 2 ^ 63 * nmax ->
  ts_ns (send_ (lim st')) = Z.max (ts_ns (send_ (lim st))) (ts_ns now) + advance d'
  /\ time_less (send_ (lim st')) (send_ (lim st)) = false.
Proof.
  intros Hr Hlen H now d' Hs Hn Hsl Hnl Hd0 Hd1 Hfit.
  unfold send, bind, get_lim in H. apply Z.eqb_neq in Hr. rewrite Hr in H.
  destruct fuel as [|fuel]; [discriminate|].
  rewrite send_loop_step in H. cbv zeta in H.
  assert (Hsize : chunk_size len (maxburst_ (lim st)) = len).
  { unfold chunk_size. destruct (Z.ltb_spec (to_size (maxburst_ (lim st))) len); lia. }
  rewrite Hsize in H. destruct (Z.ltb_spec 0 len); [|lia].
  destruct (sendall _ _ _ _ _ _ _) as [[r1 st1]|] eqn:Hsa; [|discriminate].
  apply sendall_loop_lim in Hsa. destruct Hsa as [Hlim _].
  rewrite Z.sub_diag in H. change (to_size 0) with 0 in H.
  destruct fuel as [|fuel]; [discriminate|].
  rewrite send_loop_step in H. cbn [Z.ltb Z.compare] in H. inversion H; subst r st'.
  unfold after_sendall, send_account. cbn [lim send_ set_sendextra_].
  rewrite Hlim. unfold before_sendall. cbv zeta. cbn [lim]. rewrite Hsize.
  destruct (send_critical_fields (env_clock E (trace st))
              (send_duration len (rate_ (lim st))) (lim st)) as (Hslot & _).
  cbv zeta in Hslot. rewrite Hslot. fold now. fold d'.
  destruct (reserve_fits (send_ (lim st)) now d') as (G1 & _ & _ & G4); try assumption.
  split; assumption.
Qed.

Lemma recv_slot E s buf len flags st r st' :
  rate_ (lim st) <> 0 ->
  recv E s buf len flags st = Some (r, st') ->
  let tr2 := EvRecv s buf (chunk_size len (maxburst_ (lim st))) flags
               :: EvClock :: trace st in
  let now := env_clock E (EvClock :: tr2) in
  let d' := fst (draw_down (recv_duration r (rate_ (lim st)))
                   (recvextra_ (lim st)
                    + time_diff2 (env_clock E tr2) (env_clock E (trace st)))%float) in
  (0 < r <= INT_MAX ->
   normalized (recv_ (lim st)) -> normalized now ->
   - 2 ^ 63 <= tv_sec (recv_ (lim st)) -> - 2 ^ 63 <= tv_sec now ->
   not_negative d' -> below_2p31 d' ->
   Z.max (ts_ns (recv_ (lim st))) (ts_ns now) + advance d' < 2 ^ 63 * nmax ->
   ts_ns (recv_ (lim st')) = Z.max (ts_ns (recv_ (lim st))) (ts_ns now) + advance d'
   /\ time_less (recv_ (lim st')) (recv_ (lim st)) = false)
  /\ (~ 0 < r <= INT_MAX -> lim st' = lim st).
Proof.
  intros Hnz H.
  rewrite (recv_paced E s buf len flags st Hnz) in H.
  unfold recv_paced_run in H. cbv zeta in H.
  set (size := chunk_size len (maxburst_ (lim st))) in *.
  set (t1 := env_clock E (trace st)) in *.
  set (tr2 := EvRecv s buf size flags :: EvClock :: trace st) in *.
  set (t2 := env_clock E tr2) in *.
  set (now := env_clock E (EvClock :: tr2)) in *.
  set (result := to_int (sys_value (env_recv E (EvClock :: trace st) s buf size flags)))
    in *.
  pose proof (to_int_range (sys_value (env_recv E (EvClock :: trace st) s buf size flags)))
    as Hres. fold result in Hres. unfold INT_MIN, INT_MAX in Hres.
  cbv zeta. fold size. fold tr2. fold t1. fold t2. fold now.
  destruct (Z.leb_spec result 0) as [Hle|Hgt]; inversion H; subst r st'; cbn [lim].
  - split; [|reflexivity]. intros Hpos. exfalso.
    unfold to_size, INT_MAX in Hpos.
    destruct (Z.eq_dec result 0) as [->|Hne]; [cbn in Hpos; lia|].
    assert (Hm : result mod 2 ^ 64 = result + 2 ^ 64).
    { symmetry. apply (Z.mod_unique _ _ (-1)); lia. }
    rewrite Hm in Hpos. lia.
  - assert (Hto : to_size result = result).
    { unfold to_size. apply Z.mod_small. lia. }
    rewrite Hto. split; [intros _|unfold INT_MAX; lia].
    intros Hs Hn Hsl Hnl Hd0 Hd1 Hfit.
    destruct (recv_critical_fields t1 t2 now (recv_duration result (rate_ (lim st)))
                (lim st)) as (Hslot & _).
    cbv zeta in Hslot. rewrite Hslot.
    destruct (reserve_fits (recv_ (lim st)) now _ Hs Hn Hsl Hnl Hd0 Hd1 Hfit)
      as (G1 & _ & _ & G4).
    split; assumption.
Qed.

(** C3, amended: a reservation, made in the critical section of [send]
    or of [recv], is handed the next-eligible time of its direction,
    the reading [now] of the clock and the credit-adjusted duration.
    Let both timestamps be normalized values of [time_t], the adjusted
    duration be not negative and below [2^31] seconds, and the result
    fit [time_t].  Then the reservation moves the next-eligible time to
    the later of its old value and [now], plus the whole nanoseconds of
    the adjusted duration, which are not negative: it advances the old
    value, or resets it to [now] and advances that, and the result is
    normalized and not before the old value.  A [send] of one chunk that
    returns has made one such reservation, from the reading of the clock
    at its start; a [recv] that returns a count has made one, for the
    duration of the count received, and a [recv] that returns 0 or
    [(size_t) -1] has made none.  For sequences of calls, take a limiter
    whose credits are not negative, whose ideal durations are below
    [2^31] seconds for every chunk up to the maximum burst, and whose
    next-eligible times are normalized, with seconds from [-2^61] up to
    [2^61] less [2^32] for every chunk to be sent and every receive to
    come, at most [2^27] of each; a clock whose readings are normalized,
    with seconds from 0 to [2^60], and never go back; and a [::recv]
    that hands back at most what it is asked for.  Then in every
    sequence of calls of [send] and [recv] that return, the
    next-eligible time of either direction is at no point before what it
    was at an earlier point, and the conditions hold again at the
    end. *)
Theorem schedule_never_moves_back :
  (forall now d L,
      let d' := fst (draw_down d (sendextra_ L)) in
      let L' := fst (send_critical now d L) in
      normalized (send_ L) -> normalized now ->
      - 2 ^ 63 <= tv_sec (send_ L) -> - 2 ^ 63 <= tv_sec now ->
      not_negative d' -> below_2p31 d' ->
      Z.max (ts_ns (send_ L)) (ts_ns now) + advance d' < 2 ^ 63 * nmax ->
      ts_ns (send_ L') = Z.max (ts_ns (send_ L)) (ts_ns now) + advance d'
      /\ 0 <= advance d'
      /\ normalized (send_ L')
      /\ time_less (send_ L') (send_ L) = false)
  /\ (forall t1 t2 now d L,
         let d' := fst (draw_down d (recvextra_ L + time_diff2 t2 t1)%float) in
         let L' := fst (recv_critical t1 t2 now d L) in
         normalized (recv_ L) -> normalized now ->
         - 2 ^ 63 <= tv_sec (recv_ L) -> - 2 ^ 63 <= tv_sec now ->
         not_negative d' -> below_2p31 d' ->
         Z.max (ts_ns (recv_ L)) (ts_ns now) + advance d' < 2 ^ 63 * nmax ->
         ts_ns (recv_ L') = Z.max (ts_ns (recv_ L)) (ts_ns now) + advance d'
         /\ 0 <= advance d'
         /\ normalized (recv_ L')
         /\ time_less (recv_ L') (recv_ L) = false)
  /\ (forall E fuel s buf len flags st r st',
         rate_ (lim st) <> 0 -> 0 < len <= to_size (maxburst_ (lim st)) ->
         send E fuel s buf len flags st = Some (r, st') ->
         let now := env_clock E (trace st) in
         let d' := fst (draw_down (send_duration len (rate_ (lim st)))
                          (sendextra_ (lim st))) in
         normalized (send_ (lim st)) -> normalized now ->
         - 2 ^ 63 <= tv_sec (send_ (lim st)) -> - 2 ^ 63 <= tv_sec now ->
         not_negative d' -> below_2p31 d' ->
         Z.max (ts_ns (send_ (lim st))) (ts_ns now) + advance d' < 2 ^ 63 * nmax ->
         ts_ns (send_ (lim st')) = Z.max (ts_ns (send_ (lim st))) (ts_ns now) + advance d'
         /\ time_less (send_ (lim st')) (send_ (lim st)) = false)
  /\ (forall E s buf len flags st r st',
         rate_ (lim st) <> 0 ->
         recv E s buf len flags st = Some (r, st') ->
         let tr2 := EvRecv s buf (chunk_size len (maxburst_ (lim st))) flags
                      :: EvClock :: trace st in
         let now := env_clock E (EvClock :: tr2) in
         let d' := fst (draw_down (recv_duration r (rate_ (lim st)))
                          (recvextra_ (lim st)
                           + time_diff2 (env_clock E tr2)
                               (env_clock E (trace st)))%float) in
         (0 < r <= INT_MAX ->
          normalized (recv_ (lim st)) -> normalized now ->
          - 2 ^ 63 <= tv_sec (recv_ (lim st)) -> - 2 ^ 63 <= tv_sec now ->
          not_negative d' -> below_2p31 d' ->
          Z.max (ts_ns (recv_ (lim st))) (ts_ns now) + advance d' < 2 ^ 63 * nmax ->
          ts_ns (recv_ (lim st')) = Z.max (ts_ns (recv_ (lim st))) (ts_ns now) + advance d'
          /\ time_less (recv_ (lim st')) (recv_ (lim st)) = false)
         /\ (~ 0 < r <= INT_MAX -> lim st' = lim st))
  /\ (forall E cs1 cs2 st st1 st2,
         clock_ok E -> recv_bounded E ->
         2 ^ 32 * send_turns (cs1 ++ cs2) <= 2 ^ 59 ->
         2 ^ 32 * recv_turns (cs1 ++ cs2) <= 2 ^ 59 ->
         schedule_ready (send_turns (cs1 ++ cs2)) (recv_turns (cs1 ++ cs2)) (lim st) ->
         run_calls E cs1 st = Some (tt, st1) ->
         run_calls E cs2 st1 = Some (tt, st2) ->
         time_less (send_ (lim st2)) (send_ (lim st1)) = false
         /\ time_less (recv_ (lim st2)) (recv_ (lim st1)) = false
         /\ schedule_ready 0 0 (lim st2)).
Proof.
  split; [|split; [|split; [exact send_one_chunk_slot|split; [exact recv_slot|]]]].
  - intros now d L d' L'.
    destruct (send_critical_fields now d L) as (Hslot & _). cbv zeta in Hslot.
    subst L'. rewrite Hslot. apply reserve_fits.
  - intros t1 t2 now d L d' L'.
    destruct (recv_critical_fields t1 t2 now d L) as (Hslot & _). cbv zeta in Hslot.
    subst L'. rewrite Hslot. apply reserve_fits.
  - intros E cs1 cs2 st st1 st2 Hclock Hrb Hrs Hrr Hready H1 H2.
    rewrite send_turns_app in Hrs, Hready. rewrite recv_turns_app in Hrr, Hready.
    pose proof (send_turns_nonneg cs1) as Hs1. pose proof (send_turns_nonneg cs2) as Hs2.
    pose proof (recv_turns_nonneg cs1) as Hr1. pose proof (recv_turns_nonneg cs2) as Hr2.
    destruct (run_calls_schedule E Hclock Hrb cs1 st st1 (send_turns cs2) (recv_turns cs2))
      as (_ & _ & Hready1); try assumption; try lia.
    destruct (run_calls_schedule E Hclock Hrb cs2 st1 st2 0 0)
      as (Hs & Hr & Hready2); try assumption; try lia.
    { rewrite !Z.add_0_r. assumption. }
    destruct Hready1 as (_ & _ & Hsl1 & Hrl1). pose proof Hready2 as (_ & _ & Hsl2 & Hrl2).
    split; [|split; [|assumption]].
    + apply time_less_false; try assumption;
        [apply (slot_ok_normalized _ _ Hsl2)|apply (slot_ok_normalized _ _ Hsl1)].
    + apply time_less_false; try assumption;
        [apply (slot_ok_normalized _ _ Hrl2)|apply (slot_ok_normalized _ _ Hrl1)].
Qed.

Lemma schedule_never_moves_back_witness :
  (exists st1 st2,
      run_calls env_accept [CallSend 10 3 100 1000 0] (start limiter) = Some (tt, st1)
      /\ run_calls env_accept [CallRecv 3 200 1000 0; CallSend 10 3 100 700 0] st1
         = Some (tt, st2)
      /\ time_less (send_ (lim st2)) (send_ (lim st1)) = false
      /\ time_less (recv_ (lim st2)) (recv_ (lim st1)) = false)
  /\ (exists r st',
         send env_accept 10 3 100 500 0 (start limiter) = Some (r, st')
         /\ ts_ns (send_ (lim st')) = 1000250000000
         /\ time_less (send_ (lim st')) (send_ limiter) = false).
Proof.
  split.
  - eexists. eexists. split; [vm_compute; reflexivity|]. split; [vm_compute; reflexivity|].
    match goal with
    | |- time_less (send_ (lim ?s2)) (send_ (lim ?s1)) = false /\ _ =>
        assert (E1 : run_calls env_accept [CallSend 10 3 100 1000 0] (start limiter)
                     = Some (tt, s1)) by (vm_compute; reflexivity);
        assert (E2 : run_calls env_accept [CallRecv 3 200 1000 0; CallSend 10 3 100 700 0] s1
                     = Some (tt, s2)) by (vm_compute; reflexivity)
    end.
    assert (Hr : schedule_ready
                   (send_turns ([CallSend 10 3 100 1000 0]
                                ++ [CallRecv 3 200 1000 0; CallSend 10 3 100 700 0]))
                   (recv_turns ([CallSend 10 3 100 1000 0]
                                ++ [CallRecv 3 200 1000 0; CallSend 10 3 100 700 0]))
                   (lim (start limiter))).
    { split; [split; reflexivity|]. split; [exact limiter_durations_fit|].
      split; repeat split; vm_compute; reflexivity || discriminate. }
    pose proof (proj2 (proj2 (proj2 (proj2 schedule_never_moves_back))) env_accept
                 [CallSend 10 3 100 1000 0]
                 [CallRecv 3 200 1000 0; CallSend 10 3 100 700 0]
                 (start limiter) _ _ (ticking_clock_ok env_accept eq_refl)
                 env_accept_recv_bounded
                 ltac:(vm_compute; discriminate)
                 ltac:(vm_compute; discriminate) Hr E1 E2) as H.
    exact (conj (proj1 H) (proj1 (proj2 H))).
  - eexists. eexists. split; [vm_compute; reflexivity|].
    match goal with
    | |- ts_ns (send_ (lim ?s1)) = _ /\ _ =>
        assert (E1 : send env_accept 10 3 100 500 0 (start limiter) = Some (500, s1))
          by (vm_compute; reflexivity)
    end.
    assert (Hrate : rate_ (lim (start limiter)) <> 0) by (vm_compute; discriminate).
    assert (Hlen : 0 < 500 <= to_size (maxburst_ (lim (start limiter))))
      by (vm_compute; split; [reflexivity|discriminate]).
    pose proof (proj1 (proj2 (proj2 schedule_never_moves_back)) env_accept
                 10%nat 3 100 500 0 (start limiter) _ _ Hrate Hlen E1) as H.
    cbv zeta in H.
    assert (N1 : normalized (send_ (lim (start limiter))))
      by (vm_compute; split; [discriminate|reflexivity]).
    assert (N2 : normalized (env_clock env_accept (trace (start limiter))))
      by (vm_compute; split; [discriminate|reflexivity]).
    assert (B1 : - 2 ^ 63 <= tv_sec (send_ (lim (start limiter))))
      by (vm_compute; discriminate).
    assert (B2 : - 2 ^ 63 <= tv_sec (env_clock env_accept (trace (start limiter))))
      by (vm_compute; discriminate).
    specialize (H N1 N2 B1 B2 ltac:(vm_compute; reflexivity) ltac:(vm_compute; reflexivity)
                  ltac:(vm_compute; reflexivity)).
    destruct H as [H1 H2]. split; [|exact H2].
    rewrite H1. vm_compute. reflexivity.
Defined.
